(** * Item packer: order calculation, pack consolidation and the pack storage

    A shallow embedding of the Go packages [models], [storage] and
    [handlers] of item-packer-inc, and the properties of the order calculation
    ([CalculateOrder]: greedy fill, residual pack, consolidation), of the
    catalog mutators, of the bounded order history and of the HTTP handlers.

    Conventions of the embedding.
    - Go's [int] is taken to be 64 bits wide.  It is modelled as [Z], and every
      addition, subtraction and multiplication of the source goes through
      [wrap], Go's two's-complement wrap-around.
    - A run-time panic (integer division by zero, index or slice bound out of
      range) is the outcome [Panic]; a Go [error] result is a value of
      [option error] next to the ordinary results.
    - The pointer receiver [s *PackStorage] becomes explicit state passing.
      [*models.Pack] values are never shared between the storage and an order
      ([getPacks] copies them), so packs are modelled as values.
    - The mutex [mu] is left out: the functions are taken to run one at a time,
      as the lock makes the mutators do.
    - The package-level variable [SoftLimit] is an explicit argument.
    - Go leaves the iteration order of [range] over a map unspecified.  The
      order chosen by the run time is an explicit argument ([MapRange]) of the
      functions that iterate over the map [sizeGroups].
    - Of the web framework only what a handler decides is modelled: the parsed
      path parameters are its arguments, and the status and JSON document it
      writes, or the error it returns, are its result. *)

From Stdlib Require Import ZArith Lia.
From stdpp Require Import base tactics option list sorting strings gmap.

Local Open Scope Z_scope.

(** ** Machine integers *)

Definition min_int : Z := - 2 ^ 63.
Definition max_int : Z := 2 ^ 63 - 1.

Definition wrap (z : Z) : Z := (z + 2 ^ 63) `mod` 2 ^ 64 - 2 ^ 63.

Definition in_range (z : Z) : Prop := min_int ≤ z ≤ max_int.

Definition int_add (a b : Z) : Z := wrap (a + b).
Definition int_sub (a b : Z) : Z := wrap (a - b).
Definition int_mul (a b : Z) : Z := wrap (a * b).

(** ** Outcomes of a Go function call: a result, or a run-time panic *)

Inductive outcome (A : Type) : Type :=
  | Done (a : A)
  | Panic.
Arguments Done {A} a.
Arguments Panic {A}.

#[global] Instance outcome_ret : MRet outcome := λ A a, Done a.
#[global] Instance outcome_bind : MBind outcome := λ A B f m,
  match m with
  | Done a => f a
  | Panic => Panic
  end.
#[global] Instance outcome_fmap : FMap outcome := λ A B f m,
  match m with
  | Done a => Done (f a)
  | Panic => Panic
  end.

(** Go's [/] and [%] truncate towards zero and panic on a zero divisor. *)
Definition int_quo (a b : Z) : outcome Z :=
  if decide (b = 0) then Panic else Done (wrap (a `quot` b)).
Definition int_rem (a b : Z) : outcome Z :=
  if decide (b = 0) then Panic else Done (a `rem` b).

(** [l[low:]] *)
Definition slice_from {A} (l : list A) (low : Z) : outcome (list A) :=
  if decide (0 ≤ low ≤ Z.of_nat (length l))
  then Done (drop (Z.to_nat low) l)
  else Panic.

(** ** package models *)

Record Pack : Type := mkPack { Amount : Z }.

(** The field [Pack] of the source is [Pack_] here: the name is taken by the
    type. *)
Record OrderPack : Type := mkOrderPack { Quantity : Z; Pack_ : Pack }.

Record Order : Type := mkOrder {
  RequestedItems : Z;
  OverpackedItems : Z;
  TotalItems : Z;
  Packs : list OrderPack
}.

(** The zero value [models.Order{}]. *)
Definition zero_Order : Order := mkOrder 0 0 0 [].

#[global] Instance Pack_eq_dec : EqDecision Pack.
Proof. solve_decision. Defined.
#[global] Instance OrderPack_eq_dec : EqDecision OrderPack.
Proof. solve_decision. Defined.
#[global] Instance Order_eq_dec : EqDecision Order.
Proof. solve_decision. Defined.

(** ** package storage *)

Inductive error : Type :=
  | ErrPackNotFound
  | ErrNoPacksAvailable
  | ErrPackExists
  | ErrSoftLimitReached.

Record PackStorage : Type := mkPackStorage {
  packs : list Pack;
  orders : list Order
}.

Definition NewPackStorage : PackStorage := mkPackStorage [] [].

(** *** Sorting

    [sort.Slice] is not stable and its algorithm is not specified, but a pack
    is its amount: two packs that compare equal are the same value, so the
    sorted slice is determined by its elements ([sort_by_unique] below).
    Insertion sort stands for it. *)

Fixpoint insert_by (lt : Z → Z → bool) (p : Pack) (l : list Pack) : list Pack :=
  match l with
  | [] => [p]
  | q :: l' =>
      if lt (Amount q) (Amount p) then q :: insert_by lt p l' else p :: q :: l'
  end.

Definition sort_by (lt : Z → Z → bool) (l : list Pack) : list Pack :=
  foldr (insert_by lt) [] l.

(** [less(i, j) = packs[i].Amount > packs[j].Amount] *)
Definition resortPacks (s : PackStorage) : PackStorage :=
  mkPackStorage (sort_by (λ a b, b <? a) (packs s)) (orders s).

(** [less(i, j) = sorted[i].Amount < sorted[j].Amount] *)
Definition getSortedPackSizes (ps : list Pack) : list Pack :=
  sort_by (λ a b, a <? b) ps.

Definition getPacks (s : PackStorage) : list Pack :=
  (λ pack, mkPack (Amount pack)) <$> packs s.

Definition getOrders (s : PackStorage) : list Order := orders s.

Definition GetPacks (s : PackStorage) : list Pack := getPacks s.
Definition GetOrders (s : PackStorage) : list Order := getOrders s.

(** *** Catalog mutators *)

Definition hasAmount (amount : Z) (ps : list Pack) : bool :=
  existsb (λ p, Amount p =? amount) ps.

Definition AddPack (SoftLimit : Z) (s : PackStorage) (amount : Z)
  : PackStorage * option error :=
  if hasAmount amount (packs s) then (s, None)
  else if SoftLimit <=? Z.of_nat (length (packs s)) then (s, Some ErrSoftLimitReached)
  else (resortPacks (mkPackStorage (packs s ++ [mkPack amount]) (orders s)), None).

(** The second loop of [UpdatePack]: the first pack with the old amount gets the
    new one; [None] when there is none. *)
Fixpoint setFirst (oldAmount newAmount : Z) (ps : list Pack) : option (list Pack) :=
  match ps with
  | [] => None
  | p :: ps' =>
      if Amount p =? oldAmount then Some (mkPack newAmount :: ps')
      else (p ::.) <$> setFirst oldAmount newAmount ps'
  end.

Definition UpdatePack (s : PackStorage) (oldAmount newAmount : Z)
  : PackStorage * option error :=
  if hasAmount newAmount (packs s) then (s, Some ErrPackExists)
  else match setFirst oldAmount newAmount (packs s) with
       | Some ps => (resortPacks (mkPackStorage ps (orders s)), None)
       | None => (s, Some ErrPackNotFound)
       end.

(** The loop of [DeletePack]: [append(s.packs[:i], s.packs[i+1:]...)] at the
    first [i] with the amount. *)
Fixpoint removeFirst (amount : Z) (ps : list Pack) : option (list Pack) :=
  match ps with
  | [] => None
  | p :: ps' =>
      if Amount p =? amount then Some ps'
      else (p ::.) <$> removeFirst amount ps'
  end.

Definition DeletePack (s : PackStorage) (amount : Z)
  : PackStorage * option error :=
  match removeFirst amount (packs s) with
  | Some ps => (mkPackStorage ps (orders s), None)
  | None => (s, Some ErrPackNotFound)
  end.

(** *** Greedy fill *)

Definition useFullPacks_body (st : Z * Order) (pack : Pack) : outcome (Z * Order) :=
  let '(remainingItems, order) := st in
  if Amount pack <=? remainingItems then
    quantity ← int_quo remainingItems (Amount pack);
    if 0 <? quantity then
      mret (int_sub remainingItems (int_mul quantity (Amount pack)),
            mkOrder (RequestedItems order) (OverpackedItems order)
                    (int_add (TotalItems order) (int_mul quantity (Amount pack)))
                    (Packs order ++ [mkOrderPack quantity pack]))
    else mret st
  else mret st.

Fixpoint useFullPacks_loop (ps : list Pack) (st : Z * Order) : outcome (Z * Order) :=
  match ps with
  | [] => mret st
  | pack :: ps' => st' ← useFullPacks_body st pack; useFullPacks_loop ps' st'
  end.

Definition useFullPacks (ps : list Pack) (order : Order) : outcome (Z * Order) :=
  useFullPacks_loop ps (RequestedItems order, order).

(** *** Residual pack *)

Definition addPackForRemainingItems (remainingItems : Z) (ps : list Pack) (order : Order)
  : outcome Order :=
  if remainingItems <=? 0 then mret order
  else match last ps with
       | None => Panic
       | Some smallestPack =>
           mret (mkOrder (RequestedItems order) (OverpackedItems order)
                         (int_add (TotalItems order) (Amount smallestPack))
                         (Packs order ++ [mkOrderPack 1 smallestPack]))
       end.

(** *** Consolidation *)

(** First loop of [mergePack]: take [remainingToRemove] packs of size
    [fromSize] away.  The source updates the loop variable [p] before it
    computes [min(remainingToRemove, p.Quantity)]. *)
Fixpoint removePacks (fromSize remainingToRemove : Z) (ps : list OrderPack)
  : list OrderPack :=
  match ps with
  | [] => []
  | p :: ps' =>
      if Amount (Pack_ p) =? fromSize then
        if remainingToRemove <? Quantity p then
          let p' := mkOrderPack (int_sub (Quantity p) remainingToRemove) (Pack_ p) in
          p' :: removePacks fromSize
                  (int_sub remainingToRemove (Z.min remainingToRemove (Quantity p'))) ps'
        else
          removePacks fromSize
            (int_sub remainingToRemove (Z.min remainingToRemove (Quantity p))) ps'
      else p :: removePacks fromSize remainingToRemove ps'
  end.

(** Second loop of [mergePack]: [Quantity++] on the first line of size
    [toSize]; [None] when there is none ([found] stays false). *)
Fixpoint incrementFirst (toSize : Z) (ps : list OrderPack) : option (list OrderPack) :=
  match ps with
  | [] => None
  | p :: ps' =>
      if Amount (Pack_ p) =? toSize
      then Some (mkOrderPack (int_add (Quantity p) 1) (Pack_ p) :: ps')
      else (p ::.) <$> incrementFirst toSize ps'
  end.

Definition mergeLines (fromSize toSize quantity : Z) (ps : list OrderPack)
  : list OrderPack :=
  let newPacks := removePacks fromSize quantity ps in
  match incrementFirst toSize newPacks with
  | Some newPacks' => newPacks'
  | None => newPacks ++ [mkOrderPack 1 (mkPack toSize)]
  end.

Definition mergePack (order : Order) (fromSize toSize quantity : Z) : Order :=
  mkOrder (RequestedItems order) (OverpackedItems order) (TotalItems order)
          (mergeLines fromSize toSize quantity (Packs order)).

(** [sizeGroups[op.Pack.Amount] += op.Quantity]; a key that is not in the map
    reads as 0. *)
Definition sizeGroups_step (m : gmap Z Z) (op : OrderPack) : gmap Z Z :=
  <[Amount (Pack_ op) := int_add (default 0 (m !! Amount (Pack_ op))) (Quantity op)]> m.

(** The first loop of [tryMergeSameSizePacks], over the lines of the order. *)
Definition sizeGroups (ps : list OrderPack) : gmap Z Z :=
  foldl sizeGroups_step ∅ ps.

(** The order in which one [range] statement visits the entries of a map. *)
Definition MapRange : Type := gmap Z Z → list (Z * Z).

Definition valid_range (r : MapRange) : Prop :=
  ∀ m, r m ≡ₚ map_to_list m.

(** The inner loop of [tryMergeSameSizePacks] for one target pack: [Some] is
    the [return true] after a merge. *)
Fixpoint scanGroups (target : Z) (entries : list (Z * Z)) (order : Order)
  : outcome (option Order) :=
  match entries with
  | [] => mret None
  | (size, count) :: rest =>
      if target <=? size then scanGroups target rest order
      else
        r ← int_rem target size;
        if r =? 0 then
          n ← int_quo target size;
          if n <=? count then
            n' ← int_quo target size;
            mret (Some (mergePack order size target n'))
          else scanGroups target rest order
        else scanGroups target rest order
  end.

(** [ranges j] is the order of the [range] over [sizeGroups] that runs for the
    [j]-th target pack. *)
Fixpoint tryMergeSameSizePacks_from (j : nat) (ranges : nat → MapRange)
    (groups : gmap Z Z) (availablePacks : list Pack) (order : Order)
  : outcome (bool * Order) :=
  match availablePacks with
  | [] => mret (false, order)
  | targetPack :: rest =>
      found ← scanGroups (Amount targetPack) (ranges j groups) order;
      match found with
      | Some order' => mret (true, order')
      | None => tryMergeSameSizePacks_from (S j) ranges groups rest order
      end
  end.

Definition tryMergeSameSizePacks (ranges : nat → MapRange)
    (availablePacks : list Pack) (order : Order) : outcome (bool * Order) :=
  tryMergeSameSizePacks_from 0 ranges (sizeGroups (Packs order)) availablePacks order.

(** The inner loop of [tryMergeDifferentSizePacks] for one target pack. *)
Fixpoint scanLines (target : Z) (lines : list OrderPack) (order : Order)
  : outcome (option Order) :=
  match lines with
  | [] => mret None
  | orderPack :: rest =>
      let smallSize := Amount (Pack_ orderPack) in
      if target <=? smallSize then scanLines target rest order
      else
        r ← int_rem target smallSize;
        if r =? 0 then
          n ← int_quo target smallSize;
          if n <=? Quantity orderPack then
            n' ← int_quo target smallSize;
            mret (Some (mergePack order smallSize target n'))
          else scanLines target rest order
        else scanLines target rest order
  end.

Fixpoint tryMergeDifferentSizePacks (availablePacks : list Pack) (order : Order)
  : outcome Order :=
  match availablePacks with
  | [] => mret order
  | targetPack :: rest =>
      found ← scanLines (Amount targetPack) (Packs order) order;
      match found with
      | Some order' => mret order'
      | None => tryMergeDifferentSizePacks rest order
      end
  end.

(** One iteration of the loop of [mergePacks]. *)
Definition mergePacks_body (ranges : nat → MapRange) (availablePacks : list Pack)
    (order : Order) : outcome Order :=
  '(merged, order') ← tryMergeSameSizePacks ranges availablePacks order;
  if merged : bool then mret order'
  else tryMergeDifferentSizePacks availablePacks order'.

(** [for range availablePacks]: as many iterations as there are packs;
    [ranges i] are the map orders of iteration [i]. *)
Fixpoint mergePacks_loop (n : nat) (i : nat) (ranges : nat → nat → MapRange)
    (availablePacks : list Pack) (order : Order) : outcome Order :=
  match n with
  | O => mret order
  | S n' =>
      order' ← mergePacks_body (ranges i) availablePacks order;
      mergePacks_loop n' (S i) ranges availablePacks order'
  end.

Definition mergePacks (ranges : nat → nat → MapRange) (ps : list Pack) (order : Order)
  : outcome Order :=
  let availablePacks := getSortedPackSizes ps in
  mergePacks_loop (length availablePacks) 0 ranges availablePacks order.

(** *** CalculateOrder *)

Definition appendOrder (SoftLimit : Z) (history : list Order) (order : Order)
  : outcome (list Order) :=
  kept ← (if SoftLimit <=? Z.of_nat (length history)
          then slice_from history
                 (int_sub (Z.of_nat (length history)) (int_sub SoftLimit 1))
          else mret history);
  mret (kept ++ [order]).

Definition CalculateOrder (SoftLimit : Z) (ranges : nat → nat → MapRange)
    (s : PackStorage) (requestedItems : Z)
  : outcome (PackStorage * Order * option error) :=
  if decide (length (packs s) = 0%nat) then mret (s, zero_Order, Some ErrNoPacksAvailable)
  else
    let s := resortPacks s in
    let ps := getPacks s in
    let order := mkOrder requestedItems 0 0 [] in
    '(remainingItems, order) ← useFullPacks ps order;
    order ← addPackForRemainingItems remainingItems ps order;
    let order := mkOrder (RequestedItems order)
                         (int_sub (TotalItems order) requestedItems)
                         (TotalItems order) (Packs order) in
    order ← mergePacks ranges ps order;
    history ← appendOrder SoftLimit (orders s) order;
    mret (mkPackStorage (packs s) history, order, None).

(** ** package handlers

    A handler reads its path parameters with [c.ParamsInt] or [strconv.Atoi];
    the result of that call is the argument of the model: [Some n] for the
    [int] that was parsed, [None] when the call returned an error.  What a
    handler returns is a [response]: the JSON document it wrote with its
    status, a bare status, or the error it handed back to the framework. *)

Definition Error (e : error) : string :=
  match e with
  | ErrPackNotFound => "pack not found"
  | ErrNoPacksAvailable => "no packs available"
  | ErrPackExists => "pack with this amount already exists"
  | ErrSoftLimitReached => "soft limit reached, cannot add more packs"
  end.

Definition StatusOK : Z := 200.
Definition StatusCreated : Z := 201.
Definition StatusNoContent : Z := 204.
Definition StatusBadRequest : Z := 400.
Definition StatusNotFound : Z := 404.
Definition StatusConflict : Z := 409.
Definition StatusInternalServerError : Z := 500.

Inductive body : Type :=
  | error_body (message : string)
  | amount_body (amount : Z)
  | update_body (oldAmount amount : Z)
  | packs_body (ps : list Pack)
  | order_body (order : Order)
  | orders_body (os : list Order).

Inductive response : Type :=
  | JSON (status : Z) (b : body)
  | SendStatus (status : Z)
  | ReturnError (err : error).

Definition Packs_GetPacks (s : PackStorage) : response :=
  JSON StatusOK (packs_body (GetPacks s)).

Definition Packs_AddPack (SoftLimit : Z) (s : PackStorage) (amount : option Z)
  : PackStorage * response :=
  match amount with
  | None => (s, JSON StatusBadRequest (error_body "Invalid amount"))
  | Some amount =>
      if amount <=? 0 then (s, JSON StatusBadRequest (error_body "Invalid amount"))
      else
        let '(s, err) := AddPack SoftLimit s amount in
        match err with
        | Some err => (s, JSON StatusConflict (error_body (Error err)))
        | None => (s, JSON StatusCreated (amount_body amount))
        end
  end.

Definition Packs_UpdatePack (s : PackStorage) (oldAmount newAmount : option Z)
  : PackStorage * response :=
  match oldAmount with
  | None => (s, JSON StatusBadRequest (error_body "Invalid old amount"))
  | Some oldAmount =>
      if oldAmount <=? 0
      then (s, JSON StatusBadRequest (error_body "Invalid old amount"))
      else
        match newAmount with
        | None => (s, JSON StatusBadRequest (error_body "Invalid new amount"))
        | Some newAmount =>
            if newAmount <=? 0
            then (s, JSON StatusBadRequest (error_body "Invalid new amount"))
            else
              let '(s, err) := UpdatePack s oldAmount newAmount in
              match err with
              | None => (s, JSON StatusOK (update_body oldAmount newAmount))
              | Some ErrPackNotFound =>
                  (s, JSON StatusNotFound (error_body "Pack not found"))
              | Some ErrPackExists =>
                  (s, JSON StatusConflict
                        (error_body "Pack with new amount already exists"))
              | Some _ =>
                  (s, JSON StatusInternalServerError
                        (error_body "Failed to update pack"))
              end
        end
  end.

Definition Packs_DeletePack (s : PackStorage) (amount : option Z)
  : PackStorage * response :=
  match amount with
  | None => (s, JSON StatusBadRequest (error_body "Invalid amount"))
  | Some amount =>
      if amount <=? 0 then (s, JSON StatusBadRequest (error_body "Invalid amount"))
      else
        let '(s, err) := DeletePack s amount in
        match err with
        | Some err => (s, ReturnError err)
        | None => (s, SendStatus StatusNoContent)
        end
  end.

Definition Orders_CreateOrder (SoftLimit : Z) (ranges : nat → nat → MapRange)
    (s : PackStorage) (amount : option Z) : outcome (PackStorage * response) :=
  match amount with
  | None => mret (s, JSON StatusBadRequest (error_body "Invalid amount"))
  | Some amount =>
      if amount <=? 0
      then mret (s, JSON StatusBadRequest (error_body "Invalid amount"))
      else
        '(s, order, err) ← CalculateOrder SoftLimit ranges s amount;
        match err with
        | Some ErrNoPacksAvailable =>
            mret (s, JSON StatusNotFound (error_body "No packs available"))
        | Some _ =>
            mret (s, JSON StatusInternalServerError
                       (error_body "Internal server error"))
        | None => mret (s, JSON StatusOK (order_body order))
        end
  end.

Definition Orders_GetOrders (s : PackStorage) : response :=
  JSON StatusOK (orders_body (GetOrders s)).

(** The routes of [RegisterRoutes], with the parsed path parameters. *)
Inductive request : Type :=
  | GET_packs
  | POST_packs (amount : option Z)
  | PUT_packs (oldAmount newAmount : option Z)
  | DELETE_packs (amount : option Z)
  | POST_orders_items (amount : option Z)
  | GET_orders.

Definition serve (SoftLimit : Z) (ranges : nat → nat → MapRange)
    (s : PackStorage) (req : request) : outcome (PackStorage * response) :=
  match req with
  | GET_packs => mret (s, Packs_GetPacks s)
  | POST_packs amount => mret (Packs_AddPack SoftLimit s amount)
  | PUT_packs oldAmount newAmount => mret (Packs_UpdatePack s oldAmount newAmount)
  | DELETE_packs amount => mret (Packs_DeletePack s amount)
  | POST_orders_items amount => Orders_CreateOrder SoftLimit ranges s amount
  | GET_orders => mret (s, Orders_GetOrders s)
  end.

(** Requests served one after the other; [r k] are the map orders of request
    [k]. *)
Fixpoint serve_all (SoftLimit : Z) (r : nat → nat → nat → MapRange) (k : nat)
    (s : PackStorage) (reqs : list request)
  : outcome (PackStorage * list response) :=
  match reqs with
  | [] => mret (s, [])
  | req :: reqs' =>
      '(s', resp) ← serve SoftLimit (r k) s req;
      '(s'', resps) ← serve_all SoftLimit r (S k) s' reqs';
      mret (s'', resp :: resps)
  end.

(** ** Running the model *)

(** The iteration order that visits the keys as [map_to_list] lists them. *)
Definition range_default : nat → nat → MapRange := λ _ _ m, map_to_list m.

Definition catalog (l : list Z) : PackStorage :=
  mkPackStorage (mkPack <$> l) [].

Definition line (q a : Z) : OrderPack := mkOrderPack q (mkPack a).

(** The catalog the program starts with ([main]). *)
Definition main_storage : PackStorage :=
  foldl (λ s a, (AddPack 20 s a).1) NewPackStorage [250; 500; 1000; 2000; 5000].

(** * Definitions for the specification *)

(** ** The catalog *)

Definition amounts (ps : list Pack) : list Z := Amount <$> ps.

Definition desc (p q : Pack) : Prop := Amount q ≤ Amount p.
Definition sdesc (p q : Pack) : Prop := Amount q < Amount p.

(** The invariant of the stored catalog: pairwise distinct amounts, strictly
    descending, at most [SoftLimit] packs. *)
Definition catalog_inv (SoftLimit : Z) (ps : list Pack) : Prop :=
  NoDup (amounts ps) ∧ StronglySorted sdesc ps ∧ Z.of_nat (length ps) ≤ SoftLimit.

Inductive mutation : Type :=
  | Add (amount : Z)
  | Update (oldAmount newAmount : Z)
  | Delete (amount : Z).

Definition mutate (SoftLimit : Z) (s : PackStorage) (m : mutation) : PackStorage :=
  match m with
  | Add amount => (AddPack SoftLimit s amount).1
  | Update oldAmount newAmount => (UpdatePack s oldAmount newAmount).1
  | Delete amount => (DeletePack s amount).1
  end.

(** ** Orders and greedy fill *)

Definition size (p : OrderPack) : Z := Amount (Pack_ p).
Definition sizes (ls : list OrderPack) : list Z := size <$> ls.

(** [sum(quantity × packSize)] over the lines, on exact integers. *)
Definition items (ls : list OrderPack) : Z :=
  foldr (λ p acc, Quantity p * size p + acc) 0 ls.

(** Positive pack sizes that fit an [int]: the catalogs of the data model. *)
Definition valid_packs (ps : list Pack) : Prop :=
  Forall (λ p, 0 < Amount p ≤ max_int) ps.

(** Greedy fill in the words of the specification, on exact integers with
    flooring division: for each size in turn, if it is at most the current
    remaining and the quotient is positive, a line is appended and the remaining
    reduced. *)
Fixpoint greedy_fill (remaining : Z) (packSizes : list Z) : Z * list OrderPack :=
  match packSizes with
  | [] => (remaining, [])
  | s :: rest =>
      let quantity := remaining `div` s in
      if decide (s ≤ remaining ∧ 0 < quantity) then
        let '(r, ls) := greedy_fill (remaining - quantity * s) rest in
        (r, line quantity s :: ls)
      else greedy_fill remaining rest
  end.

(** The catalog and a request of the tests of the repository. *)
Definition test_packs : list Pack := mkPack <$> [5000; 2000; 1000; 500; 250].
Definition test_order : Order := mkOrder 7760 0 0 [].

(** ** Consolidation *)

(** The number of packs of size [s] in an order, over all its lines, on exact
    integers. *)
Definition cnt (s : Z) (ls : list OrderPack) : Z :=
  foldr (λ p acc, if decide (size p = s) then Quantity p + acc else acc) 0 ls.

Definition positive_lines (ls : list OrderPack) : Prop :=
  Forall (λ p, 0 < Quantity p) ls.

(** The test of both merge loops: a group (or line) of [c] packs of size [s]
    merges into the target [T]. *)
Definition qualifies (T s c : Z) : Prop := s < T ∧ T `mod` s = 0 ∧ T `div` s ≤ c.

(** The invariant of consolidation inside [CalculateOrder].  Only the packs of
    one size, the carry [C], can be enough for a larger pack of the catalog,
    and then just enough: they are the packs the greedy fill took plus the
    one pack that residual addition or the previous merge added. *)
Definition minv (cat : list Z) (C : Z) (ls : list OrderPack) : Prop :=
  Forall (λ p, 0 < Quantity p ∧ size p ∈ cat) ls ∧
  C ∈ cat ∧
  (∀ s, s ∈ cat → s ≠ C →
        cnt s ls * s ≤ max_int ∧ ∀ T, T ∈ cat → s < T → cnt s ls * s < T) ∧
  cnt C ls ≤ max_int ∧
  (∀ T, T ∈ cat → C < T → (cnt C ls - 1) * C < T).

(** The only merge that can apply: all packs of the carry size into one pack
    of their total. *)
Definition mergeable (cat : list Z) (C : Z) (ls : list OrderPack) : Prop :=
  C < cnt C ls * C ∧ cnt C ls * C ∈ cat.

(** A merge applies, in the words of the specification: some catalog size [T]
    is an exact multiple of a smaller size [S] of the order, and the order
    holds at least [T / S] packs of size [S].  (A line that is enough for the
    cross-size merge makes its group enough for the same-size merge.) *)
Definition merge_applies (cat : list Z) (ls : list OrderPack) : Prop :=
  ∃ T S, T ∈ cat ∧ S ∈ sizes ls ∧ qualifies T S (cnt S ls).

Definition with_packs (o : Order) (ls : list OrderPack) : Order :=
  mkOrder (RequestedItems o) (OverpackedItems o) (TotalItems o) ls.

(** One iteration of the loop of [mergePacks], whatever the map order. *)
Definition merge_step (cat : list Z) (C : Z) (o : Order) : Order :=
  if decide (mergeable cat C (Packs o))
  then mergePack o C (cnt C (Packs o) * C) (cnt C (Packs o))
  else o.

(** The number of catalog sizes above the carry bounds the merges left. *)
Definition above (cat : list Z) (C : Z) : nat := length (filter (λ c, C < c) cat).

(** Consolidation as it runs inside [CalculateOrder]: at most [k] merges of
    the carry, the first at the carry [C]. *)
Fixpoint consolidate (cat : list Z) (k : nat) (C : Z) (ls : list OrderPack) : list OrderPack :=
  match k with
  | O => ls
  | S k' =>
      if decide (mergeable cat C ls)
      then consolidate cat k' (cnt C ls * C) (mergeLines C (cnt C ls * C) (cnt C ls) ls)
      else ls
  end.

(** ** The calculated order and the history *)

(** The lines after greedy fill and residual addition: the greedy lines, and
    one pack of the smallest size when something remains. *)
Definition residual (remaining smallest : Z) : list OrderPack :=
  if decide (0 < remaining) then [line 1 smallest] else [].

(** The order that [CalculateOrder] returns for the catalog [ps] and the
    request [R], written without the map orders: greedy fill over the sorted
    catalog, the residual pack, and the merges of the carry. *)
Definition calculated (ps : list Pack) (R : Z) : Order :=
  let sorted := sort_by (λ a b, b <? a) ps in
  let smallest := default 0 (Amount <$> last sorted) in
  let g := greedy_fill R (amounts sorted) in
  let total := wrap (items g.2 + if decide (0 < g.1) then smallest else 0) in
  mkOrder R (wrap (total - R)) total
          (consolidate (amounts sorted) (length sorted) smallest
                       (g.2 ++ residual g.1 smallest)).

(** The items of the packs that greedy fill and residual addition choose for the
    request [R], on exact integers: [sum(quantity × packSize)] over their
    lines. *)
Definition delivered (ps : list Pack) (R : Z) : Z :=
  let sorted := sort_by (λ a b, b <? a) ps in
  let smallest := default 0 (Amount <$> last sorted) in
  let g := greedy_fill R (amounts sorted) in
  items (g.2 ++ residual g.1 smallest).

(** The history entries that survive the next append. *)
Definition retained (SoftLimit : Z) (history : list Order) : list Order :=
  if SoftLimit <=? Z.of_nat (length history)
  then drop (Z.to_nat (Z.of_nat (length history) - (SoftLimit - 1))) history
  else history.

(** A storage [CalculateOrder] can work on: a catalog that is not empty, of
    positive sizes, and a history whose length fits an [int]. *)
Definition storage_ok (s : PackStorage) : Prop :=
  packs s ≠ [] ∧ valid_packs (packs s) ∧ Z.of_nat (length (orders s)) ≤ max_int.

(** The last [n] entries of a list. *)
Definition keep {A} (n : nat) (l : list A) : list A := drop (length l - n) l.

(** A sequence of calls of [CalculateOrder]; [r k] are the map orders of call
    [k]. *)
Fixpoint CalculateOrders (SoftLimit : Z) (r : nat → nat → nat → MapRange) (k : nat)
    (s : PackStorage) (requests : list Z)
  : outcome (PackStorage * list (Order * option error)) :=
  match requests with
  | [] => mret (s, [])
  | R :: requests' =>
      '(s', order, err) ← CalculateOrder SoftLimit (r k) s R;
      '(s'', results) ← CalculateOrders SoftLimit r (S k) s' requests';
      mret (s'', (order, err) :: results)
  end.

(** ** The tie-break of consolidation *)

#[global] Instance qualifies_dec T s c : Decision (qualifies T s c).
Proof. unfold qualifies. apply _. Defined.





Definition line_entries (ls : list OrderPack) : list (Z * Z) :=
  (λ p, (size p, Quantity p)) <$> ls.


(** ** Further definitions *)

(** [o'] has the totals of [o]: consolidation works on the lines only. *)
Definition same_totals (o o' : Order) : Prop :=
  RequestedItems o' = RequestedItems o ∧
  OverpackedItems o' = OverpackedItems o ∧
  TotalItems o' = TotalItems o.

(** ** The server *)

(** A path parameter that was parsed is an [int]. *)
Definition int_param (p : option Z) : Prop :=
  match p with Some n => in_range n | None => True end.

Definition wf_request (req : request) : Prop :=
  match req with
  | POST_packs amount | DELETE_packs amount | POST_orders_items amount =>
      int_param amount
  | PUT_packs oldAmount newAmount => int_param oldAmount ∧ int_param newAmount
  | GET_packs | GET_orders => True
  end.

(** The storages the server works on: the catalog invariant, pack amounts that
    are positive, and a history within the limit. *)
Definition served (SoftLimit : Z) (s : PackStorage) : Prop :=
  catalog_inv SoftLimit (packs s) ∧ valid_packs (packs s) ∧
  Z.of_nat (length (orders s)) ≤ SoftLimit.

(** The answers of the handlers to requests they accept or reject themselves;
    the last is the error [DeletePack] hands to the framework. *)
Definition answered (resp : response) : Prop :=
  match resp with
  | JSON status _ => status ∈ [StatusOK; StatusCreated; StatusBadRequest;
                               StatusNotFound; StatusConflict]
  | SendStatus status => status = StatusNoContent
  | ReturnError err => err = ErrPackNotFound
  end.

(** * Properties *)

(** ** The model on the tests of the repository *)

Example TestCalculateOrder_exact :
  (λ x, (x.1.2, x.2)) <$> CalculateOrder 20 range_default main_storage 500
  = Done (mkOrder 500 0 500 [line 1 500], None).
Proof. by vm_compute. Qed.

Example TestCalculateOrder_multiple :
  (λ x, (x.1.2, x.2)) <$> CalculateOrder 20 range_default main_storage 1750
  = Done (mkOrder 1750 0 1750 [line 1 1000; line 1 500; line 1 250], None).
Proof. by vm_compute. Qed.

Example TestCalculateOrder_overpacking :
  (λ x, (x.1.2, x.2)) <$> CalculateOrder 20 range_default main_storage 1001
  = Done (mkOrder 1001 249 1250 [line 1 1000; line 1 250], None).
Proof. by vm_compute. Qed.

Example TestUseFullPacks :
  useFullPacks test_packs (mkOrder 7750 0 0 [])
  = Done (0, mkOrder 7750 0 7750 [line 1 5000; line 1 2000; line 1 500; line 1 250]).
Proof. by vm_compute. Qed.

Example TestUseFullPacks_remaining :
  (λ x, x.1) <$> useFullPacks test_packs test_order = Done 10.
Proof. by vm_compute. Qed.

Example TestMergePacks_chain :
  mergePacks range_default (mkPack <$> [1000; 500; 250])
             (mkOrder 1000 0 1000 [line 2 250; line 1 500])
  = Done (mkOrder 1000 0 1000 [line 1 1000]).
Proof. by vm_compute. Qed.

Example TestMergePacks_unchanged :
  mergePacks range_default (mkPack <$> [1000; 500; 250])
             (mkOrder 750 0 750 [line 1 500; line 1 250])
  = Done (mkOrder 750 0 750 [line 1 500; line 1 250]).
Proof. by vm_compute. Qed.

Example TestMergePacks_single :
  mergePacks range_default (mkPack <$> [1000; 500; 250])
             (mkOrder 500 0 500 [line 1 250; line 1 250])
  = Done (mkOrder 500 0 500 [line 1 500]).
Proof. by vm_compute. Qed.

Example TestCalculateOrder_soft_limit :
  ('(s1, _) ← CalculateOrders 20 (λ _, range_default) 0 main_storage [500; 1750; 1001];
   '(s2, _) ← CalculateOrders 2 (λ _, range_default) 0 s1 [100; 200; 300];
   mret (RequestedItems <$> GetOrders s2))
  = Done [200; 300].
Proof. by vm_compute. Qed.

Example TestResortPacks :
  amounts (GetPacks (foldl (mutate 20) NewPackStorage [Add 250; Add 1000; Add 500; Add 2000]))
  = [2000; 1000; 500; 250].
Proof. by vm_compute. Qed.

Example TestAddPack_soft_limit :
  let s := foldl (mutate 2) NewPackStorage [Add 100; Add 100; Add 200] in
  amounts (packs s) = [200; 100] ∧
  AddPack 2 s 300 = (s, Some ErrSoftLimitReached).
Proof. by vm_compute. Qed.

Example TestUpdatePack :
  let s := (AddPack 20 NewPackStorage 100).1 in
  let s' := (UpdatePack s 100 150).1 in
  amounts (packs s') = [150] ∧
  (UpdatePack s' 200 250).2 = Some ErrPackNotFound ∧
  (UpdatePack (AddPack 20 s' 200).1 150 200).2 = Some ErrPackExists.
Proof. by vm_compute. Qed.

Example TestDeletePack :
  DeletePack (foldl (mutate 20) NewPackStorage [Add 100; Add 200]) 100
  = (mkPackStorage [mkPack 200] [], None).
Proof. by vm_compute. Qed.

(** ** Machine integers *)

Lemma wrap_in_range z : in_range z → wrap z = z.
Proof.
  unfold in_range, wrap, min_int, max_int. intros Hz.
  rewrite Z.mod_small; lia.
Qed.

Lemma wrap_range z : in_range (wrap z).
Proof.
  unfold in_range, wrap, min_int, max_int.
  pose proof (Z.mod_pos_bound (z + 2 ^ 63) (2 ^ 64)). lia.
Qed.

Lemma wrap_sub_wrap_l a b : wrap (wrap a - b) = wrap (a - b).
Proof.
  unfold wrap.
  replace ((a + 2 ^ 63) `mod` 2 ^ 64 - 2 ^ 63 - b + 2 ^ 63)
    with ((a + 2 ^ 63) `mod` 2 ^ 64 + (- b)) by lia.
  rewrite Zplus_mod_idemp_l. do 2 f_equal. lia.
Qed.

Lemma wrap_above z :
  max_int < z ≤ max_int + 2 ^ 64 → wrap z = z - 2 ^ 64.
Proof.
  unfold wrap, max_int. intros Hz.
  replace (z + 2 ^ 63) with ((z - 2 ^ 64 + 2 ^ 63) + 1 * 2 ^ 64) by lia.
  rewrite Z.mod_add by lia. rewrite Z.mod_small; lia.
Qed.

Lemma max_int_pos : 0 < max_int.
Proof. reflexivity. Qed.

Lemma min_int_neg : min_int < 0.
Proof. reflexivity. Qed.

Lemma int_quo_pos a b :
  0 ≤ a ≤ max_int → 0 < b → int_quo a b = Done (a `div` b).
Proof.
  intros Ha Hb. unfold int_quo. rewrite decide_False by lia.
  rewrite Z.quot_div_nonneg by lia.
  rewrite wrap_in_range; [done|].
  pose proof (Z.div_pos a b). pose proof (Z.div_le_upper_bound a b a).
  pose proof min_int_neg. unfold in_range. nia.
Qed.

Lemma int_rem_pos a b :
  0 ≤ a → 0 < b → int_rem a b = Done (a `mod` b).
Proof.
  intros Ha Hb. unfold int_rem. rewrite decide_False by lia.
  by rewrite Z.rem_mod_nonneg by lia.
Qed.

Global Opaque wrap min_int max_int.

(** ** Outcomes *)

Lemma bind_Done {A B} (a : A) (f : A → outcome B) : (Done a ≫= f) = f a.
Proof. done. Qed.

Lemma mret_Done {A} (a : A) : mret a = Done a.
Proof. done. Qed.

Lemma bind_Done_inv {A B} (m : outcome A) (f : A → outcome B) b :
  m ≫= f = Done b → ∃ a, m = Done a ∧ f a = Done b.
Proof. destruct m as [a|]; [by exists a|done]. Qed.

Ltac osimpl := rewrite ?mret_Done, ?bind_Done; cbn beta iota.

(** ** Sorting *)

Lemma Pack_eq p q : Amount p = Amount q → p = q.
Proof. destruct p, q; simpl; congruence. Qed.

Lemma insert_by_perm lt p l : insert_by lt p l ≡ₚ p :: l.
Proof.
  induction l as [|q l IH]; simpl; [done|].
  destruct (lt _ _); [|done].
  rewrite IH. apply Permutation_swap.
Qed.

Lemma sort_by_perm lt l : sort_by lt l ≡ₚ l.
Proof.
  induction l as [|p l IH]; simpl; [done|].
  by rewrite insert_by_perm, IH.
Qed.

Lemma sort_by_length lt l : length (sort_by lt l) = length l.
Proof. by rewrite (sort_by_perm lt l). Qed.

Lemma insert_desc_sorted p l :
  StronglySorted desc l → StronglySorted desc (insert_by (λ a b, b <? a) p l).
Proof.
  induction 1 as [|q l Hl IH Hq]; simpl.
  - repeat constructor.
  - destruct (Z.ltb_spec (Amount p) (Amount q)).
    + constructor; [done|].
      rewrite insert_by_perm. constructor; [unfold desc; lia|done].
    + constructor; [by constructor|].
      constructor; [unfold desc; lia|].
      eapply Forall_impl; [done|]. unfold desc. intros; simpl in *; lia.
Qed.


Lemma sort_desc_sorted l : StronglySorted desc (sort_by (λ a b, b <? a) l).
Proof.
  induction l; simpl; [constructor|by apply insert_desc_sorted].
Qed.


#[local] Instance desc_trans : Transitive desc.
Proof. unfold desc. intros ???; lia. Qed.
#[local] Instance desc_antisymm : AntiSymm (=) desc.
Proof. unfold desc. intros ????. apply Pack_eq. lia. Qed.

(** Whatever algorithm [sort.Slice] runs, its result is the one of [sort_by]:
    a descending arrangement of the same packs. *)
Lemma sort_by_unique l l' :
  l' ≡ₚ l → StronglySorted desc l' → l' = sort_by (λ a b, b <? a) l.
Proof.
  intros Hp Hs.
  apply (Sorted_unique_strong desc).
  - intros x y _ _ H1 H2. by apply (anti_symm desc).
  - by apply StronglySorted_Sorted.
  - apply StronglySorted_Sorted, sort_desc_sorted.
  - by rewrite Hp, sort_by_perm.
Qed.

Lemma sdesc_of_desc l :
  StronglySorted desc l → NoDup (amounts l) → StronglySorted sdesc l.
Proof.
  induction 1 as [|p l Hl IH Hp]; simpl; [constructor|].
  rewrite NoDup_cons. intros [Hnin Hnd].
  constructor; [by apply IH|].
  rewrite Forall_forall in Hp |- *. intros q Hq.
  specialize (Hp q Hq). unfold desc, sdesc in *.
  assert (Amount q ≠ Amount p); [|lia].
  intros Heq. apply Hnin. rewrite <- Heq. unfold amounts.
  apply list_elem_of_fmap. eauto.
Qed.

(** ** The catalog *)

Lemma hasAmount_spec amount ps : hasAmount amount ps = true ↔ amount ∈ amounts ps.
Proof.
  unfold hasAmount, amounts. rewrite existsb_exists, list_elem_of_fmap.
  split.
  - intros (p & Hin & Heq). exists p. split; [lia|by apply list_elem_of_In].
  - intros (p & -> & Hin). exists p. split; [by apply list_elem_of_In|lia].
Qed.

Lemma setFirst_Some oldAmount newAmount ps ps' :
  setFirst oldAmount newAmount ps = Some ps' →
  ∃ l1 p l2, ps = l1 ++ p :: l2 ∧ ps' = l1 ++ mkPack newAmount :: l2.
Proof.
  revert ps'. induction ps as [|p ps IH]; intros ps'; simpl; [done|].
  destruct (Amount p =? oldAmount).
  - intros [= <-]. by exists [], p, ps.
  - destruct (setFirst oldAmount newAmount ps) as [l|]; simpl; [|done].
    intros [= <-]. destruct (IH l eq_refl) as (l1 & q & l2 & -> & ->).
    by exists (p :: l1), q, l2.
Qed.

Lemma removeFirst_Some amount ps ps' :
  removeFirst amount ps = Some ps' →
  ∃ l1 p l2, ps = l1 ++ p :: l2 ∧ ps' = l1 ++ l2.
Proof.
  revert ps'. induction ps as [|p ps IH]; intros ps'; simpl; [done|].
  destruct (Amount p =? amount).
  - intros [= <-]. by exists [], p, ps.
  - destruct (removeFirst amount ps) as [l|]; simpl; [|done].
    intros [= <-]. destruct (IH l eq_refl) as (l1 & q & l2 & -> & ->).
    by exists (p :: l1), q, l2.
Qed.

Lemma StronglySorted_remove_middle {A} (R : relation A) l1 x l2 :
  StronglySorted R (l1 ++ x :: l2) → StronglySorted R (l1 ++ l2).
Proof.
  induction l1 as [|y l1 IH]; simpl; intros Hs.
  - by apply StronglySorted_inv in Hs as [? _].
  - apply StronglySorted_inv in Hs as [Hs Hy].
    constructor; [by apply IH|].
    rewrite Forall_app, Forall_cons in Hy. rewrite Forall_app. tauto.
Qed.

Lemma resorted_inv SoftLimit ps :
  NoDup (amounts ps) → Z.of_nat (length ps) ≤ SoftLimit →
  catalog_inv SoftLimit (sort_by (λ a b, b <? a) ps).
Proof.
  intros Hnd Hlen.
  assert (NoDup (amounts (sort_by (λ a b, b <? a) ps))) as Hnd'.
  { unfold amounts. by rewrite sort_by_perm. }
  split_and!; [done| |by rewrite sort_by_length].
  apply sdesc_of_desc; [apply sort_desc_sorted|done].
Qed.

Lemma AddPack_inv SoftLimit s amount :
  catalog_inv SoftLimit (packs s) →
  catalog_inv SoftLimit (packs (AddPack SoftLimit s amount).1).
Proof.
  intros (Hnd & Hs & Hlen). unfold AddPack.
  destruct (hasAmount amount (packs s)) eqn:Hhas; [done|].
  destruct (Z.leb_spec SoftLimit (Z.of_nat (length (packs s)))); [done|].
  simpl. apply resorted_inv.
  - unfold amounts. rewrite fmap_app. simpl.
    apply NoDup_app. split_and!; [done| |apply NoDup_singleton].
    intros x Hx ->%list_elem_of_singleton.
    apply hasAmount_spec in Hx. congruence.
  - rewrite length_app. simpl. lia.
Qed.

Lemma UpdatePack_inv SoftLimit s oldAmount newAmount :
  catalog_inv SoftLimit (packs s) →
  catalog_inv SoftLimit (packs (UpdatePack s oldAmount newAmount).1).
Proof.
  intros (Hnd & Hs & Hlen). unfold UpdatePack.
  destruct (hasAmount newAmount (packs s)) eqn:Hhas; [done|].
  destruct (setFirst oldAmount newAmount (packs s)) as [ps'|] eqn:Hset; [|done].
  apply setFirst_Some in Hset as (l1 & p & l2 & Hps & ->).
  assert (newAmount ∉ amounts (packs s)) as Hnew.
  { rewrite <- hasAmount_spec. congruence. }
  rewrite Hps in Hnd, Hlen, Hnew. unfold amounts in *.
  rewrite fmap_app, fmap_cons in Hnd, Hnew.
  simpl. apply resorted_inv.
  - unfold amounts. rewrite fmap_app, fmap_cons. simpl.
    apply NoDup_app in Hnd as (Hnd1 & Hdisj & Hnd2).
    apply NoDup_cons in Hnd2 as [Hp Hnd2].
    apply NoDup_app. split_and!; [done| |].
    + intros x Hx1 Hx2. apply elem_of_cons in Hx2 as [->|Hx2].
      * apply Hnew. apply elem_of_app. by left.
      * apply (Hdisj x Hx1). by right.
    + apply NoDup_cons. split; [|done].
      intros Hin. apply Hnew. apply elem_of_app. right. by right.
  - rewrite length_app in *. simpl in *. lia.
Qed.

Lemma DeletePack_inv SoftLimit s amount :
  catalog_inv SoftLimit (packs s) →
  catalog_inv SoftLimit (packs (DeletePack s amount).1).
Proof.
  intros (Hnd & Hs & Hlen). unfold DeletePack.
  destruct (removeFirst amount (packs s)) as [ps'|] eqn:Hrm; [|done].
  apply removeFirst_Some in Hrm as (l1 & p & l2 & Hps & ->).
  rewrite Hps in Hnd, Hs, Hlen. unfold amounts in *. simpl.
  split_and!.
  - rewrite fmap_app, fmap_cons in Hnd. unfold amounts. rewrite fmap_app.
    apply NoDup_app in Hnd as (Hnd1 & Hdisj & Hnd2).
    apply NoDup_cons in Hnd2 as [Hp Hnd2].
    apply NoDup_app. split_and!; [done| |done].
    intros x Hx1 Hx2. apply (Hdisj x Hx1). by right.
  - by eapply StronglySorted_remove_middle.
  - rewrite length_app in *. simpl in *. lia.
Qed.

Lemma mutate_inv SoftLimit s m :
  catalog_inv SoftLimit (packs s) → catalog_inv SoftLimit (packs (mutate SoftLimit s m)).
Proof.
  destruct m; simpl;
    auto using AddPack_inv, UpdatePack_inv, DeletePack_inv.
Qed.

(** C10. Starting from the empty storage, after any sequence of [AddPack],
    [UpdatePack] and [DeletePack] the stored catalog has pairwise distinct
    amounts, is strictly descending and holds at most [SoftLimit] packs, and
    each of the three mutators preserves this invariant.  ([SoftLimit] is 20 in
    the source; any limit that is not negative does.) *)
Theorem catalog_invariant (SoftLimit : Z) :
  0 ≤ SoftLimit →
  (∀ ms : list mutation,
     catalog_inv SoftLimit (packs (foldl (mutate SoftLimit) NewPackStorage ms))) ∧
  (∀ s amount,
     catalog_inv SoftLimit (packs s) →
     catalog_inv SoftLimit (packs (AddPack SoftLimit s amount).1)) ∧
  (∀ s oldAmount newAmount,
     catalog_inv SoftLimit (packs s) →
     catalog_inv SoftLimit (packs (UpdatePack s oldAmount newAmount).1)) ∧
  (∀ s amount,
     catalog_inv SoftLimit (packs s) →
     catalog_inv SoftLimit (packs (DeletePack s amount).1)).
Proof.
  intros HL. split_and!;
    [|apply AddPack_inv|intros; by apply UpdatePack_inv|intros; by apply DeletePack_inv].
  intros ms.
  assert (catalog_inv SoftLimit (packs NewPackStorage)) as H0.
  { split_and!; simpl; [constructor|constructor|lia]. }
  revert H0. generalize NewPackStorage.
  induction ms as [|m ms IH]; intros s Hs; simpl; [done|].
  by apply IH, mutate_inv.
Qed.

Lemma catalog_invariant_witness :
  0 ≤ 20 ∧
  catalog_inv 20 (packs (foldl (mutate 20) NewPackStorage
                           [Add 250; Add 1000; Add 500; Update 250 300; Delete 1000])).
Proof.
  split; [lia|].
  destruct (catalog_invariant 20) as [H _]; [lia|]. apply H.
Defined.

(** ** Greedy fill *)

Lemma items_app l1 l2 : items (l1 ++ l2) = items l1 + items l2.
Proof. induction l1; simpl; lia. Qed.

Lemma wrap_add_wrap_l a b : wrap (wrap a + b) = wrap (a + b).
Proof.
  replace (wrap a + b) with (wrap a - (- b)) by lia.
  rewrite wrap_sub_wrap_l. f_equal. lia.
Qed.

Lemma line_of_pack q p : mkOrderPack q p = line q (Amount p).
Proof. by destruct p. Qed.

Lemma div_mul_bounds r s :
  0 ≤ r → 0 < s → 0 ≤ r `div` s * s ≤ r ∧ r - r `div` s * s < s.
Proof.
  intros Hr Hs. pose proof (Z.mod_pos_bound r s Hs).
  pose proof (Z.div_mod r s). pose proof (Z.div_pos r s). nia.
Qed.

(** The loop of [useFullPacks] computes [greedy_fill]; nothing overflows and
    nothing panics on a catalog of positive sizes. *)
Lemma useFullPacks_loop_greedy ps r o :
  valid_packs ps → 0 ≤ r ≤ max_int → in_range (TotalItems o) →
  ∃ o', useFullPacks_loop ps (r, o) = Done ((greedy_fill r (amounts ps)).1, o') ∧
        RequestedItems o' = RequestedItems o ∧
        OverpackedItems o' = OverpackedItems o ∧
        TotalItems o' = wrap (TotalItems o + items (greedy_fill r (amounts ps)).2) ∧
        Packs o' = Packs o ++ (greedy_fill r (amounts ps)).2.
Proof.
  intros Hps. revert r o. induction Hps as [|p ps Hp Hps IH]; intros r o Hr Ho; simpl.
  - exists o. split_and!; try done.
    + by rewrite Z.add_0_r, wrap_in_range.
    + by rewrite app_nil_r.
  - pose proof (div_mul_bounds r (Amount p) ltac:(lia) ltac:(lia)) as Hdiv.
    pose proof min_int_neg as Hmin.
    destruct (Z.leb_spec (Amount p) r) as [Hle|Hgt].
    + rewrite int_quo_pos by lia. osimpl.
      assert (0 < r `div` Amount p) as Hq by (apply Z.div_str_pos; lia).
      destruct (Z.ltb_spec 0 (r `div` Amount p)); [|lia].
      rewrite decide_True by lia.
      unfold int_sub, int_mul, int_add.
      rewrite (wrap_in_range (_ * _)) by (unfold in_range; lia).
      rewrite (wrap_in_range (r - _)) by (unfold in_range; lia).
      osimpl.
      edestruct (IH (r - r `div` Amount p * Amount p)) as (o' & -> & ? & ? & Ht & Hl);
        [lia|apply wrap_range|].
      destruct (greedy_fill _ (amounts ps)) as [r' ls] eqn:Hg. simpl in *.
      exists o'. split_and!; try done.
      * rewrite Ht, wrap_add_wrap_l. f_equal. unfold size. simpl. lia.
      * rewrite Hl, <- app_assoc. simpl. by rewrite line_of_pack.
    + rewrite decide_False by lia. osimpl. by apply IH.
Qed.

Lemma greedy_fill_remaining r l :
  Forall (λ s, 0 < s) l → 0 ≤ r →
  0 ≤ (greedy_fill r l).1 ≤ r ∧ Forall (λ s, (greedy_fill r l).1 < s) l.
Proof.
  intros Hl. revert r. induction Hl as [|s l Hs Hl IH]; intros r Hr; simpl.
  - split; [lia|constructor].
  - pose proof (div_mul_bounds r s Hr Hs) as Hdiv.
    destruct (decide _) as [[Hle Hq]|Hn].
    + destruct (IH (r - r `div` s * s)) as [Hr' Hall]; [lia|].
      destruct (greedy_fill _ l) as [r' ls]. simpl in *.
      split; [lia|]. constructor; [lia|done].
    + destruct (IH r Hr) as [Hr' Hall]. split; [done|].
      constructor; [|done].
      destruct (decide (s ≤ r)); [|lia].
      exfalso. apply Hn. split; [done|]. apply Z.div_str_pos. lia.
Qed.

Lemma greedy_fill_items r l :
  Forall (λ s, 0 < s) l → 0 ≤ r →
  items (greedy_fill r l).2 + (greedy_fill r l).1 = r.
Proof.
  intros Hl. revert r. induction Hl as [|s l Hs Hl IH]; intros r Hr; simpl; [lia|].
  pose proof (div_mul_bounds r s Hr Hs) as Hdiv.
  destruct (decide _) as [[Hle Hq]|Hn]; [|by apply IH].
  specialize (IH (r - r `div` s * s)).
  destruct (greedy_fill _ l) as [r' ls]. simpl in *. unfold size. simpl. lia.
Qed.

(** Every line of the greedy fill has a positive quantity and a size of the
    catalog that is at most the remaining it was taken from. *)
Lemma greedy_fill_lines r l :
  Forall (λ s, 0 < s) l → 0 ≤ r →
  Forall (λ p, 0 < Quantity p ∧ size p ∈ l ∧ Quantity p * size p ≤ r)
         (greedy_fill r l).2.
Proof.
  intros Hl. revert r. induction Hl as [|s l Hs Hl IH]; intros r Hr; simpl; [constructor|].
  pose proof (div_mul_bounds r s Hr Hs) as Hdiv.
  destruct (decide _) as [[Hle Hq]|Hn].
  - specialize (IH (r - r `div` s * s)).
    destruct (greedy_fill _ l) as [r' ls]. simpl in *.
    constructor.
    + unfold size. simpl. split_and!; [done|by left|lia].
    + eapply Forall_impl; [apply IH; lia|].
      intros p (? & ? & ?). split_and!; [done|by right|lia].
  - eapply Forall_impl; [by apply IH|].
    intros p (? & ? & ?). split_and!; [done|by right|lia].
Qed.

(** The lines come out in strictly descending size order. *)
Lemma greedy_fill_sorted r l :
  Forall (λ s, 0 < s) l → 0 ≤ r →
  StronglySorted (λ p q, size q < size p) (greedy_fill r l).2.
Proof.
  intros Hl. revert r. induction Hl as [|s l Hs Hl IH]; intros r Hr; simpl; [constructor|].
  pose proof (div_mul_bounds r s Hr Hs) as Hdiv.
  destruct (decide _) as [[Hle Hq]|Hn]; [|by apply IH].
  pose proof (greedy_fill_lines (r - r `div` s * s) l Hl) as Hlines.
  specialize (IH (r - r `div` s * s)).
  destruct (greedy_fill _ l) as [r' ls]. simpl in *.
  constructor; [apply IH; lia|].
  eapply Forall_impl; [apply Hlines; lia|].
  intros p (? & ? & ?). unfold size at 2. simpl. nia.
Qed.

Lemma valid_packs_amounts ps : valid_packs ps → Forall (λ s, 0 < s) (amounts ps).
Proof.
  unfold valid_packs, amounts. rewrite Forall_fmap. intros H.
  eapply Forall_impl; [exact H|]. intros p. simpl. lia.
Qed.

(** C7. On a positive request and pack sizes sorted strictly descending
    [useFullPacks] returns what a single pass over the sizes computes
    ([greedy_fill]: per size [s ≤ remaining], a line with quantity
    [remaining / s] when positive, and [remaining] reduced by
    [quantity × s]); the remaining it returns is not negative, the appended
    lines are in strictly descending size order and none has quantity zero. *)
Theorem useFullPacks_greedy ps order :
  0 < RequestedItems order ≤ max_int →
  in_range (TotalItems order) →
  valid_packs ps →
  StronglySorted sdesc ps →
  ∃ remaining ls,
    greedy_fill (RequestedItems order) (amounts ps) = (remaining, ls) ∧
    useFullPacks ps order =
      Done (remaining,
            mkOrder (RequestedItems order) (OverpackedItems order)
                    (wrap (TotalItems order + items ls)) (Packs order ++ ls)) ∧
    0 ≤ remaining ∧
    StronglySorted (λ p q, size q < size p) ls ∧
    Forall (λ p, 0 < Quantity p) ls.
Proof.
  intros HR Ht Hps _.
  pose proof (valid_packs_amounts ps Hps) as Hpos.
  destruct (useFullPacks_loop_greedy ps (RequestedItems order) order Hps)
    as (o' & Hrun & H1 & H2 & H3 & H4); [lia|done|].
  pose proof (greedy_fill_remaining (RequestedItems order) (amounts ps) Hpos) as [Hrem _];
    [lia|].
  pose proof (greedy_fill_sorted (RequestedItems order) (amounts ps) Hpos) as Hsorted.
  pose proof (greedy_fill_lines (RequestedItems order) (amounts ps) Hpos) as Hlines.
  destruct (greedy_fill _ _) as [remaining ls]. simpl in *.
  exists remaining, ls. split_and!; [done| |lia|apply Hsorted; lia|].
  - unfold useFullPacks. rewrite Hrun. f_equal. f_equal.
    destruct o'; simpl in *. congruence.
  - eapply Forall_impl; [apply Hlines; lia|]. by intros p (? & _).
Qed.

Lemma useFullPacks_greedy_witness :
  ∃ remaining ls,
    greedy_fill (RequestedItems test_order) (amounts test_packs) = (remaining, ls) ∧
    useFullPacks test_packs test_order =
      Done (remaining,
            mkOrder (RequestedItems test_order) (OverpackedItems test_order)
                    (wrap (TotalItems test_order + items ls)) (Packs test_order ++ ls)) ∧
    0 ≤ remaining ∧
    StronglySorted (λ p q, size q < size p) ls ∧
    Forall (λ p, 0 < Quantity p) ls.
Proof.
  apply (useFullPacks_greedy test_packs test_order).
  - by vm_compute.
  - by vm_compute.
  - repeat constructor; by vm_compute.
  - repeat constructor; by vm_compute.
Defined.

(** ** Consolidation: the groups and one merge *)

Lemma cnt_app s l1 l2 : cnt s (l1 ++ l2) = cnt s l1 + cnt s l2.
Proof. induction l1; simpl; [done|]. case_decide; lia. Qed.

Lemma cnt_middle s l1 q pk l2 :
  cnt s (l1 ++ mkOrderPack q pk :: l2)
  = cnt s l1 + (if decide (Amount pk = s) then q else 0) + cnt s l2.
Proof.
  rewrite cnt_app. simpl. unfold size. simpl. case_decide; lia.
Qed.

Lemma cnt_nonneg s ls : positive_lines ls → 0 ≤ cnt s ls.
Proof.
  induction 1 as [|p ls Hp _ IH]; simpl; [done|]. case_decide; lia.
Qed.

Lemma cnt_absent s ls : s ∉ sizes ls → cnt s ls = 0.
Proof.
  induction ls as [|p ls IH]; simpl; [done|].
  rewrite not_elem_of_cons. intros [Hne Hnin].
  rewrite decide_False by done. by apply IH.
Qed.

Lemma cnt_present s ls : positive_lines ls → s ∈ sizes ls → 0 < cnt s ls.
Proof.
  induction 1 as [|p ls Hp Hls IH]; simpl.
  - by intros ?%elem_of_nil.
  - pose proof (cnt_nonneg s ls Hls).
    intros [->|Hin]%elem_of_cons.
    + rewrite decide_True by done. lia.
    + specialize (IH Hin). case_decide; lia.
Qed.

Lemma cnt_line_le p ls : positive_lines ls → p ∈ ls → Quantity p ≤ cnt (size p) ls.
Proof.
  induction 1 as [|p' ls Hp Hls IH]; simpl.
  - by intros ?%elem_of_nil.
  - pose proof (cnt_nonneg (size p) ls Hls).
    intros [->|Hin]%elem_of_cons.
    + rewrite decide_True by done. lia.
    + specialize (IH Hin). case_decide; lia.
Qed.

Lemma cnt_unique p ls : NoDup (sizes ls) → p ∈ ls → cnt (size p) ls = Quantity p.
Proof.
  induction ls as [|p' ls IH]; simpl.
  - by intros _ ?%elem_of_nil.
  - rewrite NoDup_cons. intros [Hnin Hnd] [->|Hin]%elem_of_cons.
    + rewrite decide_True by done. rewrite cnt_absent; [lia|done].
    + rewrite decide_False; [by apply IH|].
      intros Heq. apply Hnin. rewrite Heq. unfold sizes.
      apply list_elem_of_fmap. eauto.
Qed.

Lemma sizeGroups_loop_lookup ls (m : gmap Z Z) s :
  positive_lines ls →
  (∀ s, 0 ≤ default 0 (m !! s) ∧ default 0 (m !! s) + cnt s ls ≤ max_int) →
  foldl sizeGroups_step m ls !! s =
    if decide (s ∈ sizes ls) then Some (default 0 (m !! s) + cnt s ls) else m !! s.
Proof.
  intros Hls. revert m. induction Hls as [|p ls Hp Hls IH]; intros m Hm; simpl.
  - done.
  - pose proof min_int_neg as Hmin.
    assert (int_add (default 0 (m !! size p)) (Quantity p)
            = default 0 (m !! size p) + Quantity p) as Hadd.
    { unfold int_add. apply wrap_in_range. unfold in_range.
      pose proof (Hm (size p)) as Hs. simpl in Hs.
      rewrite decide_True in Hs by done.
      pose proof (cnt_nonneg (size p) ls Hls). lia. }
    rewrite IH.
    + unfold sizeGroups_step. fold (size p). rewrite Hadd.
      destruct (decide (size p = s)) as [<-|Hne].
      * rewrite lookup_insert_eq. simpl.
        rewrite (decide_True (P := size p ∈ _ :: _)) by (by left).
        case_decide as Hin; [f_equal; lia|].
        rewrite (cnt_absent _ _ Hin). f_equal. lia.
      * rewrite lookup_insert_ne by done.
        case_decide as Hin.
        -- rewrite decide_True by (by right). done.
        -- rewrite decide_False; [done|].
           rewrite not_elem_of_cons. done.
    + intros s'. unfold sizeGroups_step. fold (size p). rewrite Hadd.
      specialize (Hm s'). simpl in Hm.
      destruct (decide (size p = s')) as [<-|Hne].
      * rewrite lookup_insert_eq. simpl. lia.
      * rewrite lookup_insert_ne by done. lia.
Qed.

(** Without overflow the map [sizeGroups] holds, for every size on a line, the
    number of packs of that size. *)
Lemma sizeGroups_lookup ls s :
  positive_lines ls → (∀ s, cnt s ls ≤ max_int) →
  sizeGroups ls !! s = if decide (s ∈ sizes ls) then Some (cnt s ls) else None.
Proof.
  intros Hls Hmax. unfold sizeGroups.
  rewrite sizeGroups_loop_lookup; [|done|].
  - by rewrite lookup_empty.
  - intros s'. rewrite lookup_empty. simpl. specialize (Hmax s'). lia.
Qed.

Lemma range_entry (r : MapRange) ls s c :
  valid_range r → positive_lines ls → (∀ s, cnt s ls ≤ max_int) →
  (s, c) ∈ r (sizeGroups ls) ↔ s ∈ sizes ls ∧ c = cnt s ls.
Proof.
  intros Hr Hls Hmax. rewrite (Hr (sizeGroups ls)), elem_of_map_to_list.
  rewrite sizeGroups_lookup by done.
  destruct (decide _) as [Hin|Hnin].
  - split; [by intros [= <-]|by intros [_ ->]].
  - split; [done|by intros [? _]].
Qed.

(** Taking away as many packs of a size as the order has of it drops every
    line of that size. *)
Lemma removePacks_all C n ls :
  positive_lines ls → cnt C ls ≤ n ≤ max_int →
  removePacks C n ls = filter (λ p, size p ≠ C) ls.
Proof.
  intros Hls. revert n. induction Hls as [|p ls Hp Hls IH]; intros n Hn; simpl; [done|].
  fold (size p). simpl in Hn.
  pose proof (cnt_nonneg C ls Hls) as Hc. pose proof min_int_neg as Hmin.
  destruct (Z.eqb_spec (size p) C) as [Heq|Hne].
  - rewrite decide_True in Hn by done.
    destruct (Z.ltb_spec n (Quantity p)); [lia|].
    rewrite filter_cons_False by (intros ?; done).
    unfold int_sub. rewrite Z.min_r by lia.
    rewrite wrap_in_range by (unfold in_range; lia).
    apply IH. lia.
  - rewrite decide_False in Hn by done.
    rewrite filter_cons_True by done. f_equal. by apply IH.
Qed.

Lemma incrementFirst_None T ls : T ∉ sizes ls → incrementFirst T ls = None.
Proof.
  induction ls as [|p ls IH]; simpl; [done|].
  rewrite not_elem_of_cons. intros [Hne Hnin]. fold (size p).
  destruct (Z.eqb_spec (size p) T); [done|].
  by rewrite IH.
Qed.

Lemma incrementFirst_Some T ls :
  T ∈ sizes ls →
  ∃ l1 p l2, ls = l1 ++ p :: l2 ∧ size p = T ∧
    incrementFirst T ls = Some (l1 ++ mkOrderPack (int_add (Quantity p) 1) (Pack_ p) :: l2).
Proof.
  induction ls as [|p ls IH]; simpl.
  - by intros ?%elem_of_nil.
  - intros Hin. fold (size p). destruct (Z.eqb_spec (size p) T) as [Heq|Hne].
    + by exists [], p, ls.
    + apply elem_of_cons in Hin as [?|Hin]; [done|].
      destruct (IH Hin) as (l1 & q & l2 & -> & Hq & ->).
      by exists (p :: l1), q, l2.
Qed.

Lemma cnt_filter_ne C s ls :
  cnt s (filter (λ p, size p ≠ C) ls) = if decide (s = C) then 0 else cnt s ls.
Proof.
  induction ls as [|p ls IH]; simpl.
  - by destruct (decide _).
  - destruct (decide (size p = C)) as [Heq|Hne].
    + rewrite filter_cons_False by (intros ?; done). rewrite IH.
      repeat case_decide; congruence.
    + rewrite filter_cons_True by done. simpl. rewrite IH.
      repeat case_decide; congruence.
Qed.

Lemma sizes_filter_ne C s ls :
  s ∈ sizes (filter (λ p, size p ≠ C) ls) ↔ s ∈ sizes ls ∧ s ≠ C.
Proof.
  unfold sizes. rewrite !list_elem_of_fmap. split.
  - intros (p & -> & [Hne Hin]%list_elem_of_filter). eauto.
  - intros [(p & -> & Hin) Hne]. exists p. split; [done|].
    by apply list_elem_of_filter.
Qed.

Lemma items_filter_ne C ls :
  items (filter (λ p, size p ≠ C) ls) = items ls - cnt C ls * C.
Proof.
  induction ls as [|p ls IH]; simpl; [done|].
  destruct (decide (size p = C)) as [Heq|Hne].
  - rewrite filter_cons_False by (intros ?; done). rewrite IH, Heq. lia.
  - rewrite filter_cons_True by done. simpl. rewrite IH. lia.
Qed.

Lemma Forall_filter_ne {P : OrderPack → Prop} C ls :
  Forall P ls → Forall P (filter (λ p, size p ≠ C) ls).
Proof.
  rewrite !Forall_forall. intros H x [_ Hx]%list_elem_of_filter. auto.
Qed.

(** What one merge makes of the lines when it takes all packs of size [C]:
    the lines of size [C] go, and one pack of size [T] is added, on the first
    line of that size if there is one. *)
Lemma mergeLines_all C T ls :
  positive_lines ls → C ≠ T → cnt C ls ≤ max_int → cnt T ls < max_int →
  let ls' := mergeLines C T (cnt C ls) ls in
  positive_lines ls' ∧
  (∀ s, cnt s ls' = if decide (s = C) then 0
                    else if decide (s = T) then cnt T ls + 1 else cnt s ls) ∧
  (∀ s, s ∈ sizes ls' ↔ (s ∈ sizes ls ∧ s ≠ C) ∨ s = T) ∧
  items ls' = items ls - cnt C ls * C + T ∧
  (NoDup (sizes (filter (λ p, size p ≠ C) ls)) → NoDup (sizes ls')).
Proof.
  intros Hls HST HS HT ls'. unfold ls', mergeLines. clear ls'.
  rewrite removePacks_all; [|done|lia].
  set (ls1 := filter (λ p, size p ≠ C) ls).
  assert (positive_lines ls1) as Hls1 by (by apply Forall_filter_ne).
  assert (cnt T ls1 = cnt T ls) as HcT.
  { unfold ls1. rewrite cnt_filter_ne. by rewrite decide_False. }
  destruct (decide (T ∈ sizes ls1)) as [Hin|Hnin].
  - destruct (incrementFirst_Some T ls1 Hin) as (l1 & [q pk] & l2 & Hl & Hp & ->).
    unfold size in Hp. simpl in *.
    assert (int_add q 1 = q + 1) as ->.
    { unfold int_add. apply wrap_in_range.
      assert (mkOrderPack q pk ∈ ls1) as Hpin.
      { rewrite Hl. apply elem_of_app. right. by left. }
      pose proof (cnt_line_le _ ls1 Hls1 Hpin) as Hle.
      assert (0 < q) by (by eapply (proj1 (Forall_forall _ _) Hls1) in Hpin).
      pose proof min_int_neg. unfold size in Hle. simpl in Hle.
      rewrite Hp in Hle. unfold in_range. lia. }
    assert (sizes (l1 ++ mkOrderPack (q + 1) pk :: l2) = sizes ls1) as Hsz.
    { rewrite Hl. unfold sizes. by rewrite !fmap_app. }
    split_and!.
    + rewrite Hl in Hls1. unfold positive_lines in *.
      rewrite Forall_app, Forall_cons in Hls1 |- *. simpl in *. intuition lia.
    + intros s. rewrite cnt_middle.
      transitivity (cnt s ls1 + if decide (s = T) then 1 else 0).
      { rewrite Hl, cnt_middle. repeat case_decide; try congruence; lia. }
      unfold ls1. rewrite cnt_filter_ne.
      repeat case_decide; try congruence; lia.
    + intros s. rewrite Hsz.
      unfold ls1 at 1. rewrite sizes_filter_ne. split; [tauto|].
      intros [?| ->]; [done|]. by apply sizes_filter_ne.
    + rewrite <- (items_filter_ne C ls). fold ls1. rewrite Hl, !items_app. simpl.
      unfold size. simpl. lia.
    + by rewrite Hsz.
  - rewrite incrementFirst_None by done. cbn zeta.
    split_and!.
    + apply Forall_app. split; [done|]. by repeat constructor.
    + intros s. rewrite cnt_app. simpl. unfold size at 1. simpl.
      unfold ls1. rewrite cnt_filter_ne.
      pose proof (cnt_absent T ls1 Hnin) as H0. rewrite HcT in H0.
      repeat case_decide; simplify_eq; lia.
    + intros s. unfold sizes. rewrite fmap_app, elem_of_app. fold (sizes ls1).
      unfold ls1. rewrite sizes_filter_ne. simpl.
      rewrite list_elem_of_singleton. unfold size at 1. simpl. done.
    + rewrite items_app. unfold ls1. rewrite items_filter_ne. simpl.
      unfold size at 1. simpl. lia.
    + intros Hnd. unfold sizes. rewrite fmap_app. apply NoDup_app.
      split_and!; [done| |apply NoDup_singleton].
      intros s Hs ->%list_elem_of_singleton. done.
Qed.

(** ** Consolidation: what qualifies for a merge *)

Lemma scanGroups_None T entries o :
  0 < T ≤ max_int →
  (∀ s c, (s, c) ∈ entries → 0 < s ∧ ¬ qualifies T s c) →
  scanGroups T entries o = Done None.
Proof.
  intros HT. induction entries as [|[s c] entries IH]; intros Hent; simpl; [done|].
  assert (∀ s c, (s, c) ∈ entries → 0 < s ∧ ¬ qualifies T s c) as Hrest.
  { intros s' c' Hin. apply Hent. by right. }
  destruct (Hent s c) as [Hs Hnq]; [by left|].
  destruct (Z.leb_spec T s); [by apply IH|].
  rewrite int_rem_pos by lia. osimpl.
  destruct (Z.eqb_spec (T `mod` s) 0) as [Hmod|]; [|by apply IH].
  rewrite int_quo_pos by lia. osimpl.
  destruct (Z.leb_spec (T `div` s) c); [|by apply IH].
  exfalso. apply Hnq. by split_and!.
Qed.

Lemma scanGroups_Some T entries o C c :
  0 < T ≤ max_int → (C, c) ∈ entries → qualifies T C c →
  (∀ s' c', (s', c') ∈ entries → 0 < s' ∧ (qualifies T s' c' → s' = C)) →
  scanGroups T entries o = Done (Some (mergePack o C T (T `div` C))).
Proof.
  intros HT Hin Hq. induction entries as [|[s' c'] entries IH]; intros Hent; simpl.
  - by apply elem_of_nil in Hin.
  - assert (∀ s c, (s, c) ∈ entries → 0 < s ∧ (qualifies T s c → s = C)) as Hrest.
    { intros s1 c1 Hin1. apply Hent. by right. }
    destruct (Hent s' c') as [Hs Huniq]; [by left|].
    assert (¬ qualifies T s' c' → scanGroups T entries o
              = Done (Some (mergePack o C T (T `div` C)))) as Hnext.
    { intros Hnq. apply IH; [|done].
      apply elem_of_cons in Hin as [[= <- <-]|Hin]; [done|done]. }
    destruct (Z.leb_spec T s').
    { apply Hnext. unfold qualifies. lia. }
    rewrite int_rem_pos by lia. osimpl.
    destruct (Z.eqb_spec (T `mod` s') 0) as [Hmod|].
    2:{ apply Hnext. unfold qualifies. tauto. }
    rewrite int_quo_pos by lia. osimpl.
    destruct (Z.leb_spec (T `div` s') c').
    2:{ apply Hnext. unfold qualifies. lia. }
    rewrite (Huniq ltac:(by split_and!)). done.
Qed.

Lemma scanLines_None T ls o :
  0 < T ≤ max_int →
  Forall (λ p, 0 < size p ∧ ¬ qualifies T (size p) (Quantity p)) ls →
  scanLines T ls o = Done None.
Proof.
  intros HT. induction 1 as [|p ls [Hs Hnq] _ IH]; simpl; [done|].
  fold (size p).
  destruct (Z.leb_spec T (size p)); [by apply IH|].
  rewrite int_rem_pos by lia. osimpl.
  destruct (Z.eqb_spec (T `mod` size p) 0) as [Hmod|]; [|by apply IH].
  rewrite int_quo_pos by lia. osimpl.
  destruct (Z.leb_spec (T `div` size p) (Quantity p)); [|by apply IH].
  exfalso. apply Hnq. by split_and!.
Qed.

Section consolidation.
(** The amounts of the catalog the order is calculated from. *)
Context (cat : list Z).
Hypothesis cat_valid : Forall (λ c, 0 < c ≤ max_int) cat.

Lemma cat_pos c : c ∈ cat → 0 < c ≤ max_int.
Proof. intros Hc. by apply (proj1 (Forall_forall _ _) cat_valid). Qed.

Lemma minv_positive C ls : minv cat C ls → positive_lines ls.
Proof.
  intros (Hls & _). eapply Forall_impl; [done|]. by intros p [? _].
Qed.

Lemma minv_size_cat C ls s : minv cat C ls → s ∈ sizes ls → s ∈ cat.
Proof.
  intros (Hls & _) (p & -> & Hp)%list_elem_of_fmap.
  by apply (proj1 (Forall_forall _ _) Hls) in Hp as [_ ?].
Qed.

Lemma minv_cnt_max C ls s : minv cat C ls → cnt s ls ≤ max_int.
Proof.
  intros Hinv. pose proof (minv_positive C ls Hinv) as Hpos.
  destruct (decide (s ∈ sizes ls)) as [Hin|Hnin].
  - pose proof (minv_size_cat C ls s Hinv Hin) as Hc.
    pose proof (cat_pos s Hc). pose proof (cnt_nonneg s ls Hpos).
    destruct Hinv as (_ & _ & Hother & Hcarry & _).
    destruct (decide (s = C)) as [->|Hne]; [done|].
    destruct (Hother s Hc Hne) as [? _]. nia.
  - rewrite cnt_absent by done. pose proof max_int_pos. lia.
Qed.

Lemma qualifies_carry C ls T s :
  minv cat C ls → T ∈ cat → s ∈ sizes ls → qualifies T s (cnt s ls) →
  s = C ∧ T = cnt C ls * C.
Proof.
  intros Hinv HT Hs (Hlt & Hmod & Hdiv).
  pose proof (minv_size_cat C ls s Hinv Hs) as Hc.
  pose proof (cat_pos s Hc) as Hspos.
  pose proof (Z.div_mod T s ltac:(lia)) as HTs. rewrite Hmod in HTs.
  destruct Hinv as (_ & _ & Hother & _ & Hcarry).
  destruct (decide (s = C)) as [->|Hne].
  - split; [done|]. specialize (Hcarry T HT Hlt).
    assert (T `div` C = cnt C ls) as Heq; [|rewrite <- Heq; lia].
    assert (cnt C ls - 1 < T `div` C); [|lia].
    apply (Z.mul_lt_mono_pos_r C); lia.
  - destruct (Hother s Hc Hne) as [_ Hlt']. specialize (Hlt' T HT Hlt).
    assert (T `div` s * s ≤ cnt s ls * s); [|lia].
    apply Z.mul_le_mono_nonneg_r; lia.
Qed.

Lemma carry_qualifies C ls :
  minv cat C ls → mergeable cat C ls →
  C ∈ sizes ls ∧ qualifies (cnt C ls * C) C (cnt C ls).
Proof.
  intros Hinv [Hlt Hin].
  assert (0 < C ≤ max_int) as HS by (apply cat_pos; apply Hinv).
  split.
  - destruct (decide (C ∈ sizes ls)) as [|Hnin]; [done|].
    rewrite (cnt_absent C ls Hnin) in Hlt. lia.
  - split_and!; [done|apply Z.mod_mul; lia|].
    rewrite Z.div_mul by lia. lia.
Qed.

Lemma with_packs_id o : with_packs o (Packs o) = o.
Proof. by destruct o. Qed.

Lemma range_entry_minv (r : MapRange) C ls s c :
  minv cat C ls → valid_range r →
  (s, c) ∈ r (sizeGroups ls) ↔ s ∈ sizes ls ∧ c = cnt s ls.
Proof.
  intros Hinv Hr. apply range_entry; [done|by eapply minv_positive|].
  intros s'. by eapply minv_cnt_max.
Qed.

Lemma tryMergeSame_from_none (r : nat → MapRange) C o avail j :
  minv cat C (Packs o) → (∀ j, valid_range (r j)) → ¬ mergeable cat C (Packs o) →
  Forall (λ p, Amount p ∈ cat) avail →
  tryMergeSameSizePacks_from j r (sizeGroups (Packs o)) avail o = Done (false, o).
Proof.
  intros Hinv Hr Hnm Havail. revert j.
  induction Havail as [|p avail Hp _ IH]; intros j; simpl; [done|].
  rewrite scanGroups_None; [osimpl; apply IH|by apply cat_pos|].
  intros s c [Hs ->]%(range_entry_minv _ C); [|done|done].
  split.
  - apply cat_pos. by eapply minv_size_cat.
  - intros Hq. pose proof Hq as [Hlt _].
    destruct (qualifies_carry C (Packs o) (Amount p) s) as [-> HT]; [done..|].
    apply Hnm. split; [lia|by rewrite <- HT].
Qed.

Lemma tryMergeSame_from_merge (r : nat → MapRange) C o avail j :
  minv cat C (Packs o) → (∀ j, valid_range (r j)) → mergeable cat C (Packs o) →
  Forall (λ p, Amount p ∈ cat) avail →
  cnt C (Packs o) * C ∈ amounts avail →
  tryMergeSameSizePacks_from j r (sizeGroups (Packs o)) avail o
  = Done (true, mergePack o C (cnt C (Packs o) * C) (cnt C (Packs o))).
Proof.
  intros Hinv Hr Hm Havail. revert j.
  destruct (carry_qualifies C (Packs o) Hinv Hm) as [HCin HCq].
  assert (0 < C ≤ max_int) as HC by (apply cat_pos; apply Hinv).
  assert (∀ s c T, T ∈ cat → (s, c) ∈ r 0%nat (sizeGroups (Packs o)) →
                   0 < s ∧ (qualifies T s c → s = C ∧ T = cnt C (Packs o) * C))
    as Hent.
  { intros s c T HT [Hs ->]%(range_entry_minv _ C); [|done|done].
    split; [apply cat_pos; by eapply minv_size_cat|].
    intros Hq. by apply (qualifies_carry C (Packs o) T s). }
  assert (∀ j s c, (s, c) ∈ r j (sizeGroups (Packs o)) ↔
                   (s, c) ∈ r 0%nat (sizeGroups (Packs o))) as Hj.
  { intros j s c. by rewrite !(range_entry_minv _ C). }
  induction Havail as [|p avail Hp _ IH]; intros j Hin; simpl.
  - by apply elem_of_nil in Hin.
  - destruct (decide (Amount p = cnt C (Packs o) * C)) as [Heq|Hne].
    + rewrite (scanGroups_Some _ _ _ C (cnt C (Packs o))).
      * osimpl. rewrite Heq, Z.div_mul by lia. done.
      * by apply cat_pos.
      * apply Hj, range_entry_minv with C; done.
      * by rewrite Heq.
      * intros s' c' Hin'%Hj. destruct (Hent s' c' (Amount p) Hp Hin') as [? Hq].
        split; [done|]. intros ?. by apply Hq.
    + rewrite scanGroups_None.
      * osimpl. apply IH. apply elem_of_cons in Hin as [?|?]; [congruence|done].
      * by apply cat_pos.
      * intros s c Hin'%Hj. destruct (Hent s c (Amount p) Hp Hin') as [? Hq].
        split; [done|]. intros [_ ?]%Hq. done.
Qed.

Lemma tryMergeDifferent_none C o avail :
  minv cat C (Packs o) → ¬ mergeable cat C (Packs o) →
  Forall (λ p, Amount p ∈ cat) avail →
  tryMergeDifferentSizePacks avail o = Done o.
Proof.
  intros Hinv Hnm. induction 1 as [|p avail Hp _ IH]; simpl; [done|].
  rewrite scanLines_None; [by osimpl|by apply cat_pos|].
  pose proof (minv_positive C _ Hinv) as Hpos.
  apply Forall_forall. intros l Hl.
  assert (size l ∈ sizes (Packs o)) as Hs.
  { apply list_elem_of_fmap. eauto. }
  split.
  - apply cat_pos. by eapply minv_size_cat.
  - intros (Hlt & Hmod & Hdiv).
    pose proof (cnt_line_le l (Packs o) Hpos Hl) as Hle.
    destruct (qualifies_carry C (Packs o) (Amount p) (size l)) as [HC HT]; [done..| |].
    { split_and!; [done|done|lia]. }
    apply Hnm. split; [lia|by rewrite <- HT].
Qed.

Lemma mergePacks_body_step (r : nat → MapRange) C o avail :
  minv cat C (Packs o) → (∀ j, valid_range (r j)) →
  (∀ T, T ∈ amounts avail ↔ T ∈ cat) →
  mergePacks_body r avail o = Done (merge_step cat C o).
Proof.
  intros Hinv Hr Havail.
  assert (Forall (λ p, Amount p ∈ cat) avail) as Hall.
  { apply Forall_forall. intros p Hp. apply Havail, list_elem_of_fmap. eauto. }
  unfold mergePacks_body, merge_step, tryMergeSameSizePacks.
  destruct (decide (mergeable cat C (Packs o))) as [Hm|Hnm].
  - rewrite (tryMergeSame_from_merge r C); [done..|]. apply Havail, Hm.
  - rewrite (tryMergeSame_from_none r C) by done. osimpl.
    by apply (tryMergeDifferent_none C).
Qed.

(** A merge moves the carry to the target size. *)
Lemma minv_merge C ls :
  minv cat C ls → mergeable cat C ls →
  minv cat (cnt C ls * C) (mergeLines C (cnt C ls * C) (cnt C ls) ls).
Proof.
  intros Hinv [Hlt HT].
  pose proof (minv_positive C ls Hinv) as Hpos.
  pose proof (minv_cnt_max C ls) as Hmax.
  pose proof Hinv as (Hls & HC & Hother & HCmax & Hcarry).
  pose proof (cat_pos C HC) as HCpos.
  pose proof (cat_pos _ HT) as HTpos.
  set (T := cnt C ls * C) in *.
  destruct (Hother T HT ltac:(lia)) as [HTmax HTlt].
  pose proof (cnt_nonneg T ls Hpos) as HT0.
  destruct (mergeLines_all C T ls) as (Hpos' & Hcnt & Hsizes & _ & _);
    [done|lia|done|nia|].
  split_and!.
  - apply Forall_forall. intros p Hp. split.
    + by apply (proj1 (Forall_forall _ _) Hpos').
    + assert (size p ∈ sizes (mergeLines C T (cnt C ls) ls)) as Hs.
      { apply list_elem_of_fmap. eauto. }
      apply Hsizes in Hs as [[Hs _]| ->]; [|done].
      by eapply minv_size_cat.
  - done.
  - intros s Hs Hne. rewrite Hcnt.
    destruct (decide (s = C)) as [->|HneC].
    + split; [pose proof max_int_pos; lia|].
      intros T' HT' _. pose proof (cat_pos T' HT'). lia.
    + rewrite decide_False by done. by apply Hother.
  - rewrite Hcnt. rewrite decide_False by lia. rewrite decide_True by done. nia.
  - intros T' HT' Hlt'. rewrite Hcnt.
    rewrite decide_False by lia. rewrite decide_True by done.
    replace (cnt T ls + 1 - 1) with (cnt T ls) by lia. by apply HTlt.
Qed.

Lemma above_lt_length C : C ∈ cat → (above cat C < length cat)%nat.
Proof.
  unfold above. clear cat_valid. induction cat as [|c l IH]; simpl.
  - by intros ?%elem_of_nil.
  - intros [Heq|Hin]%elem_of_cons.
    + rewrite filter_cons_False by lia.
      pose proof (length_filter (λ c, C < c) l). simpl. lia.
    + specialize (IH Hin). destruct (decide (C < c)).
      * rewrite filter_cons_True by done. simpl. lia.
      * rewrite filter_cons_False by done. lia.
Qed.

Lemma above_mono C T : C < T → T ∈ cat → (above cat T < above cat C)%nat.
Proof.
  unfold above. clear cat_valid. intros Hlt.
  assert (∀ l : list Z, (length (filter (λ c, (T < c)%Z) l)
                         ≤ length (filter (λ c, (C < c)%Z) l))%nat) as Hle.
  { induction l as [|c l IH]; simpl; [done|].
    destruct (decide (T < c)).
    - rewrite !filter_cons_True by lia. simpl. lia.
    - rewrite (filter_cons_False (λ c, T < c)) by done.
      destruct (decide (C < c)).
      + rewrite filter_cons_True by done. simpl. lia.
      + by rewrite filter_cons_False by done. }
  induction cat as [|c l IH]; simpl.
  - by intros ?%elem_of_nil.
  - intros [Heq|Hin]%elem_of_cons.
    + rewrite filter_cons_False by lia. rewrite filter_cons_True by lia.
      specialize (Hle l). simpl. lia.
    + specialize (IH Hin). destruct (decide (T < c)).
      * rewrite !filter_cons_True by lia. simpl. lia.
      * rewrite (filter_cons_False (λ c, T < c)) by done.
        destruct (decide (C < c)).
        -- rewrite filter_cons_True by done. simpl. lia.
        -- by rewrite filter_cons_False by done.
Qed.

Lemma consolidate_stable k C ls : ¬ mergeable cat C ls → consolidate cat k C ls = ls.
Proof. intros Hnm. destruct k; simpl; [done|]. by rewrite decide_False. Qed.

Lemma mergePacks_loop_consolidate k i (r : nat → nat → MapRange) avail o C :
  minv cat C (Packs o) → (∀ i j, valid_range (r i j)) →
  (∀ T, T ∈ amounts avail ↔ T ∈ cat) →
  mergePacks_loop k i r avail o = Done (with_packs o (consolidate cat k C (Packs o))).
Proof.
  intros Hinv Hr Havail. revert i o C Hinv.
  induction k as [|k IH]; intros i o C Hinv; simpl.
  - by rewrite with_packs_id.
  - rewrite (mergePacks_body_step (r i) C) by done. osimpl.
    unfold merge_step. destruct (decide (mergeable cat C (Packs o))) as [Hm|Hnm].
    + rewrite (IH _ _ (cnt C (Packs o) * C)); [done|].
      by apply minv_merge.
    + rewrite (IH _ _ C) by done. by rewrite consolidate_stable.
Qed.

(** After more iterations than there are catalog sizes above the carry,
    nothing is left to merge. *)
Lemma consolidate_done k C ls :
  minv cat C ls → (above cat C < k)%nat →
  ∃ C', minv cat C' (consolidate cat k C ls) ∧ ¬ mergeable cat C' (consolidate cat k C ls).
Proof.
  revert C ls. induction k as [|k IH]; intros C ls Hinv Hk; simpl; [lia|].
  destruct (decide (mergeable cat C ls)) as [Hm|Hnm]; [|by exists C].
  apply IH; [by apply minv_merge|].
  destruct Hm as [Hlt HT].
  assert (0 < C) by (apply cat_pos, Hinv).
  pose proof (above_mono C (cnt C ls * C) ltac:(lia) HT). lia.
Qed.

Lemma consolidate_items k C ls :
  minv cat C ls → items (consolidate cat k C ls) = items ls.
Proof.
  revert C ls. induction k as [|k IH]; intros C ls Hinv; simpl; [done|].
  destruct (decide (mergeable cat C ls)) as [Hm|Hnm]; [|done].
  rewrite IH by (by apply minv_merge).
  pose proof (minv_positive C ls Hinv) as Hpos.
  pose proof Hinv as (Hls & HC & Hother & HCmax & Hcarry).
  destruct Hm as [Hlt HT].
  pose proof (cat_pos C HC) as HCpos.
  pose proof (cat_pos _ HT) as HTpos.
  destruct (Hother _ HT ltac:(lia)) as [HTmax _].
  pose proof (cnt_nonneg (cnt C ls * C) ls Hpos) as HT0.
  destruct (mergeLines_all C (cnt C ls * C) ls) as (_ & _ & _ & Hitems & _);
    [done|lia|done|nia|].
  lia.
Qed.

Lemma NoDup_sizes_filter C ls :
  NoDup (sizes ls) → NoDup (sizes (filter (λ p, size p ≠ C) ls)).
Proof.
  intros Hnd. apply (sublist_NoDup _ (sizes ls)); [exact Hnd|].
  unfold sizes. apply fmap_sublist, sublist_filter.
Qed.

Lemma mergeLines_NoDup C ls :
  minv cat C ls → mergeable cat C ls →
  NoDup (sizes (filter (λ p, size p ≠ C) ls)) →
  NoDup (sizes (mergeLines C (cnt C ls * C) (cnt C ls) ls)).
Proof.
  intros Hinv Hm.
  pose proof (minv_positive C ls Hinv) as Hpos.
  pose proof Hinv as (Hls & HC & Hother & HCmax & Hcarry).
  destruct Hm as [Hlt HT].
  pose proof (cat_pos C HC) as HCpos.
  pose proof (cat_pos _ HT) as HTpos.
  destruct (Hother _ HT ltac:(lia)) as [HTmax _].
  pose proof (cnt_nonneg (cnt C ls * C) ls Hpos) as HT0.
  destruct (mergeLines_all C (cnt C ls * C) ls) as (_ & _ & _ & _ & Hnd);
    [done|lia|done|nia|done].
Qed.

Lemma consolidate_NoDup_keep k C ls :
  minv cat C ls → NoDup (sizes ls) → NoDup (sizes (consolidate cat k C ls)).
Proof.
  revert C ls. induction k as [|k IH]; intros C ls Hinv Hnd; simpl; [done|].
  destruct (decide (mergeable cat C ls)) as [Hm|Hnm]; [|done].
  apply IH; [by apply minv_merge|].
  apply mergeLines_NoDup; [done..|]. by apply NoDup_sizes_filter.
Qed.

(** A merge leaves no two lines of one size, if only the carry had two. *)
Lemma consolidate_NoDup k C ls :
  minv cat C ls → NoDup (sizes (filter (λ p, size p ≠ C) ls)) →
  consolidate cat k C ls = ls ∨ NoDup (sizes (consolidate cat k C ls)).
Proof.
  intros Hinv Hnd. destruct k as [|k]; simpl; [by left|].
  destruct (decide (mergeable cat C ls)) as [Hm|Hnm]; [right|by left].
  apply consolidate_NoDup_keep; [by apply minv_merge|].
  by apply mergeLines_NoDup.
Qed.
End consolidation.

(** ** The lines that enter consolidation *)

Lemma greedy_fill_above r l before :
  Forall (λ s, 0 < s) l → 0 ≤ r → StronglySorted (λ a b, b ≤ a) l →
  (∀ T, T ∈ before → r < T) →
  Forall (λ p, ∀ T, T ∈ before ++ l → size p < T → Quantity p * size p < T)
         (greedy_fill r l).2.
Proof.
  intros Hl. revert r before.
  induction Hl as [|s l Hs Hl IH]; intros r before Hr Hsorted Hbefore; simpl;
    [constructor|].
  apply StronglySorted_inv in Hsorted as [Hsorted Hhd].
  pose proof (div_mul_bounds r s Hr Hs) as Hdiv.
  assert (∀ r', r' ≤ r → r' < s → 0 ≤ r' →
    Forall (λ p, ∀ T, T ∈ before ++ s :: l → size p < T → Quantity p * size p < T)
           (greedy_fill r' l).2) as Hrec.
  { intros r' Hle Hlt Hr'.
    eapply Forall_impl; [apply (IH r' (before ++ [s])); [done|done|]|].
    - intros T [HT| ->%list_elem_of_singleton]%elem_of_app; [|done].
      specialize (Hbefore T HT). lia.
    - intros p Hp T HT. apply Hp. rewrite <- app_assoc. done. }
  destruct (decide _) as [[Hle Hq]|Hn].
  - specialize (Hrec (r - r `div` s * s) ltac:(lia) ltac:(lia) ltac:(lia)).
    destruct (greedy_fill _ l) as [r' ls]. simpl in *.
    constructor; [|done].
    unfold size. simpl. intros T [HT|HT]%elem_of_app Hlt.
    + specialize (Hbefore T HT). lia.
    + apply elem_of_cons in HT as [->|HT]; [lia|].
      apply (proj1 (Forall_forall _ _) Hhd) in HT. lia.
  - apply Hrec; [lia| |lia].
    destruct (decide (s ≤ r)); [|lia].
    exfalso. apply Hn. split; [done|]. apply Z.div_str_pos. lia.
Qed.

Lemma sorted_sizes_NoDup ls :
  StronglySorted (λ p q, size q < size p) ls → NoDup (sizes ls).
Proof.
  induction 1 as [|p ls _ IH Hp]; simpl; constructor; [|done].
  intros (q & Heq & Hq)%list_elem_of_fmap.
  apply (proj1 (Forall_forall _ _) Hp) in Hq. lia.
Qed.

(** The packs of each size in the greedy fill fall short of every larger
    catalog size. *)
Lemma greedy_fill_cnt r l s :
  Forall (λ s, 0 < s) l → 0 ≤ r → StronglySorted (λ a b, b ≤ a) l →
  cnt s (greedy_fill r l).2 * s ≤ r ∧
  ∀ T, T ∈ l → s < T → cnt s (greedy_fill r l).2 * s < T.
Proof.
  intros Hl Hr Hsorted.
  pose proof (greedy_fill_lines r l Hl Hr) as Hlines.
  assert (∀ T, T ∈ @nil Z → r < T) as Hnil.
  { intros T HT. by apply elem_of_nil in HT. }
  pose proof (greedy_fill_above r l [] Hl Hr Hsorted Hnil) as Habove.
  pose proof (sorted_sizes_NoDup _ (greedy_fill_sorted r l Hl Hr)) as Hnd.
  destruct (decide (s ∈ sizes (greedy_fill r l).2)) as [Hin|Hnin].
  - apply list_elem_of_fmap in Hin as (p & -> & Hp).
    rewrite (cnt_unique p _ Hnd Hp).
    apply (proj1 (Forall_forall _ _) Hlines) in Hp as Hp1.
    split; [lia|]. intros T HT Hlt.
    by eapply (proj1 (Forall_forall _ _) Habove).
  - rewrite (cnt_absent _ _ Hnin). split; [lia|].
    intros T HT _. apply (proj1 (Forall_forall _ _) Hl) in HT. lia.
Qed.

Lemma sorted_amounts ps :
  StronglySorted desc ps → StronglySorted (λ a b, b ≤ a) (amounts ps).
Proof.
  induction 1 as [|p ps _ IH Hp]; simpl; constructor; [done|].
  unfold amounts. rewrite Forall_fmap. eapply Forall_impl; [done|]. by intros q.
Qed.

Lemma sorted_last ps p :
  StronglySorted desc ps → last ps = Some p → Forall (λ q, Amount p ≤ Amount q) ps.
Proof.
  intros Hs [l' ->]%last_Some. apply Forall_app. split.
  - apply Forall_forall. intros q Hq.
    apply (StronglySorted_app_1_elem_of desc l' [p] q p Hs Hq). by left.
  - by repeat constructor.
Qed.

Lemma initial_minv ps R smallest :
  valid_packs ps → StronglySorted desc ps → last ps = Some smallest →
  0 < R ≤ max_int →
  minv (amounts ps) (Amount smallest)
       ((greedy_fill R (amounts ps)).2
          ++ residual (greedy_fill R (amounts ps)).1 (Amount smallest)).
Proof.
  intros Hps Hsorted Hlast HR.
  pose proof (valid_packs_amounts ps Hps) as Hpos.
  pose proof (sorted_amounts ps Hsorted) as Hsorted'.
  pose proof (greedy_fill_lines R (amounts ps) Hpos ltac:(lia)) as Hlines.
  pose proof (greedy_fill_remaining R (amounts ps) Hpos ltac:(lia)) as [Hrem Hremlt].
  pose proof (λ s, greedy_fill_cnt R (amounts ps) s Hpos ltac:(lia) Hsorted') as Hcnt.
  assert (Amount smallest ∈ amounts ps) as HC.
  { apply last_Some in Hlast as [l' ->]. unfold amounts.
    rewrite fmap_app. apply elem_of_app. right. by left. }
  assert (0 < Amount smallest) as HCpos.
  { by apply (proj1 (Forall_forall _ _) Hpos). }
  apply (proj1 (Forall_forall _ _) Hremlt) in HC as Hlt.
  destruct (greedy_fill R (amounts ps)) as [rem ls]. simpl in *.
  assert (positive_lines ls) as Hposl.
  { eapply Forall_impl; [exact Hlines|]. simpl. tauto. }
  assert (∀ s, cnt s (ls ++ residual rem (Amount smallest))
               = cnt s ls + if decide (0 < rem ∧ s = Amount smallest) then 1 else 0)
    as Hcnt0.
  { intros s. rewrite cnt_app. f_equal. unfold residual.
    destruct (decide (0 < rem)); simpl; unfold size; simpl;
      repeat case_decide; try lia; tauto. }
  split_and!.
  - apply Forall_app. split.
    + eapply Forall_impl; [exact Hlines|]. simpl. tauto.
    + unfold residual. destruct (decide (0 < rem)); repeat constructor; done.
  - done.
  - intros s Hs Hne. rewrite Hcnt0. rewrite decide_False by tauto.
    rewrite Z.add_0_r. destruct (Hcnt s). split; [lia|done].
  - rewrite Hcnt0. destruct (Hcnt (Amount smallest)) as [Hle _].
    pose proof (cnt_nonneg (Amount smallest) ls Hposl).
    destruct (decide (0 < rem ∧ _)) as [[Hd _]|Hd].
    + assert (2 ≤ Amount smallest) by lia.
      assert (2 * cnt (Amount smallest) ls ≤ cnt (Amount smallest) ls * Amount smallest)
        by nia. lia.
    + assert (cnt (Amount smallest) ls ≤ cnt (Amount smallest) ls * Amount smallest)
        by nia. lia.
  - intros T HT HltT. rewrite Hcnt0. destruct (Hcnt (Amount smallest)) as [_ Hlt'].
    specialize (Hlt' T HT HltT).
    pose proof (cnt_nonneg (Amount smallest) ls Hposl).
    destruct (decide (0 < rem ∧ _)) as [[Hd _]|Hd].
    + by replace (cnt (Amount smallest) ls + 1 - 1) with (cnt (Amount smallest) ls) by lia.
    + nia.
Qed.

(** ** CalculateOrder *)

Lemma getPacks_id s : getPacks s = packs s.
Proof.
  unfold getPacks. induction (packs s) as [|[a] l IH]; simpl; [done|].
  by f_equal.
Qed.

Lemma appendOrder_retained SoftLimit history o :
  0 < SoftLimit ≤ max_int → Z.of_nat (length history) ≤ max_int →
  appendOrder SoftLimit history o = Done (retained SoftLimit history ++ [o]).
Proof.
  intros HL Hlen. unfold appendOrder, retained.
  pose proof min_int_neg.
  destruct (Z.leb_spec SoftLimit (Z.of_nat (length history))); [|done].
  unfold int_sub. rewrite (wrap_in_range (SoftLimit - 1)) by (unfold in_range; lia).
  rewrite wrap_in_range by (unfold in_range; lia).
  unfold slice_from. rewrite decide_True by lia. done.
Qed.

Lemma valid_packs_sorted lt ps : valid_packs ps → valid_packs (sort_by lt ps).
Proof. unfold valid_packs. by rewrite sort_by_perm. Qed.

Lemma valid_packs_cat ps : valid_packs ps → Forall (λ c, 0 < c ≤ max_int) (amounts ps).
Proof. unfold valid_packs, amounts. by rewrite Forall_fmap. Qed.

(** Inside [CalculateOrder], [mergePacks] is [consolidate], whatever the map
    orders. *)
Lemma mergePacks_consolidate (r : nat → nat → MapRange) ps o C :
  valid_packs ps → minv (amounts ps) C (Packs o) → (∀ i j, valid_range (r i j)) →
  mergePacks r ps o
  = Done (with_packs o (consolidate (amounts ps) (length ps) C (Packs o))).
Proof.
  intros Hps Hinv Hr. unfold mergePacks, getSortedPackSizes.
  rewrite sort_by_length.
  apply mergePacks_loop_consolidate; [by apply valid_packs_cat|done|done|].
  intros T. unfold amounts. by rewrite sort_by_perm.
Qed.

Lemma CalculateOrder_run SoftLimit (r : nat → nat → MapRange) s R :
  storage_ok s → 0 < R ≤ max_int → 0 < SoftLimit ≤ max_int →
  (∀ i j, valid_range (r i j)) →
  CalculateOrder SoftLimit r s R =
    Done (mkPackStorage (sort_by (λ a b, b <? a) (packs s))
                        (retained SoftLimit (orders s) ++ [calculated (packs s) R]),
          calculated (packs s) R, None).
Proof.
  intros (Hne & Hps & Hlen) HR HL Hr. unfold CalculateOrder.
  rewrite decide_False by (by destruct (packs s)).
  cbn zeta. rewrite getPacks_id. simpl packs. simpl orders.
  set (sorted := sort_by (λ a b, b <? a) (packs s)).
  assert (valid_packs sorted) as Hsv by (by apply valid_packs_sorted).
  assert (StronglySorted desc sorted) as Hsorted by apply sort_desc_sorted.
  destruct (last sorted) as [smallest|] eqn:Hlast.
  2:{ apply last_None in Hlast. exfalso. apply Hne.
      apply Permutation_nil_r. rewrite <- Hlast. unfold sorted.
      symmetry. apply sort_by_perm. }
  pose proof (initial_minv sorted R smallest Hsv Hsorted Hlast HR) as Hinv.
  pose proof (valid_packs_amounts sorted Hsv) as Hpos.
  pose proof (greedy_fill_items R (amounts sorted) Hpos ltac:(lia)) as Hitems.
  pose proof (greedy_fill_remaining R (amounts sorted) Hpos ltac:(lia)) as [Hrem _].
  pose proof min_int_neg as Hmin.
  destruct (useFullPacks_loop_greedy sorted R (mkOrder R 0 0 []) Hsv)
    as (o1 & Hrun & H1 & H2 & H3 & H4); [lia|simpl; unfold in_range; lia|].
  unfold useFullPacks. simpl RequestedItems. rewrite Hrun. osimpl.
  unfold calculated. fold sorted. rewrite Hlast. simpl default.
  destruct (greedy_fill R (amounts sorted)) as [rem ls]. simpl in *.
  destruct o1 as [r1 ov1 t1 l1]. simpl in *. subst r1 ov1 t1 l1.
  unfold addPackForRemainingItems. rewrite Hlast.
  assert (∀ o, Packs o = ls ++ residual rem (Amount smallest) →
            (mergePacks r sorted o ≫= λ order0,
               appendOrder SoftLimit (orders s) order0 ≫= λ history,
                 mret (mkPackStorage sorted history, order0, @None error))
            = Done (mkPackStorage sorted
                      (retained SoftLimit (orders s)
                         ++ [with_packs o (consolidate (amounts sorted) (length sorted)
                                             (Amount smallest) (Packs o))]),
                    with_packs o (consolidate (amounts sorted) (length sorted)
                                    (Amount smallest) (Packs o)), None)) as Hmerge.
  { intros o Ho.
    rewrite (mergePacks_consolidate r sorted o (Amount smallest)); [|done| |done].
    - osimpl. rewrite appendOrder_retained by done. by osimpl.
    - by rewrite Ho. }
  unfold residual in *.
  destruct (Z.leb_spec rem 0) as [Hle|Hgt]; destruct (decide (0 < rem)); try lia.
  - osimpl. cbn [RequestedItems OverpackedItems TotalItems Packs].
    rewrite Hmerge by (simpl; by rewrite app_nil_r).
    unfold with_packs, int_sub. simpl.
    rewrite ?Z.add_0_r, ?Z.add_0_l, ?app_nil_r. done.
  - osimpl. cbn [RequestedItems OverpackedItems TotalItems Packs].
    rewrite Hmerge by (simpl; by rewrite line_of_pack).
    unfold with_packs, int_add, int_sub. simpl.
    rewrite ?Z.add_0_l, ?wrap_add_wrap_l, ?line_of_pack. done.
Qed.

(** *** Facts about the calculated order *)

Section calculated.
Context (ps : list Pack) (R : Z).
Hypothesis ps_nonempty : ps ≠ [].
Hypothesis ps_valid : valid_packs ps.
Hypothesis R_range : 0 < R ≤ max_int.

Let sorted := sort_by (λ a b, b <? a) ps.

Lemma sorted_last_Some : ∃ smallest, last sorted = Some smallest.
Proof using ps_nonempty.
  destruct (last sorted) as [p|] eqn:Hlast; [by exists p|].
  apply last_None in Hlast. exfalso. apply ps_nonempty.
  apply Permutation_nil_r. rewrite <- Hlast. symmetry. apply sort_by_perm.
Qed.

(** The last pack of the sorted catalog is a smallest pack of the catalog. *)
Lemma smallest_least smallest :
  last sorted = Some smallest →
  smallest ∈ ps ∧ ∀ p, p ∈ ps → Amount smallest ≤ Amount p.
Proof.
  intros Hlast. split.
  - apply last_Some in Hlast as [l' Hl]. rewrite <- (sort_by_perm (λ a b, b <? a) ps).
    fold sorted. rewrite Hl. apply elem_of_app. right. by left.
  - intros p Hp.
    pose proof (sorted_last sorted smallest (sort_desc_sorted ps) Hlast) as Hall.
    apply (proj1 (Forall_forall _ _) Hall). unfold sorted. by rewrite sort_by_perm.
Qed.

Lemma calculated_remaining smallest :
  last sorted = Some smallest →
  0 ≤ (greedy_fill R (amounts sorted)).1 < Amount smallest.
Proof using ps_valid R_range.
  intros Hlast.
  pose proof (valid_packs_sorted (λ a b, b <? a) ps ps_valid) as Hsv.
  pose proof (valid_packs_amounts _ Hsv) as Hpos.
  destruct (greedy_fill_remaining R (amounts sorted) Hpos) as [Hrem Hlt]; [lia|].
  split; [lia|].
  apply (proj1 (Forall_forall _ _) Hlt).
  apply last_Some in Hlast as [l' Hl]. fold sorted in Hlt |- *. rewrite Hl.
  unfold amounts. rewrite fmap_app. apply elem_of_app. right. by left.
Qed.

(** The overpack is what the residual pack exceeds the remaining by, also when
    the total wraps around. *)
Lemma calculated_overpacked smallest :
  last sorted = Some smallest →
  OverpackedItems (calculated ps R) =
    let rem := (greedy_fill R (amounts sorted)).1 in
    if decide (0 < rem) then Amount smallest - rem else 0.
Proof using ps_valid R_range.
  intros Hlast. pose proof (calculated_remaining smallest Hlast) as Hrem.
  pose proof (valid_packs_sorted (λ a b, b <? a) ps ps_valid) as Hsv.
  pose proof (valid_packs_amounts _ Hsv) as Hpos.
  pose proof (greedy_fill_items R (amounts sorted) Hpos ltac:(lia)) as Hitems.
  assert (Amount smallest ≤ max_int) as Hmax.
  { destruct (smallest_least smallest Hlast) as [Hin _].
    by apply (proj1 (Forall_forall _ _) ps_valid) in Hin as [_ ?]. }
  unfold calculated. fold sorted. rewrite Hlast. simpl.
  rewrite wrap_sub_wrap_l. pose proof min_int_neg.
  destruct (decide _); rewrite wrap_in_range; unfold in_range; lia.
Qed.

Lemma calculated_total smallest :
  last sorted = Some smallest →
  R + Amount smallest ≤ max_int →
  TotalItems (calculated ps R) =
    let rem := (greedy_fill R (amounts sorted)).1 in
    R + if decide (0 < rem) then Amount smallest - rem else 0.
Proof using ps_valid R_range.
  intros Hlast Hbound. pose proof (calculated_remaining smallest Hlast) as Hrem.
  pose proof (valid_packs_sorted (λ a b, b <? a) ps ps_valid) as Hsv.
  pose proof (valid_packs_amounts _ Hsv) as Hpos.
  pose proof (greedy_fill_items R (amounts sorted) Hpos ltac:(lia)) as Hitems.
  unfold calculated. fold sorted. rewrite Hlast. simpl.
  pose proof min_int_neg.
  destruct (decide _); rewrite wrap_in_range; unfold in_range; lia.
Qed.

(** What the chosen packs hold is the request rounded up by less than the
    smallest pack. *)
Lemma delivered_spec smallest :
  last sorted = Some smallest →
  delivered ps R =
    let rem := (greedy_fill R (amounts sorted)).1 in
    R + if decide (0 < rem) then Amount smallest - rem else 0.
Proof using ps_valid R_range.
  intros Hlast.
  pose proof (valid_packs_sorted (λ a b, b <? a) ps ps_valid) as Hsv.
  pose proof (valid_packs_amounts _ Hsv) as Hpos.
  pose proof (greedy_fill_items R (amounts sorted) Hpos ltac:(lia)) as Hitems.
  pose proof (calculated_remaining smallest Hlast) as Hrem.
  unfold delivered. fold sorted. rewrite Hlast. cbn zeta. simpl default.
  rewrite items_app. unfold residual.
  destruct (decide _).
  - change (items [line 1 (Amount smallest)]) with (1 * Amount smallest + 0). lia.
  - change (items []) with 0. lia.
Qed.

(** The field [TotalItems] is that number in [int] arithmetic. *)
Lemma calculated_total_wrap smallest :
  last sorted = Some smallest →
  TotalItems (calculated ps R) = wrap (delivered ps R).
Proof using ps_valid R_range.
  intros Hlast. rewrite (delivered_spec smallest Hlast).
  pose proof (valid_packs_sorted (λ a b, b <? a) ps ps_valid) as Hsv.
  pose proof (valid_packs_amounts _ Hsv) as Hpos.
  pose proof (greedy_fill_items R (amounts sorted) Hpos ltac:(lia)) as Hitems.
  pose proof (calculated_remaining smallest Hlast) as Hrem.
  unfold calculated. fold sorted. rewrite Hlast. simpl.
  f_equal. destruct (decide _); lia.
Qed.

(** Consolidation has reached its fixed point in the calculated order. *)
Lemma calculated_stable :
  ∃ C, minv (amounts sorted) C (Packs (calculated ps R)) ∧
       ¬ mergeable (amounts sorted) C (Packs (calculated ps R)).
Proof using ps_nonempty ps_valid R_range.
  destruct sorted_last_Some as [smallest Hlast].
  pose proof (valid_packs_sorted (λ a b, b <? a) ps ps_valid) as Hsv.
  pose proof (initial_minv sorted R smallest Hsv (sort_desc_sorted ps) Hlast R_range)
    as Hinv.
  unfold calculated. fold sorted. rewrite Hlast. simpl.
  apply consolidate_done; [by apply valid_packs_cat|done|].
  replace (length sorted) with (length (amounts sorted))
    by (unfold amounts; by rewrite length_fmap).
  apply above_lt_length, Hinv.
Qed.

(** The lines of the calculated order hold as many items as the lines that
    entered consolidation. *)
Lemma calculated_items smallest :
  last sorted = Some smallest →
  items (Packs (calculated ps R)) =
    items ((greedy_fill R (amounts sorted)).2
             ++ residual (greedy_fill R (amounts sorted)).1 (Amount smallest)).
Proof using ps_valid R_range.
  intros Hlast.
  pose proof (valid_packs_sorted (λ a b, b <? a) ps ps_valid) as Hsv.
  pose proof (initial_minv sorted R smallest Hsv (sort_desc_sorted ps) Hlast R_range)
    as Hinv.
  unfold calculated. fold sorted. rewrite Hlast. simpl.
  apply (consolidate_items (amounts sorted)); [by apply valid_packs_cat|done].
Qed.

(** Two lines of one size are left only if nothing merged: the greedy line of
    the smallest size and the residual pack. *)
Lemma calculated_NoDup smallest :
  last sorted = Some smallest →
  Packs (calculated ps R) =
    (greedy_fill R (amounts sorted)).2
      ++ residual (greedy_fill R (amounts sorted)).1 (Amount smallest)
  ∨ NoDup (sizes (Packs (calculated ps R))).
Proof using ps_valid R_range.
  intros Hlast.
  pose proof (valid_packs_sorted (λ a b, b <? a) ps ps_valid) as Hsv.
  pose proof (valid_packs_amounts _ Hsv) as Hpos.
  pose proof (initial_minv sorted R smallest Hsv (sort_desc_sorted ps) Hlast R_range)
    as Hinv.
  unfold calculated. fold sorted. rewrite Hlast. simpl.
  apply (consolidate_NoDup (amounts sorted)); [by apply valid_packs_cat|done|].
  pose proof (sorted_sizes_NoDup _
                (greedy_fill_sorted R (amounts sorted) Hpos ltac:(lia))) as Hnd.
  rewrite filter_app. unfold sizes. rewrite fmap_app.
  replace (filter (λ p, size p ≠ Amount smallest)
             (residual (greedy_fill R (amounts sorted)).1 (Amount smallest)))
    with (@nil OrderPack).
  - rewrite app_nil_r. by apply NoDup_sizes_filter.
  - unfold residual. destruct (decide _); [|done].
    by rewrite filter_cons_False by (intros ?; done).
Qed.
End calculated.

(** * The claims about CalculateOrder *)

(** C5. On an empty catalog [CalculateOrder] fails with [ErrNoPacksAvailable]
    for every requested quantity: it returns the zero order next to the error,
    and the storage, with its order history, is as it was. *)
Theorem CalculateOrder_no_packs SoftLimit (r : nat → nat → MapRange) history R :
  CalculateOrder SoftLimit r (mkPackStorage [] history) R
  = Done (mkPackStorage [] history, zero_Order, Some ErrNoPacksAvailable).
Proof. done. Qed.

(** C3, as the code has it.  For a catalog of positive sizes that is not empty
    and a request [R > 0], let [D] be the exact number of items in the packs
    that greedy fill and residual addition choose.  The lines of the returned
    order hold [D] items, [R ≤ D], [D] is below [R] plus any pack size, and
    [OverpackedItems = D - R ≥ 0].  If [D] fits an [int], [TotalItems = D], so
    [TotalItems ≥ R] and [OverpackedItems = TotalItems - R]; if it does not,
    [TotalItems] is [D - 2^64], which is below [R]. *)
Theorem CalculateOrder_covers SoftLimit (r : nat → nat → MapRange) s R :
  storage_ok s → 0 < SoftLimit ≤ max_int → (∀ i j, valid_range (r i j)) →
  0 < R ≤ max_int →
  ∃ s' order,
    CalculateOrder SoftLimit r s R = Done (s', order, None) ∧
    items (Packs order) = delivered (packs s) R ∧
    R ≤ delivered (packs s) R ∧
    (∀ p, p ∈ packs s → delivered (packs s) R < R + Amount p) ∧
    OverpackedItems order = delivered (packs s) R - R ∧
    0 ≤ OverpackedItems order ∧
    (delivered (packs s) R ≤ max_int →
     TotalItems order = delivered (packs s) R ∧
     R ≤ TotalItems order ∧
     OverpackedItems order = TotalItems order - R) ∧
    (max_int < delivered (packs s) R →
     TotalItems order = delivered (packs s) R - 2 ^ 64 ∧
     TotalItems order < R).
Proof.
  intros Hs HL Hr HR. pose proof Hs as (Hne & Hps & _).
  eexists _, _. split; [by apply CalculateOrder_run|].
  destruct (sorted_last_Some (packs s) Hne) as [smallest Hlast].
  destruct (smallest_least (packs s) smallest Hlast) as [Hin Hleast].
  pose proof (calculated_remaining (packs s) R Hps HR smallest Hlast) as Hrem.
  pose proof (delivered_spec (packs s) R Hps HR smallest Hlast) as HD.
  pose proof (calculated_overpacked (packs s) R Hps HR smallest Hlast) as Hover.
  pose proof (calculated_total_wrap (packs s) R Hps HR smallest Hlast) as Htotal.
  cbn zeta in HD, Hover.
  assert (Amount smallest ≤ max_int) as Hmax.
  { by apply (proj1 (Forall_forall _ _) Hps) in Hin as [_ ?]. }
  assert (R ≤ delivered (packs s) R < R + Amount smallest) as HDR.
  { rewrite HD. destruct (decide _); lia. }
  assert (OverpackedItems (calculated (packs s) R) = delivered (packs s) R - R) as HO.
  { rewrite Hover, HD. destruct (decide _); lia. }
  assert (max_int = 2 ^ 63 - 1) as Hmaxv by reflexivity.
  pose proof min_int_neg.
  split_and!.
  - rewrite (calculated_items (packs s) R Hps HR smallest Hlast).
    unfold delivered. by rewrite Hlast.
  - lia.
  - intros p Hp. specialize (Hleast p Hp). lia.
  - done.
  - lia.
  - intros Hfits. rewrite Htotal, wrap_in_range by (unfold in_range; lia).
    split; [done|]. split; lia.
  - intros Hwraps. rewrite Htotal, wrap_above by lia. split; [done|]. lia.
Qed.

Lemma CalculateOrder_covers_witness :
  ∃ s' order,
    CalculateOrder 20 range_default main_storage 9223372036854775558
    = Done (s', order, None) ∧
    items (Packs order) = delivered (packs main_storage) 9223372036854775558 ∧
    9223372036854775558 ≤ delivered (packs main_storage) 9223372036854775558 ∧
    (∀ p, p ∈ packs main_storage →
          delivered (packs main_storage) 9223372036854775558
          < 9223372036854775558 + Amount p) ∧
    OverpackedItems order
    = delivered (packs main_storage) 9223372036854775558 - 9223372036854775558 ∧
    0 ≤ OverpackedItems order ∧
    (delivered (packs main_storage) 9223372036854775558 ≤ max_int →
     TotalItems order = delivered (packs main_storage) 9223372036854775558 ∧
     9223372036854775558 ≤ TotalItems order ∧
     OverpackedItems order = TotalItems order - 9223372036854775558) ∧
    (max_int < delivered (packs main_storage) 9223372036854775558 →
     TotalItems order = delivered (packs main_storage) 9223372036854775558 - 2 ^ 64 ∧
     TotalItems order < 9223372036854775558).
Proof.
  apply (CalculateOrder_covers 20 range_default main_storage 9223372036854775558).
  - split_and!; [done|repeat constructor; by vm_compute|by vm_compute].
  - by vm_compute.
  - intros i j m. done.
  - by vm_compute.
Defined.

(** C3 as stated fails where the total wraps around: the request [2^63 - 1]
    on the catalog [{2}] gets [TotalItems = -2^63]. *)
Lemma CalculateOrder_total_wraps :
  ∃ s' order,
    CalculateOrder 20 range_default (catalog [2]) 9223372036854775807
    = Done (s', order, None) ∧
    ¬ (RequestedItems order ≤ TotalItems order).
Proof.
  eexists _, _. split; [by vm_compute|]. by vm_compute.
Qed.

(** C9. For a catalog of positive sizes that is not empty and a request
    [R > 0]: the remaining after greedy fill is below the smallest catalog size,
    residual addition adds nothing or one pack of the smallest size, and the
    overpack of the returned order is below the smallest size. *)
Theorem CalculateOrder_overpack_bound SoftLimit (r : nat → nat → MapRange) s R :
  storage_ok s → 0 < SoftLimit ≤ max_int → (∀ i j, valid_range (r i j)) →
  0 < R ≤ max_int →
  ∃ smallest remaining o1 o2 s' order,
    let ps := getPacks (resortPacks s) in
    smallest ∈ packs s ∧ (∀ p, p ∈ packs s → Amount smallest ≤ Amount p) ∧
    useFullPacks ps (mkOrder R 0 0 []) = Done (remaining, o1) ∧
    0 ≤ remaining < Amount smallest ∧
    addPackForRemainingItems remaining ps o1 = Done o2 ∧
    (Packs o2 = Packs o1 ∨ Packs o2 = Packs o1 ++ [mkOrderPack 1 smallest]) ∧
    CalculateOrder SoftLimit r s R = Done (s', order, None) ∧
    0 ≤ OverpackedItems order < Amount smallest.
Proof.
  intros Hs HL Hr HR. pose proof Hs as (Hne & Hps & _).
  destruct (sorted_last_Some (packs s) Hne) as [smallest Hlast].
  destruct (smallest_least (packs s) smallest Hlast) as [Hin Hleast].
  pose proof (calculated_remaining (packs s) R Hps HR smallest Hlast) as Hrem.
  pose proof (valid_packs_sorted (λ a b, b <? a) (packs s) Hps) as Hsv.
  destruct (useFullPacks_loop_greedy _ R (mkOrder R 0 0 []) Hsv)
    as (o1 & Hrun & _); [lia|simpl; pose proof min_int_neg; unfold in_range; lia|].
  set (rem := (greedy_fill R (amounts (sort_by (λ a b, b <? a) (packs s)))).1) in *.
  assert (0 ≤ OverpackedItems (calculated (packs s) R) < Amount smallest) as Hover.
  { rewrite (calculated_overpacked (packs s) R Hps HR smallest Hlast).
    cbn zeta. fold rem. destruct (decide _); lia. }
  pose proof (CalculateOrder_run SoftLimit r s R Hs HR HL Hr) as Hcalc.
  exists smallest, rem, o1.
  destruct (Z.leb_spec rem 0) as [Hle|Hgt].
  - exists o1. eexists _, _. cbn zeta. rewrite getPacks_id. simpl packs.
    unfold addPackForRemainingItems.
    destruct (Z.leb_spec rem 0); [|lia].
    split; [done|]. split; [done|]. split; [exact Hrun|]. split; [lia|].
    split; [done|]. split; [by left|]. split; [exact Hcalc|done].
  - eexists _, _, _. cbn zeta. rewrite getPacks_id. simpl packs.
    unfold addPackForRemainingItems. rewrite Hlast.
    destruct (Z.leb_spec rem 0); [lia|].
    split; [done|]. split; [done|]. split; [exact Hrun|]. split; [lia|].
    split; [reflexivity|]. split; [by right|]. split; [exact Hcalc|done].
Qed.

Lemma CalculateOrder_overpack_bound_witness :
  ∃ smallest remaining o1 o2 s' order,
    let ps := getPacks (resortPacks main_storage) in
    smallest ∈ packs main_storage ∧
    (∀ p, p ∈ packs main_storage → Amount smallest ≤ Amount p) ∧
    useFullPacks ps (mkOrder 1001 0 0 []) = Done (remaining, o1) ∧
    0 ≤ remaining < Amount smallest ∧
    addPackForRemainingItems remaining ps o1 = Done o2 ∧
    (Packs o2 = Packs o1 ∨ Packs o2 = Packs o1 ++ [mkOrderPack 1 smallest]) ∧
    CalculateOrder 20 range_default main_storage 1001 = Done (s', order, None) ∧
    0 ≤ OverpackedItems order < Amount smallest.
Proof.
  apply (CalculateOrder_overpack_bound 20 range_default main_storage 1001).
  - split_and!; [done|repeat constructor; by vm_compute|by vm_compute].
  - by vm_compute.
  - intros i j m. done.
  - by vm_compute.
Defined.

(** C6. Consolidation is idempotent on the orders [CalculateOrder] returns:
    [mergePacks] run again on the returned order, with the catalog of the
    calculation and under any map orders, returns that order. *)
Theorem mergePacks_idempotent SoftLimit (r r' : nat → nat → MapRange) s R :
  storage_ok s → 0 < SoftLimit ≤ max_int → 0 < R ≤ max_int →
  (∀ i j, valid_range (r i j)) → (∀ i j, valid_range (r' i j)) →
  ∃ s' order,
    CalculateOrder SoftLimit r s R = Done (s', order, None) ∧
    mergePacks r' (getPacks s') order = Done order.
Proof.
  intros Hs HL HR Hr Hr'. pose proof Hs as (Hne & Hps & _).
  eexists _, _. split; [by apply CalculateOrder_run|].
  rewrite getPacks_id. simpl packs.
  destruct (calculated_stable (packs s) R Hne Hps HR) as (C & Hinv & Hstable).
  rewrite (mergePacks_consolidate r' _ _ C);
    [|by apply valid_packs_sorted|done|done].
  rewrite consolidate_stable by done. by rewrite with_packs_id.
Qed.

Lemma mergePacks_idempotent_witness :
  ∃ s' order,
    CalculateOrder 20 range_default main_storage 1251 = Done (s', order, None) ∧
    mergePacks range_default (getPacks s') order = Done order.
Proof.
  apply (mergePacks_idempotent 20 range_default range_default main_storage 1251).
  - split_and!; [done|repeat constructor; by vm_compute|by vm_compute].
  - by vm_compute.
  - by vm_compute.
  - intros i j m. done.
  - intros i j m. done.
Defined.

(** C1 fails on the code.  On the catalog [{250}] the request 251 gets one pack
    from greedy fill and one from residual addition, on two lines of size 250
    that no target can merge. *)
Theorem CalculateOrder_duplicate_lines :
  ∃ s' order,
    CalculateOrder 20 range_default (catalog [250]) 251 = Done (s', order, None) ∧
    Packs order = [line 1 250; line 1 250] ∧
    ¬ NoDup (sizes (Packs order)).
Proof.
  eexists _, _. split; [by vm_compute|]. split; [by vm_compute|].
  intros Hnd. apply NoDup_cons in Hnd as [Hnin _].
  apply Hnin. by left.
Qed.

(** What holds instead of C1: two lines of one size are left only when no merge
    applied, and then they are the greedy line and the residual line of the
    smallest size. *)
Lemma CalculateOrder_lines SoftLimit (r : nat → nat → MapRange) s R :
  storage_ok s → 0 < SoftLimit ≤ max_int → 0 < R ≤ max_int →
  (∀ i j, valid_range (r i j)) →
  ∃ s' order smallest,
    CalculateOrder SoftLimit r s R = Done (s', order, None) ∧
    last (packs s') = Some smallest ∧
    (NoDup (sizes (Packs order)) ∨
     ∃ ls, Packs order = ls ++ [line 1 (Amount smallest)] ∧ NoDup (sizes ls)).
Proof.
  intros Hs HL HR Hr. pose proof Hs as (Hne & Hps & _).
  destruct (sorted_last_Some (packs s) Hne) as [smallest Hlast].
  eexists _, _, smallest. split; [by apply CalculateOrder_run|].
  split; [done|].
  pose proof (valid_packs_sorted (λ a b, b <? a) (packs s) Hps) as Hsv.
  pose proof (valid_packs_amounts _ Hsv) as Hpos.
  pose proof (sorted_sizes_NoDup _
                (greedy_fill_sorted R _ Hpos ltac:(lia))) as Hnd.
  destruct (calculated_NoDup (packs s) R Hps HR smallest Hlast) as [->|?]; [|by left].
  unfold residual. destruct (decide _).
  - right. eauto.
  - left. by rewrite app_nil_r.
Qed.

(** [mergePack] updates the quantity of a line before it computes how much is
    left to remove, so a merge that leaves part of one line would take packs
    from the next line of that size too.  [CalculateOrder] never asks for such
    a merge; on an order built by hand, of 1000 items on the lines 3 x 250 and
    1 x 250, 750 are left. *)
Lemma mergePacks_loses_items :
  mergePacks range_default (mkPack <$> [500; 250])
             (mkOrder 1000 0 1000 [line 3 250; line 1 250])
  = Done (mkOrder 1000 0 1000 [line 1 250; line 1 500]) ∧
  items [line 3 250; line 1 250] = 1000 ∧
  items [line 1 250; line 1 500] = 750.
Proof. split_and!; by vm_compute. Qed.

(** Inside [CalculateOrder] consolidation does preserve the items of the
    lines: there a merge always takes whole lines. *)
Lemma CalculateOrder_items SoftLimit (r : nat → nat → MapRange) s R :
  storage_ok s → 0 < SoftLimit ≤ max_int → 0 < R ≤ max_int →
  (∀ i j, valid_range (r i j)) →
  ∃ s' order remaining o1 o2,
    CalculateOrder SoftLimit r s R = Done (s', order, None) ∧
    useFullPacks (packs s') (mkOrder R 0 0 []) = Done (remaining, o1) ∧
    addPackForRemainingItems remaining (packs s') o1 = Done o2 ∧
    items (Packs order) = items (Packs o2).
Proof.
  intros Hs HL HR Hr. pose proof Hs as (Hne & Hps & _).
  destruct (sorted_last_Some (packs s) Hne) as [smallest Hlast].
  pose proof (valid_packs_sorted (λ a b, b <? a) (packs s) Hps) as Hsv.
  destruct (useFullPacks_loop_greedy _ R (mkOrder R 0 0 []) Hsv)
    as (o1 & Hrun & _ & _ & _ & Hl1);
    [lia|simpl; pose proof min_int_neg; unfold in_range; lia|].
  pose proof (calculated_items (packs s) R Hps HR smallest Hlast) as Hitems.
  simpl in Hl1.
  pose proof (CalculateOrder_run SoftLimit r s R Hs HR HL Hr) as Hcalc.
  unfold residual in Hitems.
  set (rem := (greedy_fill R (amounts (sort_by (λ a b, b <? a) (packs s)))).1) in *.
  unfold addPackForRemainingItems.
  destruct (Z.leb_spec rem 0) as [Hle|Hgt]; destruct (decide (0 < rem)); try lia.
  - eexists _, _, rem, o1, _. split; [exact Hcalc|]. cbn [packs].
    split; [exact Hrun|]. destruct (Z.leb_spec rem 0); [|lia].
    split; [reflexivity|]. by rewrite Hitems, Hl1, app_nil_r.
  - eexists _, _, rem, o1, _. split; [exact Hcalc|]. cbn [packs].
    split; [exact Hrun|]. rewrite Hlast. destruct (Z.leb_spec rem 0); [lia|].
    split; [reflexivity|]. cbn [Packs]. by rewrite Hitems, Hl1, line_of_pack.
Qed.

(** Consolidation of an order that satisfies the invariant: it returns, with
    the items and the totals it was given, and with the order itself when no
    merge applies. *)
Lemma mergePacks_minv (r : nat → nat → MapRange) ps o C :
  valid_packs ps → minv (amounts ps) C (Packs o) → (∀ i j, valid_range (r i j)) →
  ∃ order,
    mergePacks r ps o = Done order ∧
    items (Packs order) = items (Packs o) ∧
    same_totals o order ∧
    (¬ merge_applies (amounts ps) (Packs o) → order = o).
Proof.
  intros Hps Hinv Hr. eexists. split; [by apply (mergePacks_consolidate r ps o C)|].
  pose proof (valid_packs_cat ps Hps) as Hcat.
  split; [by apply (consolidate_items (amounts ps))|].
  split; [done|].
  intros Hno. rewrite consolidate_stable; [apply with_packs_id|].
  intros Hm. apply Hno.
  destruct (carry_qualifies (amounts ps) Hcat C (Packs o) Hinv Hm) as [Hin Hq].
  exists (cnt C (Packs o) * C), C. split; [apply Hm|done].
Qed.

(** C2. Consolidation preserves the item count of every order that
    [CalculateOrder] feeds into it (the order after greedy fill and residual
    addition, for a catalog of positive sizes that is not empty and a request
    [R > 0]): [mergePacks] returns, the sum of quantity × pack size over the
    lines is the same after it as before, so are the totals of the order, and
    when no merge applies the order is returned unchanged. *)
Theorem mergePacks_preserves_items SoftLimit (r : nat → nat → MapRange) s R :
  storage_ok s → 0 < SoftLimit ≤ max_int → 0 < R ≤ max_int →
  (∀ i j, valid_range (r i j)) →
  ∃ remaining o1 o2 s' order,
    let ps := getPacks (resortPacks s) in
    let fed := mkOrder (RequestedItems o2) (int_sub (TotalItems o2) R)
                       (TotalItems o2) (Packs o2) in
    useFullPacks ps (mkOrder R 0 0 []) = Done (remaining, o1) ∧
    addPackForRemainingItems remaining ps o1 = Done o2 ∧
    mergePacks r ps fed = Done order ∧
    CalculateOrder SoftLimit r s R = Done (s', order, None) ∧
    items (Packs order) = items (Packs fed) ∧
    same_totals fed order ∧
    (¬ merge_applies (amounts ps) (Packs fed) → order = fed).
Proof.
  intros Hs HL HR Hr. pose proof Hs as (Hne & Hps & Hlen).
  destruct (sorted_last_Some (packs s) Hne) as [smallest Hlast].
  pose proof (valid_packs_sorted (λ a b, b <? a) (packs s) Hps) as Hsv.
  pose proof (initial_minv _ R smallest Hsv (sort_desc_sorted (packs s)) Hlast HR)
    as Hinv.
  destruct (useFullPacks_loop_greedy _ R (mkOrder R 0 0 []) Hsv)
    as (o1 & Hrun & _ & _ & _ & Hl1);
    [lia|simpl; pose proof min_int_neg; unfold in_range; lia|].
  simpl in Hl1.
  set (sorted := sort_by (λ a b, b <? a) (packs s)) in *.
  set (rem := (greedy_fill R (amounts sorted)).1) in *.
  assert (∃ o2, addPackForRemainingItems rem sorted o1 = Done o2 ∧
                Packs o2 = (greedy_fill R (amounts sorted)).2
                             ++ residual rem (Amount smallest)) as (o2 & Hadd & Hl2).
  { unfold addPackForRemainingItems, residual. rewrite Hlast.
    destruct (Z.leb_spec rem 0); destruct (decide (0 < rem)); try lia.
    - exists o1. by rewrite app_nil_r.
    - eexists. split; [done|]. cbn [Packs]. by rewrite Hl1, line_of_pack. }
  set (fed := mkOrder (RequestedItems o2) (int_sub (TotalItems o2) R)
                      (TotalItems o2) (Packs o2)).
  destruct (mergePacks_minv r sorted fed (Amount smallest) Hsv)
    as (order & Hmerge & Hitems & Htotals & Hsame); [by rewrite <- Hl2 in Hinv|done|].
  exists rem, o1, o2. eexists _, order. cbn zeta. rewrite getPacks_id. simpl packs.
  fold sorted. fold fed.
  split; [exact Hrun|]. split; [exact Hadd|]. split; [exact Hmerge|].
  split; [|done].
  unfold CalculateOrder. rewrite decide_False by (by destruct (packs s)).
  cbn zeta. rewrite getPacks_id. simpl packs. fold sorted.
  unfold useFullPacks. simpl RequestedItems. rewrite Hrun. osimpl.
  rewrite Hadd. osimpl. fold fed. rewrite Hmerge. osimpl.
  rewrite appendOrder_retained by done. by osimpl.
Qed.

Lemma mergePacks_preserves_items_witness :
  ∃ remaining o1 o2 s' order,
    let ps := getPacks (resortPacks main_storage) in
    let fed := mkOrder (RequestedItems o2) (int_sub (TotalItems o2) 1251)
                       (TotalItems o2) (Packs o2) in
    useFullPacks ps (mkOrder 1251 0 0 []) = Done (remaining, o1) ∧
    addPackForRemainingItems remaining ps o1 = Done o2 ∧
    mergePacks range_default ps fed = Done order ∧
    CalculateOrder 20 range_default main_storage 1251 = Done (s', order, None) ∧
    items (Packs order) = items (Packs fed) ∧
    same_totals fed order ∧
    (¬ merge_applies (amounts ps) (Packs fed) → order = fed).
Proof.
  apply (mergePacks_preserves_items 20 range_default main_storage 1251).
  - split_and!; [done|repeat constructor; by vm_compute|by vm_compute].
  - by vm_compute.
  - by vm_compute.
  - intros i j m. done.
Defined.

(** ** The order history *)

Lemma keep_length {A} n (l : list A) : length (keep n l) = (n `min` length l)%nat.
Proof. unfold keep. rewrite length_drop. lia. Qed.

Lemma keep_keep_app {A} n (l l' : list A) :
  keep n (keep n l ++ l') = keep n (l ++ l').
Proof.
  unfold keep. rewrite !length_app, length_drop.
  destruct (decide (length l ≤ n)%nat) as [Hle|Hgt].
  - replace (length l - n)%nat with 0%nat by lia. simpl.
    by replace (length l - 0)%nat with (length l) by lia.
  - replace (length l - (length l - n) + length l' - n)%nat with (length l') by lia.
    replace (length l + length l' - n)%nat
      with ((length l - n) + length l')%nat by lia.
    rewrite <- drop_drop. f_equal.
    rewrite drop_app_le by lia. done.
Qed.

Lemma retained_keep SoftLimit history o :
  0 < SoftLimit → (length history ≤ Z.to_nat SoftLimit)%nat →
  retained SoftLimit history ++ [o] = keep (Z.to_nat SoftLimit) (history ++ [o]).
Proof.
  intros HL Hlen. unfold retained, keep. rewrite length_app. simpl.
  destruct (Z.leb_spec SoftLimit (Z.of_nat (length history))).
  - replace (Z.to_nat (Z.of_nat (length history) - (SoftLimit - 1))) with 1%nat by lia.
    replace (length history + 1 - Z.to_nat SoftLimit)%nat with 1%nat by lia.
    rewrite drop_app_le; [done|]. lia.
  - by replace (length history + 1 - Z.to_nat SoftLimit)%nat with 0%nat by lia.
Qed.

Lemma CalculateOrders_history SoftLimit (r : nat → nat → nat → MapRange) k s requests :
  0 < SoftLimit ≤ max_int → storage_ok s →
  (length (orders s) ≤ Z.to_nat SoftLimit)%nat →
  (∀ k i j, valid_range (r k i j)) →
  Forall (λ R, 0 < R ≤ max_int) requests →
  ∃ s' results,
    CalculateOrders SoftLimit r k s requests = Done (s', results) ∧
    Forall (λ x, x.2 = None) results ∧
    length results = length requests ∧
    orders s' = keep (Z.to_nat SoftLimit) (orders s ++ results.*1).
Proof.
  intros HL Hs Hlen Hr Hreqs. revert k s Hs Hlen.
  induction Hreqs as [|R requests HR _ IH]; intros k s Hs Hlen; simpl.
  - exists s, []. split_and!; [done|done|done|].
    unfold keep. rewrite app_nil_r.
    by replace (length (orders s) - Z.to_nat SoftLimit)%nat with 0%nat by lia.
  - rewrite (CalculateOrder_run SoftLimit (r k) s R) by done. osimpl.
    set (s1 := mkPackStorage _ _).
    assert (orders s1 = keep (Z.to_nat SoftLimit) (orders s ++ [calculated (packs s) R]))
      as Hs1.
    { unfold s1. simpl. apply retained_keep; [lia|done]. }
    destruct (IH (S k) s1) as (s' & results & -> & Hnone & Hlen' & Hhist).
    + destruct Hs as (Hne & Hps & _). split_and!.
      * simpl. intros Hnil. apply Hne. apply Permutation_nil_r. rewrite <- Hnil.
        symmetry. apply sort_by_perm.
      * simpl. by apply valid_packs_sorted.
      * rewrite Hs1, keep_length. lia.
    + rewrite Hs1, keep_length. lia.
    + osimpl. eexists _, _. split; [done|]. simpl.
      split_and!; [by constructor|by rewrite Hlen'|].
      rewrite Hhist, Hs1, keep_keep_app, <- app_assoc. done.
Qed.

(** C8. With history cap [N] = [SoftLimit], [N + 1] calls of [CalculateOrder]
    on a storage with an empty history all succeed and leave exactly [N] orders
    in the history: those returned by the calls but the first, in the order of
    the calls, so that the newest is last. *)
Theorem history_cap (N : Z) (r : nat → nat → nat → MapRange) s requests :
  0 < N ≤ max_int → storage_ok s → orders s = [] →
  (∀ k i j, valid_range (r k i j)) →
  Forall (λ R, 0 < R ≤ max_int) requests →
  Z.of_nat (length requests) = N + 1 →
  ∃ s' results,
    CalculateOrders N r 0 s requests = Done (s', results) ∧
    Forall (λ x, x.2 = None) results ∧
    Z.of_nat (length results) = N + 1 ∧
    Z.of_nat (length (orders s')) = N ∧
    orders s' = drop 1 results.*1 ∧
    last (orders s') = last results.*1.
Proof.
  intros HN Hs Hempty Hr Hreqs Hlen.
  destruct (CalculateOrders_history N r 0 s requests)
    as (s' & results & Hrun & Hnone & Hlen' & Hhist); [done|done| |done|done|].
  { rewrite Hempty. simpl. lia. }
  rewrite Hempty in Hhist. simpl in Hhist. unfold keep in Hhist.
  rewrite length_fmap, Hlen' in Hhist.
  replace (length requests - Z.to_nat N)%nat with 1%nat in Hhist by lia.
  exists s', results. split_and!; [done|done|lia| |done|].
  - rewrite Hhist, length_drop, length_fmap. lia.
  - rewrite Hhist. destruct results as [|x [|y results]]; simpl in *; [lia|lia|done].
Qed.

Lemma history_cap_witness :
  ∃ s' results,
    CalculateOrders 2 (λ _, range_default) 0 main_storage [100; 200; 300]
    = Done (s', results) ∧
    Forall (λ x, x.2 = None) results ∧
    Z.of_nat (length results) = 2 + 1 ∧
    Z.of_nat (length (orders s')) = 2 ∧
    orders s' = drop 1 results.*1 ∧
    last (orders s') = last results.*1.
Proof.
  apply (history_cap 2 (λ _, range_default) main_storage [100; 200; 300]).
  - by vm_compute.
  - split_and!; [done|repeat constructor; by vm_compute|by vm_compute].
  - done.
  - intros k i j m. done.
  - repeat constructor; by vm_compute.
  - done.
Defined.

(** ** The tie-break of consolidation *)


Lemma scanLines_scanGroups T ls o :
  scanLines T ls o = scanGroups T (line_entries ls) o.
Proof.
  induction ls as [|p ls IH]; simpl; [done|]. fold (size p).
  rewrite IH. done.
Qed.









(** * Further properties of the storage *)

(** ** The catalog mutators, case by case *)

Lemma setFirst_None oldAmount newAmount ps :
  setFirst oldAmount newAmount ps = None ↔ oldAmount ∉ amounts ps.
Proof.
  induction ps as [|p ps IH]; simpl.
  - split; [intros _; apply not_elem_of_nil|done].
  - rewrite not_elem_of_cons. destruct (Z.eqb_spec (Amount p) oldAmount) as [Heq|Hne].
    + split; [done|]. intros [? _]. congruence.
    + destruct (setFirst oldAmount newAmount ps); simpl.
      * split; [done|]. intros [_ Hnin]. by apply IH in Hnin.
      * split; [|done]. intros _. split; [congruence|by apply IH].
Qed.

Lemma setFirst_first oldAmount newAmount ps ps' :
  setFirst oldAmount newAmount ps = Some ps' →
  ∃ l1 p l2, ps = l1 ++ p :: l2 ∧ Amount p = oldAmount ∧
             ps' = l1 ++ mkPack newAmount :: l2.
Proof.
  revert ps'. induction ps as [|p ps IH]; intros ps'; simpl; [done|].
  destruct (Z.eqb_spec (Amount p) oldAmount) as [Heq|Hne].
  - intros [= <-]. by exists [], p, ps.
  - destruct (setFirst oldAmount newAmount ps) as [l|]; simpl; [|done].
    intros [= <-]. destruct (IH l eq_refl) as (l1 & q & l2 & -> & Hq & ->).
    by exists (p :: l1), q, l2.
Qed.

Lemma removeFirst_None amount ps :
  removeFirst amount ps = None ↔ amount ∉ amounts ps.
Proof.
  induction ps as [|p ps IH]; simpl.
  - split; [intros _; apply not_elem_of_nil|done].
  - rewrite not_elem_of_cons. destruct (Z.eqb_spec (Amount p) amount) as [Heq|Hne].
    + split; [done|]. intros [? _]. congruence.
    + destruct (removeFirst amount ps); simpl.
      * split; [done|]. intros [_ Hnin]. by apply IH in Hnin.
      * split; [|done]. intros _. split; [congruence|by apply IH].
Qed.

Lemma removeFirst_first amount ps ps' :
  removeFirst amount ps = Some ps' →
  ∃ l1 p l2, ps = l1 ++ p :: l2 ∧ Amount p = amount ∧ ps' = l1 ++ l2.
Proof.
  revert ps'. induction ps as [|p ps IH]; intros ps'; simpl; [done|].
  destruct (Z.eqb_spec (Amount p) amount) as [Heq|Hne].
  - intros [= <-]. by exists [], p, ps.
  - destruct (removeFirst amount ps) as [l|]; simpl; [|done].
    intros [= <-]. destruct (IH l eq_refl) as (l1 & q & l2 & -> & Hq & ->).
    by exists (p :: l1), q, l2.
Qed.

Lemma filter_all {A} (P : A → Prop) `{∀ x, Decision (P x)} l :
  Forall P l → filter P l = l.
Proof.
  induction 1 as [|x l Hx _ IH]; [done|]. by rewrite filter_cons_True, IH.
Qed.

Lemma storage_eta s : mkPackStorage (packs s) (orders s) = s.
Proof. by destruct s. Qed.

Lemma sorted_desc_unique l1 l2 :
  StronglySorted desc l1 → StronglySorted desc l2 → l1 ≡ₚ l2 → l1 = l2.
Proof. apply (StronglySorted_unique desc). Qed.

Lemma desc_of_sdesc l : StronglySorted sdesc l → StronglySorted desc l.
Proof.
  induction 1 as [|p l _ IH Hp]; constructor; [done|].
  eapply Forall_impl; [done|]. unfold sdesc, desc. intros; simpl in *; lia.
Qed.

(** X1. [AddPack] is idempotent: a second [AddPack] of the same amount leaves
    the storage as the first left it, whatever the first returned; if the first
    returned no error, neither does the second, also when the catalog has
    become full in between. *)
Theorem AddPack_idempotent SoftLimit s amount :
  (AddPack SoftLimit (AddPack SoftLimit s amount).1 amount).1
  = (AddPack SoftLimit s amount).1 ∧
  ((AddPack SoftLimit s amount).2 = None →
   (AddPack SoftLimit (AddPack SoftLimit s amount).1 amount).2 = None).
Proof.
  destruct (AddPack SoftLimit s amount) as [s1 e1] eqn:H1. simpl.
  unfold AddPack in H1.
  destruct (hasAmount amount (packs s)) eqn:Hhas.
  { injection H1 as <- <-. unfold AddPack. by rewrite Hhas. }
  destruct (Z.leb_spec SoftLimit (Z.of_nat (length (packs s)))) as [Hfull|Hroom].
  { injection H1 as <- <-. unfold AddPack. rewrite Hhas.
    destruct (Z.leb_spec SoftLimit (Z.of_nat (length (packs s)))); [done|lia]. }
  injection H1 as <- <-. unfold AddPack. simpl.
  assert (hasAmount amount (sort_by (λ a b, b <? a) (packs s ++ [mkPack amount])) = true)
    as ->; [|done].
  apply hasAmount_spec. unfold amounts. rewrite sort_by_perm, fmap_app.
  apply elem_of_app. right. by left.
Qed.

Lemma AddPack_idempotent_witness :
  (AddPack 2 (mkPackStorage [mkPack 200] []) 100).2 = None ∧
  (AddPack 2 (AddPack 2 (mkPackStorage [mkPack 200] []) 100).1 100).2 = None.
Proof.
  split; [done|].
  apply (AddPack_idempotent 2 (mkPackStorage [mkPack 200] []) 100). done.
Defined.

(** X2. The only error of [AddPack] is [ErrSoftLimitReached]; it is returned
    exactly when the amount is new and the catalog already holds [SoftLimit]
    packs or more, and then the storage is unchanged.  An amount that is already
    in the catalog is accepted without error and without effect, full catalog
    or not. *)
Theorem AddPack_errors SoftLimit s amount :
  (snd (AddPack SoftLimit s amount) = Some ErrSoftLimitReached ↔
   (amount ∉ amounts (packs s)) ∧ SoftLimit ≤ Z.of_nat (length (packs s))) ∧
  (∀ e, (AddPack SoftLimit s amount).2 = Some e →
        e = ErrSoftLimitReached ∧ (AddPack SoftLimit s amount).1 = s) ∧
  (amount ∈ amounts (packs s) → AddPack SoftLimit s amount = (s, None)).
Proof.
  unfold AddPack. pose proof (hasAmount_spec amount (packs s)) as Hspec.
  destruct (hasAmount amount (packs s)); simpl.
  - split_and!; [|done|done]. split; [done|]. intros [Hnin _]. exfalso. by apply Hnin, Hspec.
  - assert (amount ∉ amounts (packs s)) as Hnin.
    { intros Hin. apply Hspec in Hin. done. }
    destruct (Z.leb_spec SoftLimit (Z.of_nat (length (packs s)))); simpl.
    + split_and!; [done| |done]. by intros e [= <-].
    + split_and!; [|done|done]. split; [done|]. intros [_ ?]. lia.
Qed.

Lemma AddPack_errors_witness :
  (AddPack 2 (catalog [200; 100]) 300).2 = Some ErrSoftLimitReached ∧
  (AddPack 2 (catalog [200; 100]) 300).1 = catalog [200; 100] ∧
  AddPack 2 (catalog [200; 100]) 100 = (catalog [200; 100], None).
Proof.
  destruct (AddPack_errors 2 (catalog [200; 100]) 300) as (H1 & H2 & _).
  destruct (AddPack_errors 2 (catalog [200; 100]) 100) as (_ & _ & H3).
  assert ((AddPack 2 (catalog [200; 100]) 300).2 = Some ErrSoftLimitReached) as He.
  { apply H1. split; [|simpl; lia].
    intros Hin. by repeat (apply elem_of_cons in Hin as [Hin|Hin]; [done|]);
      apply elem_of_nil in Hin. }
  split; [exact He|]. split; [exact (proj2 (H2 _ He))|].
  apply H3. do 1 right. by left.
Defined.

Lemma AddPack_new SoftLimit s amount :
  amount ∉ amounts (packs s) → Z.of_nat (length (packs s)) < SoftLimit →
  ∃ s', AddPack SoftLimit s amount = (s', None) ∧
        packs s' ≡ₚ mkPack amount :: packs s ∧
        StronglySorted desc (packs s') ∧
        orders s' = orders s.
Proof.
  intros Hnin Hroom. unfold AddPack.
  destruct (hasAmount amount (packs s)) eqn:Hhas.
  { exfalso. by apply Hnin, hasAmount_spec. }
  destruct (Z.leb_spec SoftLimit (Z.of_nat (length (packs s)))); [lia|].
  eexists. split; [done|]. simpl. split_and!; [|apply sort_desc_sorted|done].
  rewrite sort_by_perm. by rewrite Permutation_app_comm.
Qed.

(** X3. A new amount added below the soft limit is stored: the catalog afterwards
    holds exactly the old packs and the new one, in descending order, and the
    order history is untouched. *)
Theorem AddPack_adds SoftLimit s amount :
  amount ∉ amounts (packs s) → Z.of_nat (length (packs s)) < SoftLimit →
  ∃ s', AddPack SoftLimit s amount = (s', None) ∧
        packs s' ≡ₚ mkPack amount :: packs s ∧
        StronglySorted desc (packs s') ∧
        orders s' = orders s.
Proof. apply AddPack_new. Qed.

Lemma AddPack_adds_witness :
  ∃ s', AddPack 20 (catalog [500; 250]) 1000 = (s', None) ∧
        packs s' ≡ₚ mkPack 1000 :: packs (catalog [500; 250]) ∧
        StronglySorted desc (packs s') ∧
        orders s' = orders (catalog [500; 250]).
Proof.
  apply (AddPack_adds 20 (catalog [500; 250]) 1000).
  - intros Hin. by repeat (apply elem_of_cons in Hin as [Hin|Hin]; [done|]);
      apply elem_of_nil in Hin.
  - simpl. lia.
Defined.

(** X4. The errors of [UpdatePack], in the order the code checks them: a new
    amount that is already stored gives [ErrPackExists], also when the old
    amount is missing or equal to the new one; otherwise a missing old amount
    gives [ErrPackNotFound].  In both cases the storage is unchanged. *)
Theorem UpdatePack_errors s oldAmount newAmount :
  (newAmount ∈ amounts (packs s) →
   UpdatePack s oldAmount newAmount = (s, Some ErrPackExists)) ∧
  (newAmount ∉ amounts (packs s) → oldAmount ∉ amounts (packs s) →
   UpdatePack s oldAmount newAmount = (s, Some ErrPackNotFound)).
Proof.
  unfold UpdatePack. pose proof (hasAmount_spec newAmount (packs s)) as Hspec.
  split.
  - intros Hin. apply Hspec in Hin. by rewrite Hin.
  - intros Hnew Hold. destruct (hasAmount newAmount (packs s)).
    + exfalso. by apply Hnew, Hspec.
    + apply setFirst_None with (newAmount := newAmount) in Hold. by rewrite Hold.
Qed.

Lemma UpdatePack_errors_witness :
  UpdatePack (catalog [200; 150]) 150 200 = (catalog [200; 150], Some ErrPackExists) ∧
  UpdatePack (catalog [200; 150]) 150 150 = (catalog [200; 150], Some ErrPackExists) ∧
  UpdatePack (catalog [200; 150]) 300 250 = (catalog [200; 150], Some ErrPackNotFound).
Proof.
  assert (∀ x, x ∈ amounts (packs (catalog [200; 150])) ↔ x = 200 ∨ x = 150) as Hin.
  { intros x. simpl. rewrite !elem_of_cons, elem_of_nil. tauto. }
  split_and!.
  - apply (UpdatePack_errors (catalog [200; 150]) 150 200), Hin. by left.
  - apply (UpdatePack_errors (catalog [200; 150]) 150 150), Hin. by right.
  - apply (UpdatePack_errors (catalog [200; 150]) 300 250); rewrite Hin; lia.
Defined.

(** X5. A successful [UpdatePack]: when the old amount is stored and the new one
    is not, the catalog afterwards holds the new amount instead of the old one
    and all other amounts as before, as many packs as before, in descending
    order; the order history is untouched. *)
Theorem UpdatePack_replaces s oldAmount newAmount :
  NoDup (amounts (packs s)) →
  oldAmount ∈ amounts (packs s) → newAmount ∉ amounts (packs s) →
  ∃ s', UpdatePack s oldAmount newAmount = (s', None) ∧
        (∀ a, a ∈ amounts (packs s') ↔
              a = newAmount ∨ (a ∈ amounts (packs s) ∧ a ≠ oldAmount)) ∧
        length (packs s') = length (packs s) ∧
        StronglySorted desc (packs s') ∧
        orders s' = orders s.
Proof.
  intros Hnd Hold Hnew. unfold UpdatePack.
  destruct (hasAmount newAmount (packs s)) eqn:Hhas.
  { exfalso. by apply Hnew, hasAmount_spec. }
  destruct (setFirst oldAmount newAmount (packs s)) as [ps'|] eqn:Hset.
  2:{ exfalso. by apply (setFirst_None oldAmount newAmount) in Hset. }
  apply setFirst_first in Hset as (l1 & p & l2 & Hps & Hp & ->).
  eexists. split; [done|]. simpl.
  rewrite Hps in Hnd |- *. unfold amounts in *.
  rewrite fmap_app, fmap_cons, Hp in Hnd.
  apply NoDup_app in Hnd as (Hnd1 & Hdisj & Hnd2).
  apply NoDup_cons in Hnd2 as [Hp2 _].
  split_and!; [|by rewrite sort_by_length, !length_app|apply sort_desc_sorted|done].
  intros a. rewrite sort_by_perm, !fmap_app, !fmap_cons, Hp. simpl.
  rewrite !elem_of_app, !elem_of_cons. split.
  - intros [H1|[->|H2]]; [right|by left|right].
    + split; [by left|]. intros ->. apply (Hdisj oldAmount H1). by left.
    + split; [by right; right|]. by intros ->.
  - intros [->|[[H1|[->|H2]] Hne]]; [by right; left|by left|done|by right; right].
Qed.

Lemma UpdatePack_replaces_witness :
  ∃ s', UpdatePack (catalog [500; 250]) 250 1000 = (s', None) ∧
        (∀ a, a ∈ amounts (packs s') ↔
              a = 1000 ∨ (a ∈ amounts (packs (catalog [500; 250])) ∧ a ≠ 250)) ∧
        length (packs s') = length (packs (catalog [500; 250])) ∧
        StronglySorted desc (packs s') ∧
        orders s' = orders (catalog [500; 250]).
Proof.
  assert (∀ x, x ∈ amounts (packs (catalog [500; 250])) ↔ x = 500 ∨ x = 250) as Hin.
  { intros x. simpl. rewrite !elem_of_cons, elem_of_nil. tauto. }
  apply (UpdatePack_replaces (catalog [500; 250]) 250 1000).
  - simpl. repeat (constructor; [rewrite ?elem_of_cons, elem_of_nil; lia|]). constructor.
  - apply Hin. by right.
  - rewrite Hin. lia.
Defined.

(** X6. [DeletePack] returns [ErrPackNotFound] and changes nothing when the
    amount is not stored.  When it is, the pack is removed: the amount is gone,
    every other pack stays, in the order it had, and the order history is
    untouched. *)
Theorem DeletePack_removes s amount :
  (amount ∉ amounts (packs s) → DeletePack s amount = (s, Some ErrPackNotFound)) ∧
  (NoDup (amounts (packs s)) → amount ∈ amounts (packs s) →
   DeletePack s amount
   = (mkPackStorage (filter (λ p, Amount p ≠ amount) (packs s)) (orders s), None)).
Proof.
  unfold DeletePack. split.
  - intros Hnin. apply removeFirst_None in Hnin. by rewrite Hnin.
  - intros Hnd Hin.
    destruct (removeFirst amount (packs s)) as [ps'|] eqn:Hrm.
    2:{ exfalso. by apply removeFirst_None in Hrm. }
    apply removeFirst_first in Hrm as (l1 & p & l2 & Hps & Hp & ->).
    rewrite Hps in Hnd |- *. unfold amounts in Hnd.
    rewrite fmap_app, fmap_cons, Hp in Hnd.
    apply NoDup_app in Hnd as (_ & Hdisj & Hnd2).
    apply NoDup_cons in Hnd2 as [Hp2 _].
    rewrite filter_app, filter_cons_False by (intros ?; done).
    rewrite !filter_all; [done| |]; apply Forall_forall; intros q Hq Heq.
    + apply Hp2. apply list_elem_of_fmap. eauto.
    + apply (Hdisj amount); [|by left]. apply list_elem_of_fmap. eauto.
Qed.

Lemma DeletePack_removes_witness :
  DeletePack (catalog [500; 250]) 300 = (catalog [500; 250], Some ErrPackNotFound) ∧
  DeletePack (catalog [500; 250]) 500
  = (mkPackStorage (filter (λ p, Amount p ≠ 500) (packs (catalog [500; 250])))
                   (orders (catalog [500; 250])), None).
Proof.
  assert (∀ x, x ∈ amounts (packs (catalog [500; 250])) ↔ x = 500 ∨ x = 250) as Hin.
  { intros x. simpl. rewrite !elem_of_cons, elem_of_nil. tauto. }
  split.
  - apply (DeletePack_removes (catalog [500; 250]) 300). rewrite Hin. lia.
  - apply (DeletePack_removes (catalog [500; 250]) 500).
    + simpl. repeat (constructor; [rewrite ?elem_of_cons, elem_of_nil; lia|]). constructor.
    + apply Hin. by left.
Defined.

(** ** Round trips of the mutators *)

Lemma Permutation_middle_inv {A} (x : A) l1 l2 k1 k2 :
  l1 ++ x :: l2 ≡ₚ k1 ++ x :: k2 → l1 ++ l2 ≡ₚ k1 ++ k2.
Proof.
  rewrite <- !Permutation_middle. apply Permutation_cons_inv.
Qed.

(** X7. Adding a new amount and deleting it again gives back the storage: on a
    catalog in descending order with room for one more pack,
    [DeletePack] after [AddPack] of an amount that was not stored returns no
    error and the storage as it was. *)
Theorem AddPack_DeletePack SoftLimit s amount :
  StronglySorted desc (packs s) →
  amount ∉ amounts (packs s) → Z.of_nat (length (packs s)) < SoftLimit →
  DeletePack (AddPack SoftLimit s amount).1 amount = (s, None).
Proof.
  intros Hsorted Hnin Hroom.
  destruct (AddPack_new SoftLimit s amount Hnin Hroom) as (s1 & -> & Hperm & Hs1 & Ho).
  simpl. unfold DeletePack.
  destruct (removeFirst amount (packs s1)) as [ps'|] eqn:Hrm.
  2:{ exfalso. apply removeFirst_None in Hrm. apply Hrm. unfold amounts.
      rewrite Hperm. by left. }
  apply removeFirst_first in Hrm as (l1 & p & l2 & Hps & Hp & ->).
  assert (p = mkPack amount) as -> by (by apply Pack_eq).
  rewrite Hps in Hperm, Hs1.
  assert (l1 ++ l2 = packs s) as ->.
  { apply sorted_desc_unique; [by eapply StronglySorted_remove_middle|done|].
    apply (Permutation_middle_inv (mkPack amount) l1 l2 [] (packs s)). done. }
  by rewrite Ho, storage_eta.
Qed.

Lemma AddPack_DeletePack_witness :
  DeletePack (AddPack 20 (catalog [500; 250]) 300).1 300 = (catalog [500; 250], None).
Proof.
  apply (AddPack_DeletePack 20 (catalog [500; 250]) 300).
  - repeat constructor; by vm_compute.
  - simpl. rewrite !elem_of_cons, elem_of_nil. lia.
  - simpl. lia.
Defined.

(** X8. Updating an amount and updating it back gives back the storage: on a
    catalog of distinct amounts in descending order, [UpdatePack old new]
    followed by [UpdatePack new old] returns no error and the storage as it
    was. *)
Theorem UpdatePack_back s oldAmount newAmount :
  StronglySorted desc (packs s) → NoDup (amounts (packs s)) →
  oldAmount ∈ amounts (packs s) → newAmount ∉ amounts (packs s) →
  UpdatePack (UpdatePack s oldAmount newAmount).1 newAmount oldAmount = (s, None).
Proof.
  intros Hsorted Hnd Hold Hnew.
  assert (oldAmount ≠ newAmount) as Hne by (intros ->; done).
  unfold UpdatePack at 2.
  destruct (hasAmount newAmount (packs s)) eqn:Hhas.
  { exfalso. by apply Hnew, hasAmount_spec. }
  destruct (setFirst oldAmount newAmount (packs s)) as [ps1|] eqn:Hset.
  2:{ exfalso. by apply (setFirst_None oldAmount newAmount) in Hset. }
  apply setFirst_first in Hset as (l1 & p & l2 & Hps & Hp & ->).
  assert (p = mkPack oldAmount) as -> by (by apply Pack_eq).
  simpl. unfold UpdatePack. simpl.
  set (ps1 := sort_by (λ a b, b <? a) (l1 ++ mkPack newAmount :: l2)).
  assert (ps1 ≡ₚ l1 ++ mkPack newAmount :: l2) as Hperm1 by apply sort_by_perm.
  assert (oldAmount ∉ amounts ps1) as Hold1.
  { unfold amounts. rewrite Hperm1, fmap_app, fmap_cons. simpl.
    rewrite Hps in Hnd. unfold amounts in Hnd. rewrite fmap_app, fmap_cons in Hnd.
    apply NoDup_app in Hnd as (_ & Hdisj & Hnd2).
    apply NoDup_cons in Hnd2 as [Hp2 _]. simpl in *.
    rewrite elem_of_app, elem_of_cons. intros [H1|[?|H2]]; [|done|done].
    apply (Hdisj oldAmount H1). by left. }
  destruct (hasAmount oldAmount ps1) eqn:Hhas1.
  { exfalso. by apply Hold1, hasAmount_spec. }
  destruct (setFirst newAmount oldAmount ps1) as [ps2|] eqn:Hset1.
  2:{ exfalso. apply setFirst_None in Hset1. apply Hset1. unfold amounts.
      rewrite Hperm1, fmap_app, fmap_cons. apply elem_of_app. right. by left. }
  apply setFirst_first in Hset1 as (m1 & q & m2 & Hps1 & Hq & ->).
  assert (q = mkPack newAmount) as -> by (by apply Pack_eq).
  unfold resortPacks. simpl.
  assert (sort_by (λ a b, b <? a) (m1 ++ mkPack oldAmount :: m2) = packs s) as ->.
  { symmetry. apply sort_by_unique; [|done].
    rewrite Hps. rewrite Hps1 in Hperm1.
    apply Permutation_middle_inv in Hperm1.
    by rewrite <- !Permutation_middle, Hperm1. }
  by rewrite storage_eta.
Qed.

Lemma UpdatePack_back_witness :
  UpdatePack (UpdatePack (catalog [500; 250]) 250 1000).1 1000 250
  = (catalog [500; 250], None).
Proof.
  apply (UpdatePack_back (catalog [500; 250]) 250 1000).
  - repeat constructor; by vm_compute.
  - simpl. repeat (constructor; [rewrite ?elem_of_cons, elem_of_nil; lia|]). constructor.
  - simpl. rewrite !elem_of_cons, elem_of_nil. lia.
  - simpl. rewrite !elem_of_cons, elem_of_nil. lia.
Defined.

(** ** What every call of CalculateOrder does *)

Lemma same_totals_refl o : same_totals o o.
Proof. done. Qed.

Lemma same_totals_trans o1 o2 o3 :
  same_totals o1 o2 → same_totals o2 o3 → same_totals o1 o3.
Proof. unfold same_totals. intros (? & ? & ?) (? & ? & ?). split_and!; congruence. Qed.

Lemma scanGroups_totals T entries o o' :
  scanGroups T entries o = Done (Some o') → same_totals o o'.
Proof.
  induction entries as [|[s c] entries IH]; simpl; [done|].
  destruct (T <=? s); [done|].
  unfold int_rem, int_quo. destruct (decide (s = 0)); [done|]. osimpl.
  destruct (_ =? 0); [|done]. osimpl.
  destruct (_ <=? c); [|done]. osimpl. by intros [= <-].
Qed.

Lemma scanLines_totals T ls o o' :
  scanLines T ls o = Done (Some o') → same_totals o o'.
Proof. rewrite scanLines_scanGroups. apply scanGroups_totals. Qed.

Lemma tryMergeSame_from_totals j (rng : nat → MapRange) groups avail o b o' :
  tryMergeSameSizePacks_from j rng groups avail o = Done (b, o') → same_totals o o'.
Proof.
  revert j. induction avail as [|p avail IH]; intros j; simpl.
  - by intros [= _ <-].
  - intros (found & Hscan & Hrest)%bind_Done_inv.
    destruct found as [o1|].
    + injection Hrest as _ <-. by eapply scanGroups_totals.
    + by eapply IH.
Qed.

Lemma tryMergeDifferent_totals avail o o' :
  tryMergeDifferentSizePacks avail o = Done o' → same_totals o o'.
Proof.
  induction avail as [|p avail IH]; simpl.
  - by intros [= <-].
  - intros (found & Hscan & Hrest)%bind_Done_inv.
    destruct found as [o1|].
    + injection Hrest as <-. by eapply scanLines_totals.
    + by apply IH.
Qed.

Lemma mergePacks_loop_totals n i (r : nat → nat → MapRange) avail o o' :
  mergePacks_loop n i r avail o = Done o' → same_totals o o'.
Proof.
  revert i o. induction n as [|n IH]; intros i o; simpl.
  - by intros [= <-].
  - intros (o1 & Hbody & Hrest)%bind_Done_inv.
    apply same_totals_trans with o1; [|by eapply IH].
    unfold mergePacks_body in Hbody.
    apply bind_Done_inv in Hbody as ([b o2] & Hsame & Hdiff).
    unfold tryMergeSameSizePacks in Hsame.
    apply tryMergeSame_from_totals in Hsame.
    destruct b.
    + by injection Hdiff as <-.
    + apply same_totals_trans with o2; [done|]. by eapply tryMergeDifferent_totals.
Qed.

(** X9. Consolidation touches the lines only: whenever [mergePacks] returns, on
    any catalog and any order, the order it returns has the [RequestedItems],
    [OverpackedItems] and [TotalItems] it was given. *)
Theorem mergePacks_totals (r : nat → nat → MapRange) ps o o' :
  mergePacks r ps o = Done o' → same_totals o o'.
Proof. apply mergePacks_loop_totals. Qed.

Lemma mergePacks_totals_witness :
  mergePacks range_default (mkPack <$> [500; 250])
             (mkOrder 1000 0 1000 [line 3 250; line 1 250])
  = Done (mkOrder 1000 0 1000 [line 1 250; line 1 500]) ∧
  same_totals (mkOrder 1000 0 1000 [line 3 250; line 1 250])
              (mkOrder 1000 0 1000 [line 1 250; line 1 500]).
Proof.
  assert (mergePacks range_default (mkPack <$> [500; 250])
            (mkOrder 1000 0 1000 [line 3 250; line 1 250])
          = Done (mkOrder 1000 0 1000 [line 1 250; line 1 500])) as Hrun
    by (by vm_compute).
  split; [exact Hrun|]. exact (mergePacks_totals _ _ _ _ Hrun).
Defined.

(** X10. What a call of [CalculateOrder] that returns has done, on any storage
    and for any request.  Either the catalog was empty: then the error is
    [ErrNoPacksAvailable], the order is the zero order and the storage is
    unchanged.  Or it was not: then there is no error, the catalog holds the
    same packs, in descending order, the order carries the request,
    [OverpackedItems] is [TotalItems - RequestedItems], and the order is the
    last entry of the history. *)
Theorem CalculateOrder_returns SoftLimit (r : nat → nat → MapRange) s R s' order err :
  CalculateOrder SoftLimit r s R = Done (s', order, err) →
  (packs s = [] ∧ s' = s ∧ order = zero_Order ∧ err = Some ErrNoPacksAvailable) ∨
  (packs s ≠ [] ∧ err = None ∧
   packs s' ≡ₚ packs s ∧ StronglySorted desc (packs s') ∧
   RequestedItems order = R ∧
   OverpackedItems order = int_sub (TotalItems order) R ∧
   last (orders s') = Some order).
Proof.
  unfold CalculateOrder. destruct (decide (length (packs s) = 0%nat)) as [Hlen|Hlen].
  - intros [= <- <- <-]. left. by destruct (packs s).
  - cbn zeta. intros H. right. split; [intros Hnil; by rewrite Hnil in Hlen|].
    apply bind_Done_inv in H as ([rem o1] & Hgreedy & H).
    apply bind_Done_inv in H as (o2 & Hres & H).
    apply bind_Done_inv in H as (o3 & Hmerge & H).
    apply bind_Done_inv in H as (history & Happ & H).
    injection H as <- <- <-. simpl.
    apply mergePacks_loop_totals in Hmerge as (HR & HO & HT). simpl in *.
    assert (RequestedItems o2 = R) as HR2.
    { assert (RequestedItems o1 = R) as HR1.
      { unfold useFullPacks in Hgreedy. simpl in Hgreedy. revert Hgreedy.
        generalize (getPacks (resortPacks s)).
        assert (∀ l st st', useFullPacks_loop l st = Done st' →
                            RequestedItems st'.2 = RequestedItems st.2) as Hloop.
        { induction l as [|p l IH]; intros [r0 o0] st'; simpl.
          - by intros [= <-].
          - intros (st1 & Hbody & Hrest)%bind_Done_inv.
            rewrite (IH _ _ Hrest). clear Hrest.
            destruct (Amount p <=? r0); [|by injection Hbody as <-].
            apply bind_Done_inv in Hbody as (q & _ & Hbody).
            destruct (0 <? q); by injection Hbody as <-. }
        intros l Hl. by apply Hloop in Hl. }
      unfold addPackForRemainingItems in Hres.
      destruct (rem <=? 0); [by injection Hres as <-|].
      destruct (last _); [|done]. by injection Hres as <-. }
    split_and!; [done| |apply sort_desc_sorted|congruence|by rewrite HO, HT|].
    + apply sort_by_perm.
    + unfold appendOrder in Happ.
      apply bind_Done_inv in Happ as (kept & _ & [= <-]).
      by rewrite last_snoc.
Qed.

Lemma CalculateOrder_returns_witness :
  ∃ s' order,
    CalculateOrder 20 range_default main_storage 1001 = Done (s', order, None) ∧
    packs s' ≡ₚ packs main_storage ∧ RequestedItems order = 1001 ∧
    last (orders s') = Some order.
Proof.
  destruct (CalculateOrder 20 range_default main_storage 1001)
    as [[[s' order] err]|] eqn:Hrun; [|by vm_compute in Hrun].
  destruct (CalculateOrder_returns 20 range_default main_storage 1001 s' order err Hrun)
    as [(Hnil & _)|(_ & -> & Hp & _ & HR & _ & Hl)]; [by vm_compute in Hnil|].
  by exists s', order.
Defined.

(** ** The calculated order *)

Lemma greedy_fill_divides d r l :
  Forall (λ s, 0 < s ∧ (d | s)) l → 0 ≤ r → (d | r) → (d | (greedy_fill r l).1).
Proof.
  intros Hl. revert r. induction Hl as [|s l [Hs Hd] _ IH]; intros r Hr Hdr; simpl; [done|].
  pose proof (div_mul_bounds r s Hr Hs) as Hdiv.
  destruct (decide _) as [[Hle Hq]|Hn]; [|by apply IH].
  specialize (IH (r - r `div` s * s) ltac:(lia)).
  destruct (greedy_fill _ l) as [r' ls]. simpl in *. apply IH.
  apply Z.divide_sub_r; [done|]. by apply Z.divide_mul_r.
Qed.

Lemma greedy_fill_nothing r l :
  Forall (λ s, r < s) l → greedy_fill r l = (r, []).
Proof.
  induction 1 as [|s l Hs _ IH]; simpl; [done|].
  rewrite decide_False by lia. done.
Qed.

(** X11. No overpack on multiples: if one pack size of the catalog divides all
    the others and the request, the order covers the request exactly,
    [TotalItems = RequestedItems] and [OverpackedItems = 0], and its lines add
    up to the request. *)
Theorem CalculateOrder_exact SoftLimit (r : nat → nat → MapRange) s R d :
  storage_ok s → 0 < SoftLimit ≤ max_int → (∀ i j, valid_range (r i j)) →
  0 < R ≤ max_int →
  d ∈ packs s → (∀ p, p ∈ packs s → (Amount d | Amount p)) → (Amount d | R) →
  ∃ s' order,
    CalculateOrder SoftLimit r s R = Done (s', order, None) ∧
    TotalItems order = R ∧ OverpackedItems order = 0 ∧ items (Packs order) = R.
Proof.
  intros Hs HL Hr HR Hd Hall HdR. pose proof Hs as (Hne & Hps & _).
  eexists _, _. split; [by apply CalculateOrder_run|].
  destruct (sorted_last_Some (packs s) Hne) as [smallest Hlast].
  pose proof (calculated_remaining (packs s) R Hps HR smallest Hlast) as Hrem.
  pose proof (valid_packs_sorted (λ a b, b <? a) (packs s) Hps) as Hsv.
  pose proof (valid_packs_amounts _ Hsv) as Hpos.
  pose proof (greedy_fill_items R _ Hpos ltac:(lia)) as Hitems.
  destruct (smallest_least (packs s) smallest Hlast) as [Hin Hleast].
  assert ((greedy_fill R (amounts (sort_by (λ a b, b <? a) (packs s)))).1 = 0) as Hzero.
  { assert (Amount d | (greedy_fill R (amounts (sort_by (λ a b, b <? a) (packs s)))).1)
      as [k Hk].
    { apply greedy_fill_divides; [|lia|done].
      unfold amounts. rewrite Forall_fmap. apply Forall_forall. intros p Hp. simpl.
      split; [by apply (proj1 (Forall_forall _ _) Hsv) in Hp as [? _]|].
      apply Hall. by rewrite sort_by_perm in Hp. }
    specialize (Hleast d Hd).
    assert (0 < Amount d) by (by apply (proj1 (Forall_forall _ _) Hps) in Hd as [? _]).
    rewrite Hk in Hrem |- *.
    assert (k = 0) as ->; [|lia].
    destruct (decide (k ≤ 0)); [|nia].
    destruct (decide (k = 0)); [done|nia]. }
  pose proof (calculated_overpacked (packs s) R Hps HR smallest Hlast) as Hover.
  pose proof (calculated_items (packs s) R Hps HR smallest Hlast) as Hlines.
  cbn zeta in Hover. unfold residual in Hlines.
  rewrite Hzero in Hover, Hlines, Hitems. rewrite decide_False in Hover by lia.
  rewrite decide_False, app_nil_r in Hlines by lia.
  split_and!; [|done|lia].
  unfold calculated. rewrite Hlast. simpl. rewrite Hzero. simpl.
  rewrite wrap_in_range; [lia|]. pose proof min_int_neg. unfold in_range. lia.
Qed.

Lemma CalculateOrder_exact_witness :
  ∃ s' order,
    CalculateOrder 20 range_default main_storage 7750 = Done (s', order, None) ∧
    TotalItems order = 7750 ∧ OverpackedItems order = 0 ∧ items (Packs order) = 7750.
Proof.
  apply (CalculateOrder_exact 20 range_default main_storage 7750 (mkPack 250)).
  - split_and!; [done|repeat constructor; by vm_compute|by vm_compute].
  - by vm_compute.
  - intros i j m. done.
  - by vm_compute.
  - vm_compute. do 4 right. by left.
  - intros p Hp. vm_compute in Hp.
    repeat (apply elem_of_cons in Hp as [->|Hp]; [by apply Z.mod_divide|]).
    by apply elem_of_nil in Hp.
  - by apply Z.mod_divide.
Defined.

(** X12. A request below every pack size is served by one pack of the smallest
    size: the order has the single line [1 x smallest], [TotalItems] is the
    smallest size and [OverpackedItems] what it exceeds the request by. *)
Theorem CalculateOrder_small SoftLimit (r : nat → nat → MapRange) s R :
  storage_ok s → 0 < SoftLimit ≤ max_int → (∀ i j, valid_range (r i j)) →
  0 < R → (∀ p, p ∈ packs s → R < Amount p) →
  ∃ s' smallest,
    smallest ∈ packs s ∧ (∀ p, p ∈ packs s → Amount smallest ≤ Amount p) ∧
    CalculateOrder SoftLimit r s R
    = Done (s', mkOrder R (Amount smallest - R) (Amount smallest)
                        [mkOrderPack 1 smallest], None).
Proof.
  intros Hs HL Hr HR Hall. pose proof Hs as (Hne & Hps & _).
  destruct (sorted_last_Some (packs s) Hne) as [smallest Hlast].
  destruct (smallest_least (packs s) smallest Hlast) as [Hin Hleast].
  pose proof (Hall smallest Hin) as Hlt.
  assert (0 < Amount smallest ≤ max_int) as Hsm.
  { by apply (proj1 (Forall_forall _ _) Hps) in Hin. }
  eexists _, smallest. split; [done|]. split; [done|].
  rewrite CalculateOrder_run; [|done|lia|done|done].
  do 2 f_equal. f_equal. unfold calculated. rewrite Hlast. simpl.
  rewrite greedy_fill_nothing.
  2:{ unfold amounts. rewrite Forall_fmap. apply Forall_forall. intros p Hp. simpl.
      apply Hall. by rewrite sort_by_perm in Hp. }
  simpl. unfold residual. rewrite !decide_True by lia. simpl.
  pose proof min_int_neg. rewrite Z.add_0_l.
  rewrite (wrap_in_range (Amount smallest)) by (unfold in_range; lia).
  rewrite wrap_in_range by (unfold in_range; lia).
  f_equal. rewrite consolidate_stable; [by rewrite line_of_pack|].
  unfold mergeable. simpl. unfold size. simpl. rewrite decide_True by done. lia.
Qed.

Lemma CalculateOrder_small_witness :
  ∃ s' smallest,
    smallest ∈ packs main_storage ∧
    (∀ p, p ∈ packs main_storage → Amount smallest ≤ Amount p) ∧
    CalculateOrder 20 range_default main_storage 100
    = Done (s', mkOrder 100 (Amount smallest - 100) (Amount smallest)
                        [mkOrderPack 1 smallest], None).
Proof.
  apply (CalculateOrder_small 20 range_default main_storage 100).
  - split_and!; [done|repeat constructor; by vm_compute|by vm_compute].
  - by vm_compute.
  - intros i j m. done.
  - lia.
  - intros p Hp. vm_compute in Hp.
    repeat (apply elem_of_cons in Hp as [->|Hp]; [simpl; lia|]).
    by apply elem_of_nil in Hp.
Defined.

(** X13. The order uses packs of the catalog only, and no line is empty: every
    line of the returned order has a pack of the catalog and a positive
    quantity. *)
Theorem CalculateOrder_lines_wellformed SoftLimit (r : nat → nat → MapRange) s R :
  storage_ok s → 0 < SoftLimit ≤ max_int → (∀ i j, valid_range (r i j)) →
  0 < R ≤ max_int →
  ∃ s' order,
    CalculateOrder SoftLimit r s R = Done (s', order, None) ∧
    Forall (λ l, 0 < Quantity l ≤ max_int ∧ Pack_ l ∈ packs s) (Packs order).
Proof.
  intros Hs HL Hr HR. pose proof Hs as (Hne & Hps & _).
  eexists _, _. split; [by apply CalculateOrder_run|].
  destruct (calculated_stable (packs s) R Hne Hps HR) as (C & Hinv & _).
  pose proof (valid_packs_sorted (λ a b, b <? a) (packs s) Hps) as Hsv.
  pose proof (valid_packs_cat _ Hsv) as Hcat.
  pose proof (minv_positive _ _ _ Hinv) as Hposl.
  pose proof Hinv as (Hls & _).
  apply Forall_forall. intros l Hl.
  apply (proj1 (Forall_forall _ _) Hls) in Hl as Hl'. destruct Hl' as [Hq Hsize].
  split_and!; [done| |].
  - pose proof (cnt_line_le l _ Hposl Hl).
    pose proof (minv_cnt_max _ Hcat C _ (size l) Hinv). lia.
  - apply list_elem_of_fmap in Hsize as (p & Heq & Hp).
    rewrite sort_by_perm in Hp. by rewrite (Pack_eq (Pack_ l) p).
Qed.

Lemma CalculateOrder_lines_wellformed_witness :
  ∃ s' order,
    CalculateOrder 20 range_default main_storage 1251 = Done (s', order, None) ∧
    Forall (λ l, 0 < Quantity l ≤ max_int ∧ Pack_ l ∈ packs main_storage) (Packs order).
Proof.
  apply (CalculateOrder_lines_wellformed 20 range_default main_storage 1251).
  - split_and!; [done|repeat constructor; by vm_compute|by vm_compute].
  - by vm_compute.
  - intros i j m. done.
  - by vm_compute.
Defined.

(** X14. The lines add up to the total: as long as the request plus the
    smallest pack size fits an [int], the sum of quantity x size over the lines
    of the returned order is its [TotalItems]. *)
Theorem CalculateOrder_adds_up SoftLimit (r : nat → nat → MapRange) s R p :
  storage_ok s → 0 < SoftLimit ≤ max_int → (∀ i j, valid_range (r i j)) →
  0 < R → p ∈ packs s → R + Amount p ≤ max_int →
  ∃ s' order,
    CalculateOrder SoftLimit r s R = Done (s', order, None) ∧
    items (Packs order) = TotalItems order.
Proof.
  intros Hs HL Hr HR Hp Hbound. pose proof Hs as (Hne & Hps & _).
  assert (0 < Amount p) as Hppos.
  { by apply (proj1 (Forall_forall _ _) Hps) in Hp as [? _]. }
  assert (0 < R ≤ max_int) as HR' by lia.
  eexists _, _. split; [by apply CalculateOrder_run|].
  destruct (sorted_last_Some (packs s) Hne) as [smallest Hlast].
  destruct (smallest_least (packs s) smallest Hlast) as [_ Hleast].
  specialize (Hleast p Hp).
  pose proof (valid_packs_sorted (λ a b, b <? a) (packs s) Hps) as Hsv.
  pose proof (valid_packs_amounts _ Hsv) as Hpos.
  pose proof (greedy_fill_items R _ Hpos ltac:(lia)) as Hitems.
  rewrite (calculated_items (packs s) R Hps HR' smallest Hlast).
  rewrite (calculated_total (packs s) R Hps HR' smallest Hlast) by lia.
  pose proof (calculated_remaining (packs s) R Hps HR' smallest Hlast) as Hrem.
  cbn zeta. rewrite items_app. unfold residual.
  destruct (decide _).
  - change (items [line 1 (Amount smallest)]) with (1 * Amount smallest + 0). lia.
  - change (items []) with 0. lia.
Qed.

Lemma CalculateOrder_adds_up_witness :
  ∃ s' order,
    CalculateOrder 20 range_default main_storage 1251 = Done (s', order, None) ∧
    items (Packs order) = TotalItems order.
Proof.
  apply (CalculateOrder_adds_up 20 range_default main_storage 1251 (mkPack 250)).
  - split_and!; [done|repeat constructor; by vm_compute|by vm_compute].
  - by vm_compute.
  - intros i j m. done.
  - lia.
  - vm_compute. do 4 right. by left.
  - by vm_compute.
Defined.

(** ** The history, call by call *)

Lemma CalculateOrder_append SoftLimit (r : nat → nat → MapRange) s R :
  storage_ok s → 0 < R ≤ max_int → (∀ i j, valid_range (r i j)) →
  CalculateOrder SoftLimit r s R =
    (history ← appendOrder SoftLimit (orders s) (calculated (packs s) R);
     mret (mkPackStorage (sort_by (λ a b, b <? a) (packs s)) history,
           calculated (packs s) R, None)).
Proof.
  intros Hs HR Hr.
  pose proof (CalculateOrder_run 1 r s R Hs HR) as H1.
  pose proof max_int_pos.
  specialize (H1 ltac:(lia) Hr).
  destruct Hs as (Hne & _).
  unfold CalculateOrder in *. rewrite decide_False in * by (by destruct (packs s)).
  cbn zeta in *.
  apply bind_Done_inv in H1 as ([rem o1] & -> & H1). osimpl.
  apply bind_Done_inv in H1 as (o2 & -> & H1). osimpl.
  apply bind_Done_inv in H1 as (o3 & -> & H1). osimpl.
  apply bind_Done_inv in H1 as (h & _ & [= _ ->]). done.
Qed.

(** X15. How one call changes the history.  Below the soft limit the returned
    order is appended.  At the soft limit or above it (the limit may have been
    lowered since), only the latest [SoftLimit - 1] entries are kept before the
    order is appended, so that the history then holds exactly [SoftLimit]
    orders. *)
Theorem CalculateOrder_history SoftLimit (r : nat → nat → MapRange) s R :
  storage_ok s → 0 < SoftLimit ≤ max_int → (∀ i j, valid_range (r i j)) →
  0 < R ≤ max_int →
  ∃ s' order,
    CalculateOrder SoftLimit r s R = Done (s', order, None) ∧
    orders s' =
      (if decide (SoftLimit ≤ Z.of_nat (length (orders s)))
       then keep (Z.to_nat (SoftLimit - 1)) (orders s)
       else orders s) ++ [order] ∧
    Z.of_nat (length (orders s')) = Z.min (Z.of_nat (length (orders s)) + 1) SoftLimit.
Proof.
  intros Hs HL Hr HR.
  eexists _, _. split; [by apply CalculateOrder_run|]. simpl.
  unfold retained, keep.
  destruct (Z.leb_spec SoftLimit (Z.of_nat (length (orders s)))) as [Hle|Hgt].
  - rewrite decide_True by done.
    replace (length (orders s) - Z.to_nat (SoftLimit - 1))%nat
      with (Z.to_nat (Z.of_nat (length (orders s)) - (SoftLimit - 1))) by lia.
    split; [done|]. rewrite length_app, length_drop. simpl. lia.
  - rewrite decide_False by lia. split; [done|].
    rewrite length_app. simpl. lia.
Qed.

Lemma CalculateOrder_history_witness :
  ∃ s' order,
    CalculateOrder 2 range_default
      (mkPackStorage [mkPack 250] [zero_Order; zero_Order; zero_Order]) 100
    = Done (s', order, None) ∧
    orders s' =
      (if decide (2 ≤ Z.of_nat (length [zero_Order; zero_Order; zero_Order]))
       then keep (Z.to_nat (2 - 1)) [zero_Order; zero_Order; zero_Order]
       else [zero_Order; zero_Order; zero_Order]) ++ [order] ∧
    Z.of_nat (length (orders s'))
    = Z.min (Z.of_nat (length [zero_Order; zero_Order; zero_Order]) + 1) 2.
Proof.
  apply (CalculateOrder_history 2 range_default
           (mkPackStorage [mkPack 250] [zero_Order; zero_Order; zero_Order]) 100).
  - split_and!; [done|repeat constructor; by vm_compute|by vm_compute].
  - by vm_compute.
  - intros i j m. done.
  - by vm_compute.
Defined.

(** X16. The history is bounded and holds the latest orders: from a history of
    at most [SoftLimit] entries, any number of calls leaves the latest
    [SoftLimit] entries of the old history followed by the returned orders, in
    that order. *)
Theorem history_latest SoftLimit (r : nat → nat → nat → MapRange) s requests :
  0 < SoftLimit ≤ max_int → storage_ok s →
  Z.of_nat (length (orders s)) ≤ SoftLimit →
  (∀ k i j, valid_range (r k i j)) →
  Forall (λ R, 0 < R ≤ max_int) requests →
  ∃ s' results,
    CalculateOrders SoftLimit r 0 s requests = Done (s', results) ∧
    orders s' = keep (Z.to_nat SoftLimit) (orders s ++ results.*1) ∧
    Z.of_nat (length (orders s')) ≤ SoftLimit.
Proof.
  intros HL Hs Hlen Hr Hreqs.
  destruct (CalculateOrders_history SoftLimit r 0 s requests)
    as (s' & results & Hrun & _ & _ & Hhist); [done|done|lia|done|done|].
  exists s', results. split_and!; [done|done|].
  rewrite Hhist, keep_length. lia.
Qed.

Lemma history_latest_witness :
  ∃ s' results,
    CalculateOrders 2 (λ _, range_default) 0 main_storage [100; 200; 300; 400]
    = Done (s', results) ∧
    orders s' = keep (Z.to_nat 2) (orders main_storage ++ results.*1) ∧
    Z.of_nat (length (orders s')) ≤ 2.
Proof.
  apply (history_latest 2 (λ _, range_default) main_storage [100; 200; 300; 400]).
  - by vm_compute.
  - split_and!; [done|repeat constructor; by vm_compute|by vm_compute].
  - by vm_compute.
  - intros k i j m. done.
  - repeat constructor; by vm_compute.
Defined.

Lemma appendOrder_panics SoftLimit history o :
  min_int < SoftLimit ≤ 0 → Z.of_nat (length history) ≤ max_int →
  appendOrder SoftLimit history o = Panic.
Proof.
  intros HL Hlen. unfold appendOrder.
  destruct (Z.leb_spec SoftLimit (Z.of_nat (length history))); [|lia].
  unfold int_sub. rewrite (wrap_in_range (SoftLimit - 1)) by (unfold in_range; lia).
  unfold slice_from.
  destruct (decide (Z.of_nat (length history) - (SoftLimit - 1) ≤ max_int)).
  - rewrite wrap_in_range by (pose proof min_int_neg; unfold in_range; lia).
    by rewrite decide_False by lia.
  - assert (max_int = 2 ^ 63 - 1) as Hmax by reflexivity.
    assert (min_int = - 2 ^ 63) as Hmin by reflexivity.
    rewrite wrap_above by lia.
    rewrite decide_False; [done|]. lia.
Qed.

(** X17. A soft limit of zero or below breaks [CalculateOrder]: on a catalog
    that is not empty every call panics, in the slice expression that trims the
    history, and so returns no order. *)
Theorem CalculateOrder_panics_without_limit SoftLimit (r : nat → nat → MapRange) s R :
  storage_ok s → min_int < SoftLimit ≤ 0 → (∀ i j, valid_range (r i j)) →
  0 < R ≤ max_int →
  CalculateOrder SoftLimit r s R = Panic.
Proof.
  intros Hs HL Hr HR. rewrite CalculateOrder_append by done.
  rewrite appendOrder_panics; [done|done|]. apply Hs.
Qed.

Lemma CalculateOrder_panics_without_limit_witness :
  CalculateOrder 0 range_default main_storage 500 = Panic.
Proof.
  apply (CalculateOrder_panics_without_limit 0 range_default main_storage 500).
  - split_and!; [done|repeat constructor; by vm_compute|by vm_compute].
  - by vm_compute.
  - intros i j m. done.
  - by vm_compute.
Defined.

(** ** Requests and catalogs the handlers keep out *)

Lemma useFullPacks_loop_zero ps r o :
  StronglySorted desc ps → Forall (λ p, Amount p ≤ max_int) ps →
  0 ∈ amounts ps → 0 ≤ r ≤ max_int →
  useFullPacks_loop ps (r, o) = Panic.
Proof.
  intros Hsorted. revert r o.
  induction Hsorted as [|p ps _ IH Hhd]; intros r o Hmax Hzero Hr; simpl.
  - by apply elem_of_nil in Hzero.
  - apply Forall_cons in Hmax as [Hp Hmax].
    destruct (decide (Amount p = 0)) as [Heq|Hne].
    { rewrite Heq. destruct (Z.leb_spec 0 r); [|lia].
      unfold int_quo. by rewrite decide_True. }
    apply elem_of_cons in Hzero as [?|Hzero]; [done|].
    assert (0 < Amount p) as Hpos.
    { apply list_elem_of_fmap in Hzero as (q & Hq & Hin).
      apply (proj1 (Forall_forall _ _) Hhd) in Hin. unfold desc in Hin. lia. }
    pose proof (div_mul_bounds r (Amount p) ltac:(lia) Hpos) as Hdiv.
    pose proof min_int_neg.
    destruct (Z.leb_spec (Amount p) r); [|osimpl; by apply IH].
    rewrite int_quo_pos by lia. osimpl.
    destruct (0 <? r `div` Amount p); osimpl; [|by apply IH].
    unfold int_sub, int_mul.
    rewrite (wrap_in_range (_ * _)) by (unfold in_range; lia).
    rewrite (wrap_in_range (r - _)) by (unfold in_range; lia).
    apply IH; [done|done|lia].
Qed.

(** X18. The storage accepts a pack of amount 0 (only the HTTP handler rejects
    it), and with it in the catalog [CalculateOrder] panics for every request
    that is not negative: greedy fill divides by the pack amount. *)
Theorem CalculateOrder_panics_on_zero_pack SoftLimit (r : nat → nat → MapRange) s R :
  Forall (λ p, Amount p ≤ max_int) (packs s) → 0 ∈ amounts (packs s) →
  0 ≤ R ≤ max_int →
  CalculateOrder SoftLimit r s R = Panic.
Proof.
  intros Hmax Hzero HR. unfold CalculateOrder.
  rewrite decide_False.
  2:{ intros Hlen. destruct (packs s); [by apply elem_of_nil in Hzero|done]. }
  cbn zeta. rewrite getPacks_id. unfold useFullPacks. simpl.
  rewrite useFullPacks_loop_zero; [done|apply sort_desc_sorted| | |done].
  - by rewrite sort_by_perm.
  - unfold amounts. by rewrite sort_by_perm.
Qed.

Lemma CalculateOrder_panics_on_zero_pack_witness :
  CalculateOrder 20 range_default (AddPack 20 main_storage 0).1 500 = Panic.
Proof.
  apply (CalculateOrder_panics_on_zero_pack 20 range_default (AddPack 20 main_storage 0).1 500).
  - repeat constructor; by vm_compute.
  - vm_compute. do 5 right. by left.
  - by vm_compute.
Defined.

Lemma useFullPacks_loop_nothing ps r o :
  Forall (λ p, r < Amount p) ps → useFullPacks_loop ps (r, o) = Done (r, o).
Proof.
  induction 1 as [|p ps Hp _ IH]; simpl; [done|].
  destruct (Z.leb_spec (Amount p) r); [lia|]. osimpl. done.
Qed.

Lemma range_empty (rng : MapRange) : valid_range rng → rng ∅ = [].
Proof.
  intros Hr. apply Permutation_nil_r. by rewrite (Hr ∅), map_to_list_empty.
Qed.

Lemma tryMergeSameSizePacks_from_empty j (rs : nat → MapRange) avail o :
  (∀ j, valid_range (rs j)) →
  tryMergeSameSizePacks_from j rs ∅ avail o = Done (false, o).
Proof.
  intros Hr. revert j. induction avail as [|p avail IH]; intros j; simpl; [done|].
  rewrite range_empty by done. simpl. osimpl. apply IH.
Qed.

Lemma tryMergeDifferentSizePacks_no_lines avail o :
  Packs o = [] → tryMergeDifferentSizePacks avail o = Done o.
Proof.
  intros Ho. induction avail as [|p avail IH]; simpl; [done|].
  rewrite Ho. simpl. osimpl. done.
Qed.

Lemma mergePacks_no_lines (r : nat → nat → MapRange) ps o :
  (∀ i j, valid_range (r i j)) → Packs o = [] → mergePacks r ps o = Done o.
Proof.
  intros Hr Ho. unfold mergePacks. generalize (getSortedPackSizes ps). intros avail.
  generalize (length avail). intros n. generalize 0%nat.
  induction n as [|n IH]; intros i; simpl; [done|].
  assert (mergePacks_body (r i) avail o = Done o) as ->; [|osimpl; apply IH].
  unfold mergePacks_body, tryMergeSameSizePacks. rewrite Ho. simpl.
  rewrite tryMergeSameSizePacks_from_empty by done. osimpl.
  by apply tryMergeDifferentSizePacks_no_lines.
Qed.

(** X19. A request of zero or below (which only the HTTP handler rejects) is
    answered with an order without lines: [TotalItems] is 0, [OverpackedItems]
    is the request negated, and the order is recorded in the history like any
    other. *)
Theorem CalculateOrder_nonpositive SoftLimit (r : nat → nat → MapRange) s R :
  storage_ok s → 0 < SoftLimit ≤ max_int → (∀ i j, valid_range (r i j)) →
  min_int < R ≤ 0 →
  ∃ s',
    CalculateOrder SoftLimit r s R = Done (s', mkOrder R (- R) 0 [], None) ∧
    last (orders s') = Some (mkOrder R (- R) 0 []).
Proof.
  intros (Hne & Hps & Hlen) HL Hr HR. unfold CalculateOrder.
  rewrite decide_False by (by destruct (packs s)).
  cbn zeta. rewrite getPacks_id. unfold useFullPacks. simpl.
  rewrite useFullPacks_loop_nothing.
  2:{ apply Forall_forall. intros p Hp. rewrite sort_by_perm in Hp.
      apply (proj1 (Forall_forall _ _) Hps) in Hp. lia. }
  osimpl. unfold addPackForRemainingItems.
  destruct (Z.leb_spec R 0); [|lia]. osimpl. simpl.
  rewrite mergePacks_no_lines by done. osimpl.
  rewrite appendOrder_retained by done. osimpl.
  unfold int_sub. assert (max_int = 2 ^ 63 - 1) as Hmax by reflexivity.
  assert (min_int = - 2 ^ 63) as Hmin by reflexivity.
  rewrite wrap_in_range by (unfold in_range; lia).
  replace (0 - R) with (- R) by lia.
  eexists. split; [done|]. simpl. by rewrite last_snoc.
Qed.

Lemma CalculateOrder_nonpositive_witness :
  ∃ s',
    CalculateOrder 20 range_default main_storage (-5)
    = Done (s', mkOrder (-5) (- -5) 0 [], None) ∧
    last (orders s') = Some (mkOrder (-5) (- -5) 0 []).
Proof.
  apply (CalculateOrder_nonpositive 20 range_default main_storage (-5)).
  - split_and!; [done|repeat constructor; by vm_compute|by vm_compute].
  - by vm_compute.
  - intros i j m. done.
  - by vm_compute.
Defined.

(** * The HTTP handlers *)

(** ** The storage behind the handlers *)

Lemma AddPack_cases SoftLimit s amount :
  AddPack SoftLimit s amount = (s, None) ∨
  AddPack SoftLimit s amount = (s, Some ErrSoftLimitReached) ∨
  AddPack SoftLimit s amount =
    (mkPackStorage (sort_by (λ a b, b <? a) (packs s ++ [mkPack amount])) (orders s), None).
Proof.
  unfold AddPack. destruct (hasAmount _ _); [by left|].
  destruct (_ <=? _); [right; by left|right; by right].
Qed.

Lemma UpdatePack_cases s oldAmount newAmount :
  UpdatePack s oldAmount newAmount = (s, Some ErrPackExists) ∨
  UpdatePack s oldAmount newAmount = (s, Some ErrPackNotFound) ∨
  ∃ l1 p l2, packs s = l1 ++ p :: l2 ∧
    UpdatePack s oldAmount newAmount =
      (mkPackStorage (sort_by (λ a b, b <? a) (l1 ++ mkPack newAmount :: l2)) (orders s),
       None).
Proof.
  unfold UpdatePack. destruct (hasAmount _ _); [by left|].
  destruct (setFirst _ _ _) as [ps|] eqn:Hset; [|right; by left].
  apply setFirst_Some in Hset as (l1 & p & l2 & Hps & ->).
  right; right. by exists l1, p, l2.
Qed.

Lemma DeletePack_cases s amount :
  DeletePack s amount = (s, Some ErrPackNotFound) ∨
  ∃ l1 p l2, packs s = l1 ++ p :: l2 ∧
    DeletePack s amount = (mkPackStorage (l1 ++ l2) (orders s), None).
Proof.
  unfold DeletePack. destruct (removeFirst _ _) as [ps|] eqn:Hrem; [|by left].
  apply removeFirst_Some in Hrem as (l1 & p & l2 & Hps & ->).
  right. by exists l1, p, l2.
Qed.

Lemma served_packs SoftLimit s s' :
  served SoftLimit s → orders s' = orders s →
  catalog_inv SoftLimit (packs s') → valid_packs (packs s') → served SoftLimit s'.
Proof. intros (_ & _ & Hlen) Ho ? ?. split_and!; [done|done|by rewrite Ho]. Qed.

Ltac status_answered :=
  cbv [answered];
  first [ apply list_elem_of_here
        | do 1 apply list_elem_of_further; apply list_elem_of_here
        | do 2 apply list_elem_of_further; apply list_elem_of_here
        | do 3 apply list_elem_of_further; apply list_elem_of_here
        | do 4 apply list_elem_of_further; apply list_elem_of_here ].

Lemma Packs_AddPack_served SoftLimit s amount :
  served SoftLimit s → int_param amount →
  served SoftLimit (Packs_AddPack SoftLimit s amount).1 ∧
  answered (Packs_AddPack SoftLimit s amount).2.
Proof.
  intros Hs Hamount. unfold Packs_AddPack.
  destruct amount as [amount|]; [|split; [done|status_answered]].
  destruct (Z.leb_spec amount 0); [split; [done|status_answered]|].
  pose proof (AddPack_inv SoftLimit s amount (proj1 Hs)) as Hinv.
  destruct (AddPack_cases SoftLimit s amount) as [H1|[H1|H1]]; rewrite H1 in Hinv |- *;
    simpl in *; [split; [done|status_answered]..|].
  split; [|status_answered].
  apply (served_packs SoftLimit s); [done|done|done|]. simpl.
  apply valid_packs_sorted, Forall_app. split; [apply Hs|].
  apply Forall_singleton. simpl. destruct Hamount. lia.
Qed.

Lemma Packs_UpdatePack_served SoftLimit s oldAmount newAmount :
  served SoftLimit s → int_param newAmount →
  served SoftLimit (Packs_UpdatePack s oldAmount newAmount).1 ∧
  answered (Packs_UpdatePack s oldAmount newAmount).2.
Proof.
  intros Hs Hamount. unfold Packs_UpdatePack.
  destruct oldAmount as [oldAmount|];
    [|split; [done|status_answered]].
  destruct (Z.leb_spec oldAmount 0);
    [split; [done|status_answered]|].
  destruct newAmount as [newAmount|];
    [|split; [done|status_answered]].
  destruct (Z.leb_spec newAmount 0);
    [split; [done|status_answered]|].
  pose proof (UpdatePack_inv SoftLimit s oldAmount newAmount (proj1 Hs)) as Hinv.
  destruct (UpdatePack_cases s oldAmount newAmount) as [H1|[H1|(l1 & p & l2 & Hps & H1)]];
    rewrite H1 in Hinv |- *; simpl in *;
    [split; [done|status_answered]..|].
  split; [|status_answered].
  apply (served_packs SoftLimit s); [done|done|done|]. simpl.
  destruct Hs as (_ & Hvalid & _). rewrite Hps in Hvalid.
  apply Forall_app in Hvalid as [Hl1 Hl2]. apply Forall_cons in Hl2 as [_ Hl2].
  apply valid_packs_sorted, Forall_app. split; [done|].
  apply Forall_cons. split; [|done]. simpl. destruct Hamount. lia.
Qed.

Lemma Packs_DeletePack_served SoftLimit s amount :
  served SoftLimit s →
  served SoftLimit (Packs_DeletePack s amount).1 ∧
  answered (Packs_DeletePack s amount).2.
Proof.
  intros Hs. unfold Packs_DeletePack.
  destruct amount as [amount|]; [|split; [done|status_answered]].
  destruct (Z.leb_spec amount 0); [split; [done|status_answered]|].
  pose proof (DeletePack_inv SoftLimit s amount (proj1 Hs)) as Hinv.
  destruct (DeletePack_cases s amount) as [H1|(l1 & p & l2 & Hps & H1)];
    rewrite H1 in Hinv |- *; simpl in *; [done|].
  split; [|done].
  apply (served_packs SoftLimit s); [done|done|done|]. simpl.
  destruct Hs as (_ & Hvalid & _). rewrite Hps in Hvalid.
  apply Forall_app in Hvalid as [Hl1 Hl2]. apply Forall_cons in Hl2 as [_ Hl2].
  apply Forall_app. done.
Qed.

Lemma served_sorted SoftLimit s :
  served SoftLimit s → sort_by (λ a b, b <? a) (packs s) = packs s.
Proof.
  intros ((_ & Hsorted & _) & _). symmetry.
  by apply sort_by_unique, desc_of_sdesc.
Qed.

Lemma Orders_CreateOrder_run SoftLimit (r : nat → nat → MapRange) s R :
  0 < SoftLimit ≤ max_int → (∀ i j, valid_range (r i j)) →
  served SoftLimit s → 0 < R ≤ max_int →
  Orders_CreateOrder SoftLimit r s (Some R) =
    if decide (packs s = [])
    then Done (s, JSON StatusNotFound (error_body "No packs available"))
    else Done (mkPackStorage (packs s)
                 (keep (Z.to_nat SoftLimit) (orders s ++ [calculated (packs s) R])),
               JSON StatusOK (order_body (calculated (packs s) R))).
Proof.
  intros HL Hr Hs HR. unfold Orders_CreateOrder.
  destruct (Z.leb_spec R 0); [lia|].
  destruct (decide (packs s = [])) as [Hnil|Hne].
  { unfold CalculateOrder. rewrite decide_True by (by rewrite Hnil). by osimpl. }
  destruct Hs as (Hinv & Hvalid & Hlen).
  rewrite CalculateOrder_append by (done || (split_and!; [done|done|lia])).
  rewrite appendOrder_retained by (done || lia). osimpl.
  rewrite retained_keep by lia.
  by rewrite (served_sorted SoftLimit s).
Qed.

(** ** The answers of the handlers *)

(** X20. [POST /orders/items/{amount}] on a storage of the server, for a
    parameter that is an [int]: 400 unless the amount was parsed and is
    positive, 404 when the catalog is empty, and otherwise 200 with the
    calculated order, which becomes the last entry of a history of at most
    [SoftLimit] orders.  The handler never panics and never answers 500. *)
Theorem Orders_CreateOrder_answers SoftLimit (r : nat → nat → MapRange) s amount :
  0 < SoftLimit ≤ max_int → (∀ i j, valid_range (r i j)) →
  served SoftLimit s → int_param amount →
  Orders_CreateOrder SoftLimit r s amount =
    match amount with
    | Some R =>
        if decide (R ≤ 0)
        then Done (s, JSON StatusBadRequest (error_body "Invalid amount"))
        else if decide (packs s = [])
        then Done (s, JSON StatusNotFound (error_body "No packs available"))
        else Done (mkPackStorage (packs s)
                     (keep (Z.to_nat SoftLimit) (orders s ++ [calculated (packs s) R])),
                   JSON StatusOK (order_body (calculated (packs s) R)))
    | None => Done (s, JSON StatusBadRequest (error_body "Invalid amount"))
    end.
Proof.
  intros HL Hr Hs Hamount. destruct amount as [R|]; [|done].
  destruct (decide (R ≤ 0)).
  { unfold Orders_CreateOrder. by destruct (Z.leb_spec R 0); [|lia]. }
  apply Orders_CreateOrder_run; [done..|]. destruct Hamount. lia.
Qed.

Lemma Orders_CreateOrder_answers_witness :
  Orders_CreateOrder 20 range_default main_storage (Some 501) =
    if decide (501 ≤ 0)
    then Done (main_storage, JSON StatusBadRequest (error_body "Invalid amount"))
    else if decide (packs main_storage = [])
    then Done (main_storage, JSON StatusNotFound (error_body "No packs available"))
    else Done (mkPackStorage (packs main_storage)
                 (keep (Z.to_nat 20)
                    (orders main_storage ++ [calculated (packs main_storage) 501])),
               JSON StatusOK (order_body (calculated (packs main_storage) 501))).
Proof.
  apply (Orders_CreateOrder_answers 20 range_default main_storage (Some 501)).
  - by vm_compute.
  - intros i j m. done.
  - split_and!.
    + split_and!; [|repeat constructor; by vm_compute|by vm_compute].
      apply (bool_decide_unpack _). by vm_compute.
    + repeat constructor; by vm_compute.
    + by vm_compute.
  - by vm_compute.
Defined.

Lemma serve_served SoftLimit (r : nat → nat → MapRange) s req :
  0 < SoftLimit ≤ max_int → (∀ i j, valid_range (r i j)) →
  served SoftLimit s → wf_request req →
  ∃ s' resp, serve SoftLimit r s req = Done (s', resp) ∧
             served SoftLimit s' ∧ answered resp.
Proof.
  intros HL Hr Hs Hreq.
  destruct req as [|amount|oldAmount newAmount|amount|amount|]; simpl.
  - eexists _, _. split; [done|]. split; [done|]. status_answered.
  - destruct (Packs_AddPack_served SoftLimit s amount Hs Hreq).
    destruct (Packs_AddPack _ _ _) as [s' resp]. by exists s', resp.
  - destruct (Packs_UpdatePack_served SoftLimit s oldAmount newAmount Hs (proj2 Hreq)).
    destruct (Packs_UpdatePack _ _ _) as [s' resp]. by exists s', resp.
  - destruct (Packs_DeletePack_served SoftLimit s amount Hs).
    destruct (Packs_DeletePack _ _) as [s' resp]. by exists s', resp.
  - destruct amount as [R|].
    2:{ eexists _, _. split; [done|]. split; [done|]. status_answered. }
    destruct (decide (R ≤ 0)).
    { unfold Orders_CreateOrder. destruct (Z.leb_spec R 0); [|lia].
      eexists _, _. split; [done|]. split; [done|]. status_answered. }
    rewrite Orders_CreateOrder_run by (done || (destruct Hreq; lia)).
    destruct (decide (packs s = [])).
    { eexists _, _. split; [done|]. split; [done|]. status_answered. }
    eexists _, _. split; [done|]. split; [|status_answered].
    destruct Hs as (Hinv & Hvalid & Hlen). split_and!; [done|done|]. simpl.
    rewrite keep_length. lia.
  - eexists _, _. split; [done|]. split; [done|]. status_answered.
Qed.

(** X21. The server keeps its storage in order and never panics: from a storage
    whose catalog has distinct positive amounts, is sorted and within the
    limit, and whose history is within the limit, every sequence of requests
    with [int] parameters is served to the end, the storage is again such a
    storage, and each request got one answer: a JSON document with status 200,
    201, 400, 404 or 409, a bare 204, or [ErrPackNotFound] handed to the
    framework.  No handler answers 500 itself. *)
Theorem serve_all_answered SoftLimit (r : nat → nat → nat → MapRange) k s reqs :
  0 < SoftLimit ≤ max_int → (∀ k i j, valid_range (r k i j)) →
  served SoftLimit s → Forall wf_request reqs →
  ∃ s' resps,
    serve_all SoftLimit r k s reqs = Done (s', resps) ∧
    served SoftLimit s' ∧ length resps = length reqs ∧ Forall answered resps.
Proof.
  intros HL Hr Hs Hreqs. revert k s Hs.
  induction Hreqs as [|req reqs Hreq _ IH]; intros k s Hs; simpl.
  { by exists s, []. }
  destruct (serve_served SoftLimit (r k) s req HL (Hr k) Hs Hreq)
    as (s1 & resp & H1 & Hs1 & Hresp).
  destruct (IH (S k) s1 Hs1) as (s' & resps & H2 & Hs' & Hlen & Hall).
  rewrite H1. osimpl. rewrite H2. osimpl.
  exists s', (resp :: resps). split; [done|].
  split; [done|]. split; [simpl; by rewrite Hlen|by constructor].
Qed.

Lemma serve_all_answered_witness :
  ∃ s' resps,
    serve_all 20 (λ _, range_default) 0 main_storage
      [POST_packs (Some 300); POST_orders_items (Some 501); DELETE_packs (Some 7);
       PUT_packs (Some 250) (Some 0); POST_orders_items None; GET_orders]
    = Done (s', resps) ∧
    served 20 s' ∧
    length resps =
      length [POST_packs (Some 300); POST_orders_items (Some 501); DELETE_packs (Some 7);
              PUT_packs (Some 250) (Some 0); POST_orders_items None; GET_orders] ∧
    Forall answered resps.
Proof.
  apply (serve_all_answered 20 (λ _, range_default) 0 main_storage).
  - by vm_compute.
  - intros k i j m. done.
  - split_and!.
    + split_and!; [|repeat constructor; by vm_compute|by vm_compute].
      apply (bool_decide_unpack _). by vm_compute.
    + repeat constructor; by vm_compute.
    + by vm_compute.
  - repeat constructor; by vm_compute.
Defined.

(** X22. [PUT /packs/{oldAmount}/{newAmount}] with two positive amounts answers
    409 when the new amount is in the catalog (also when it is the old amount
    itself), else 200 when the old amount is there, else 404; whatever the
    parameters, the branch that answers 500 is never taken. *)
Theorem Packs_UpdatePack_answers s :
  (∀ oldAmount newAmount, 0 < oldAmount → 0 < newAmount →
     (Packs_UpdatePack s (Some oldAmount) (Some newAmount)).2 =
       if decide (newAmount ∈ amounts (packs s))
       then JSON StatusConflict (error_body "Pack with new amount already exists")
       else if decide (oldAmount ∈ amounts (packs s))
       then JSON StatusOK (update_body oldAmount newAmount)
       else JSON StatusNotFound (error_body "Pack not found")) ∧
  (∀ oldAmount newAmount b,
     (Packs_UpdatePack s oldAmount newAmount).2 ≠ JSON StatusInternalServerError b).
Proof.
  split.
  - intros oldAmount newAmount Hold Hnew. unfold Packs_UpdatePack, UpdatePack.
    destruct (Z.leb_spec oldAmount 0); [lia|]. destruct (Z.leb_spec newAmount 0); [lia|].
    destruct (decide (newAmount ∈ amounts (packs s))) as [Hin|Hin].
    { apply hasAmount_spec in Hin. by rewrite Hin. }
    destruct (hasAmount newAmount (packs s)) eqn:Hhas;
      [by apply hasAmount_spec in Hhas|].
    destruct (decide (oldAmount ∈ amounts (packs s))) as [Hin'|Hin'].
    + destruct (setFirst _ _ _) eqn:Hset; [done|].
      by apply setFirst_None in Hset.
    + apply (setFirst_None _ newAmount) in Hin'. by rewrite Hin'.
  - intros oldAmount newAmount b. unfold Packs_UpdatePack.
    destruct oldAmount as [oldAmount|]; [|done].
    destruct (oldAmount <=? 0); [done|].
    destruct newAmount as [newAmount|]; [|done].
    destruct (newAmount <=? 0); [done|].
    destruct (UpdatePack_cases s oldAmount newAmount) as [H1|[H1|(l1 & p & l2 & _ & H1)]];
      by rewrite H1.
Qed.

Lemma Packs_UpdatePack_answers_witness :
  (Packs_UpdatePack main_storage (Some 250) (Some 250)).2 =
    if decide (250 ∈ amounts (packs main_storage))
    then JSON StatusConflict (error_body "Pack with new amount already exists")
    else if decide (250 ∈ amounts (packs main_storage))
    then JSON StatusOK (update_body 250 250)
    else JSON StatusNotFound (error_body "Pack not found").
Proof.
  apply (proj1 (Packs_UpdatePack_answers main_storage) 250 250); lia.
Defined.

(** X23. [DELETE /packs/{amount}] with a positive amount answers 204 when the
    amount is in the catalog; when it is not, the handler writes no answer of
    its own but hands [ErrPackNotFound] to the framework, and the storage is
    as it was.  It never answers 404. *)
Theorem Packs_DeletePack_answers s :
  (∀ amount, 0 < amount →
     (amount ∈ amounts (packs s) →
      (Packs_DeletePack s (Some amount)).2 = SendStatus StatusNoContent) ∧
     (amount ∉ amounts (packs s) →
      Packs_DeletePack s (Some amount) = (s, ReturnError ErrPackNotFound))) ∧
  (∀ amount b, (Packs_DeletePack s amount).2 ≠ JSON StatusNotFound b).
Proof.
  split.
  - intros amount Hpos. unfold Packs_DeletePack, DeletePack.
    destruct (Z.leb_spec amount 0); [lia|]. split; intros Hin.
    + destruct (removeFirst _ _) eqn:Hrem; [done|].
      by apply removeFirst_None in Hrem.
    + apply removeFirst_None in Hin. by rewrite Hin.
  - intros amount b. unfold Packs_DeletePack.
    destruct amount as [amount|]; [|done].
    destruct (amount <=? 0); [done|].
    destruct (DeletePack_cases s amount) as [H1|(l1 & p & l2 & _ & H1)]; by rewrite H1.
Qed.

Lemma Packs_DeletePack_answers_witness :
  (7 ∉ amounts (packs main_storage)) ∧
  Packs_DeletePack main_storage (Some 7) = (main_storage, ReturnError ErrPackNotFound).
Proof.
  assert ((7 ∉ amounts (packs main_storage))) as Hnot.
  { apply (bool_decide_unpack _). by vm_compute. }
  split; [done|].
  apply (proj1 (Packs_DeletePack_answers main_storage) 7); [lia|done].
Defined.

(** X24. [POST /packs/{amount}] with a positive amount answers 409, with the
    text of [ErrSoftLimitReached], exactly when the amount is new and the
    catalog is full; in every other case it answers 201, also when the amount
    was in the catalog already and nothing was added. *)
Theorem Packs_AddPack_answers SoftLimit s amount :
  0 < amount →
  Packs_AddPack SoftLimit s (Some amount) =
    if decide ((amount ∉ amounts (packs s)) ∧ SoftLimit ≤ Z.of_nat (length (packs s)))
    then (s, JSON StatusConflict (error_body "soft limit reached, cannot add more packs"))
    else if decide (amount ∈ amounts (packs s))
    then (s, JSON StatusCreated (amount_body amount))
    else ((AddPack SoftLimit s amount).1, JSON StatusCreated (amount_body amount)).
Proof.
  intros Hpos. unfold Packs_AddPack, AddPack.
  destruct (Z.leb_spec amount 0); [lia|].
  destruct (hasAmount amount (packs s)) eqn:Hhas.
  - apply hasAmount_spec in Hhas.
    rewrite decide_False by tauto. by rewrite decide_True.
  - assert (amount ∉ amounts (packs s)) as Hnot.
    { intros Hin. apply hasAmount_spec in Hin. congruence. }
    destruct (Z.leb_spec SoftLimit (Z.of_nat (length (packs s)))).
    + by rewrite decide_True.
    + rewrite decide_False by lia. by rewrite decide_False.
Qed.

Lemma Packs_AddPack_answers_witness :
  Packs_AddPack 5 main_storage (Some 250) =
    if decide ((250 ∉ amounts (packs main_storage)) ∧
               5 ≤ Z.of_nat (length (packs main_storage)))
    then (main_storage,
          JSON StatusConflict (error_body "soft limit reached, cannot add more packs"))
    else if decide (250 ∈ amounts (packs main_storage))
    then (main_storage, JSON StatusCreated (amount_body 250))
    else ((AddPack 5 main_storage 250).1, JSON StatusCreated (amount_body 250)).
Proof.
  apply (Packs_AddPack_answers 5 main_storage 250). lia.
Defined.
